(** * Batched beam search of nmtpytorch (search.py): a shallow embedding

    The development follows [src/MMT/nmtpytorch/search.py]:
    [tile_ctx_dict] (lines 9-15) and [beam_search] (lines 18-180).

    Modelling conventions.
    - Float tensors hold exact rationals ([Qc], canonical, so that equality
      is Leibniz equality); rounding is not modelled.
    - Long tensors hold natural numbers: every integer the code puts in one is
      a vocabulary id or a position.
    - A 2-D tensor is a list of rows; the beam tensor is indexed
      [time][sample][slot].
    - Python exceptions are values of [exn]; fallible code returns [res].
    - The tensor library's [topk] and float power are interfaces ([TopK],
      [FloatPow]): the code only relies on their contracts.

    The last parts of the file embed the parameter groups of
    [src/MMT/nmtpytorch/optimizer.py] and the extraction loop of
    [src/MMT/bin/extract.py]. *)

From Stdlib Require Import List Arith PeanoNat Lia Bool.
From Stdlib Require String Ascii.
From Stdlib Require Import QArith Qcanon Qround.
From Stdlib Require Import Permutation Sorting.Sorted.
Import ListNotations.

Import String.StringSyntax.
Abbreviation string := String.string.
Delimit Scope string_scope with string.
Local Open Scope nat_scope.

(** ** Exceptions and the error monad *)

Inductive exn : Type :=
| IndexError      (* an index outside a list or tensor dimension *)
| RuntimeError    (* a shape or size the tensor library refuses *)
| ValueError.     (* unpacking an empty [zip] *)

Inductive res (A : Type) : Type :=
| Ok (a : A)
| Err (e : exn).

Arguments Ok {A} a.
Arguments Err {A} e.

Definition bind {A B : Type} (m : res A) (f : A -> res B) : res B :=
  match m with
  | Ok a => f a
  | Err e => Err e
  end.

Notation "x <- m ;; k" := (bind m (fun x => k))
  (at level 61, m at next level, right associativity).
Notation "' p <- m ;; k" := (bind m (fun x => let 'p := x in k))
  (at level 61, p pattern, m at next level, right associativity).

Definition is_ok {A : Type} (m : res A) : bool :=
  match m with Ok _ => true | Err _ => false end.

Fixpoint mapM {A B : Type} (f : A -> res B) (l : list A) : res (list B) :=
  match l with
  | [] => Ok []
  | a :: l' => b <- f a ;; bs <- mapM f l' ;; Ok (b :: bs)
  end.

(** ** Indexing *)

(** [x[i]] for a position [i]: IndexError outside the list. *)
Definition get {A : Type} (l : list A) (i : nat) : res A :=
  match nth_error l i with
  | Some a => Ok a
  | None => Err IndexError
  end.

(** [x[idxs]] along the first axis (index_select / advanced indexing): a
    fresh sequence whose entry [j] is [x[idxs[j]]]. *)
Definition gather {A : Type} (l : list A) (idxs : list nat) : res (list A) :=
  mapM (get l) idxs.

(** [x[:, idxs]]: the same selection inside every row of the first axis. *)
Definition index_axis1 {A : Type} (x : list (list A)) (idxs : list nat)
  : res (list (list A)) :=
  mapM (fun row => gather row idxs) x.

(** ** Context dictionaries and [tile_ctx_dict] (lines 9-15) *)

(** A context tensor is [time][sample][feature]; a mask is [time][sample]. *)
Definition tensor3 := list (list (list Qc)).
Definition mask_t := list (list Qc).

(** A Python dict in insertion order: the comprehension visits the items in
    that order and keys are pairwise distinct. *)
Definition ctx_dict := list (string * (tensor3 * option mask_t)).

Definition tile_entry (idxs : list nat) (kv : string * (tensor3 * option mask_t))
  : res (string * (tensor3 * option mask_t)) :=
  let '(k, (t, mask)) := kv in
  t' <- index_axis1 t idxs ;;
  mask' <- match mask with
           | None => Ok None
           | Some m => m' <- index_axis1 m idxs ;; Ok (Some m')
           end ;;
  Ok (k, (t', mask')).

Definition tile_ctx_dict (cd : ctx_dict) (idxs : list nat) : res ctx_dict :=
  mapM (tile_entry idxs) cd.

(** The same function over an object store, to speak about mutation: tensors
    live in a heap, a dictionary holds references, and indexing allocates. *)
Module Heap.

Inductive obj : Type :=
| OTensor (t : tensor3)
| OMask (m : mask_t).

Definition heap := list obj.
Definition loc := nat.

Definition alloc (h : heap) (o : obj) : heap * loc := (h ++ [o], length h).

Definition read_tensor (h : heap) (l : loc) : res tensor3 :=
  match nth_error h l with
  | Some (OTensor t) => Ok t
  | _ => Err RuntimeError
  end.

Definition read_mask (h : heap) (l : loc) : res mask_t :=
  match nth_error h l with
  | Some (OMask m) => Ok m
  | _ => Err RuntimeError
  end.

Definition ctx_ref := list (string * (loc * option loc)).

Definition tile_entry (idxs : list nat) (h : heap)
           (kv : string * (loc * option loc))
  : res (heap * (string * (loc * option loc))) :=
  let '(k, (lt, lmask)) := kv in
  t <- read_tensor h lt ;;
  t' <- index_axis1 t idxs ;;
  let '(h1, lt') := alloc h (OTensor t') in
  match lmask with
  | None => Ok (h1, (k, (lt', None)))
  | Some lm =>
      m <- read_mask h1 lm ;;
      m' <- index_axis1 m idxs ;;
      let '(h2, lm') := alloc h1 (OMask m') in
      Ok (h2, (k, (lt', Some lm')))
  end.

Fixpoint tile_ctx_dict (h : heap) (cd : ctx_ref) (idxs : list nat)
  : res (heap * ctx_ref) :=
  match cd with
  | [] => Ok (h, [])
  | kv :: cd' =>
      '(h1, kv') <- tile_entry idxs h kv ;;
      '(h2, out) <- tile_ctx_dict h1 cd' idxs ;;
      Ok (h2, kv' :: out)
  end.

(** The dictionary of values a dictionary of references denotes. *)
Definition deref_entry (h : heap) (kv : string * (loc * option loc))
  : res (string * (tensor3 * option mask_t)) :=
  let '(k, (lt, lmask)) := kv in
  t <- read_tensor h lt ;;
  mask <- match lmask with
          | None => Ok None
          | Some lm => m <- read_mask h lm ;; Ok (Some m)
          end ;;
  Ok (k, (t, mask)).

Definition deref (h : heap) (cd : ctx_ref) : res ctx_dict :=
  mapM (deref_entry h) cd.

End Heap.

(** ** Basic facts *)

Lemma bind_ok_inv {A B : Type} (m : res A) (f : A -> res B) (b : B) :
  bind m f = Ok b -> exists a, m = Ok a /\ f a = Ok b.
Proof. destruct m as [a|e]; simpl; intros H; [eauto | discriminate]. Qed.

Lemma get_ok {A : Type} (l : list A) (i : nat) (d : A) :
  i < length l -> get l i = Ok (nth i l d).
Proof.
  intros H. unfold get.
  rewrite (nth_error_nth' l d H). reflexivity.
Qed.

Lemma get_err {A : Type} (l : list A) (i : nat) :
  length l <= i -> get l i = Err IndexError.
Proof.
  intros H. unfold get.
  apply nth_error_None in H. rewrite H. reflexivity.
Qed.

Lemma mapM_ok {A B : Type} (f : A -> res B) (g : A -> B) (l : list A) :
  Forall (fun a => f a = Ok (g a)) l -> mapM f l = Ok (map g l).
Proof.
  induction 1 as [|a l Ha _ IH]; simpl; [reflexivity|].
  rewrite Ha, IH. reflexivity.
Qed.

Lemma mapM_ok_inv {A B : Type} (f : A -> res B) (l : list A) (bs : list B) :
  mapM f l = Ok bs -> Forall2 (fun a b => f a = Ok b) l bs.
Proof.
  revert bs. induction l as [|a l IH]; simpl; intros bs H.
  - injection H as <-. constructor.
  - apply bind_ok_inv in H as (b & Hb & H).
    apply bind_ok_inv in H as (bs' & Hbs & H).
    injection H as <-. constructor; auto.
Qed.

Lemma mapM_length {A B : Type} (f : A -> res B) (l : list A) (bs : list B) :
  mapM f l = Ok bs -> length bs = length l.
Proof.
  intros H. apply mapM_ok_inv in H.
  symmetry. eapply Forall2_length; eauto.
Qed.

Lemma mapM_ext_in {A B : Type} (f g : A -> res B) (l : list A) :
  (forall a, In a l -> f a = g a) -> mapM f l = mapM g l.
Proof.
  induction l as [|a l IH]; simpl; intros H; [reflexivity|].
  rewrite (H a (or_introl eq_refl)), IH; auto.
Qed.

Lemma gather_ok {A : Type} (l : list A) (idxs : list nat) (d : A) :
  Forall (fun i => i < length l) idxs ->
  gather l idxs = Ok (map (fun i => nth i l d) idxs).
Proof.
  intros H. unfold gather. apply mapM_ok.
  eapply Forall_impl; [|exact H]. intros i Hi. now apply get_ok.
Qed.

Lemma gather_err {A : Type} (l : list A) (idxs : list nat) :
  Exists (fun i => length l <= i) idxs -> exists e, gather l idxs = Err e.
Proof.
  unfold gather. induction 1 as [i idxs Hi | i idxs _ IH]; simpl.
  - rewrite (get_err _ _ Hi). simpl. eauto.
  - destruct (get l i); simpl; [|eauto].
    destruct IH as (e & ->). simpl. eauto.
Qed.

Lemma index_axis1_ok {A : Type} (x : list (list A)) (idxs : list nat) (d : A) :
  Forall (fun row => Forall (fun i => i < length row) idxs) x ->
  index_axis1 x idxs = Ok (map (fun row => map (fun i => nth i row d) idxs) x).
Proof.
  intros H. unfold index_axis1. apply mapM_ok.
  eapply Forall_impl; [|exact H]. intros row Hrow. now apply gather_ok.
Qed.

(** ** Float and long tensors *)

Definition tensor2 := list (list Qc).
Definition beam_t := list (list (list nat)).

Definition Qcleb (x y : Qc) : bool := Qle_bool x y.
Definition Qcltb (x y : Qc) : bool := negb (Qle_bool y x).

(** An integer literal or long value read as a float. *)
Definition qc (z : Z) : Qc := Q2Qc (inject_Z z).

(** The suppression and pinning constant, [inf = -1000]. *)
Definition inf : Qc := qc (-1000).

(** [l[i] = v], a no-op outside the list (the callers check the range). *)
Fixpoint upd {A : Type} (i : nat) (v : A) (l : list A) : list A :=
  match l, i with
  | [], _ => []
  | _ :: l', 0 => v :: l'
  | a :: l', S i' => a :: upd i' v l'
  end.

(** [f] applied to every element together with its position, from [n] on. *)
Fixpoint imap_from {A B : Type} (n : nat) (f : nat -> A -> B) (l : list A)
  : list B :=
  match l with
  | [] => []
  | a :: l' => f n a :: imap_from (S n) f l'
  end.

Definition imap {A B : Type} (f : nat -> A -> B) (l : list A) : list B :=
  imap_from 0 f l.

Definition mem (i : nat) (l : list nat) : bool := existsb (Nat.eqb i) l.

(** [log_p[:, c] = v] *)
Definition fill_col (c : nat) (v : Qc) (m : tensor2) : res tensor2 :=
  mapM (fun row => if c <? length row then Ok (upd c v row)
                   else Err IndexError) m.

(** [(idxs == v).nonzero()]: the positions holding [v], ascending. *)
Definition nonzero_eq (v : nat) (idxs : list nat) : list nat :=
  filter (fun i => nth i idxs 0 =? v) (seq 0 (length idxs)).

(** [m.index_fill_(0, rows, v)]: every listed row becomes constant [v]. *)
Definition index_fill_rows (rows : list nat) (v : Qc) (m : tensor2)
  : res tensor2 :=
  if forallb (fun i => i <? length m) rows
  then Ok (imap (fun i row => if mem i rows then map (fun _ => v) row
                              else row) m)
  else Err IndexError.

(** [m.view(-1).index_fill_(0, ps, v)]: flat position [r * cols + c] of a
    [rows x cols] tensor is entry [(r, c)]. *)
Definition flat_fill (ps : list nat) (v : Qc) (m : tensor2) : res tensor2 :=
  let cols := length (hd [] m) in
  if forallb (fun p => p <? length m * cols) ps
  then Ok (imap (fun r row =>
                   imap (fun c x => if mem (r * cols + c) ps then v else x) row)
                m)
  else Err IndexError.

(** Lines 131-135: unfavor every candidate of the finished rows, then favor
    entry 2 of each. *)
Definition pin (n_vocab : nat) (fin : list nat) (log_p : tensor2)
  : res tensor2 :=
  m <- index_fill_rows fin inf log_p ;;
  flat_fill (map (fun i => i * n_vocab + 2) fin) 0%Qc m.

(** [groups] consecutive blocks of [n] elements. *)
Fixpoint chunk {A : Type} (n groups : nat) (l : list A) : list (list A) :=
  match groups with
  | 0 => []
  | S g => firstn n l :: chunk n g (skipn n l)
  end.

(** [log_p.view(B, -1, V)] for a [N x V] tensor: [B] groups of [N / B]
    rows.  A width other than [V], or sizes that do not divide, are refused
    (the library would regroup a width that happens to divide; no adapter
    with the vocabulary's width gets there). *)
Definition view3 (B V : nat) (log_p : tensor2) : res (list tensor2) :=
  if (B =? 0) || (V =? 0)
     || negb (forallb (fun row => length row =? V) log_p)
     || negb (length log_p mod B =? 0)
  then Err RuntimeError
  else Ok (chunk (length log_p / B) B log_p).

(** One sample of [nll.unsqueeze_(2).add(...).view(B, -1)]: slot [j]'s score
    added to each entry of slot [j]'s row, rows laid side by side. *)
Definition add_scores (nll_b : list Qc) (g : tensor2) : res (list Qc) :=
  if length nll_b =? length g
  then Ok (concat (map (fun sr => map (Qcplus (fst sr)) (snd sr))
                       (combine nll_b g)))
  else Err RuntimeError.

Definition cross_sum (B V : nat) (nll log_p : tensor2) : res tensor2 :=
  g <- view3 B V log_p ;;
  if length nll =? B
  then mapM (fun sg => add_scores (fst sg) (snd sg)) (combine nll g)
  else Err RuntimeError.

(** [x.gather(1, p)] for one time row: slot [j] of sample [b] reads slot
    [p[b][j]] of sample [b]. *)
Definition gather_slots (row p : list (list nat)) : res (list (list nat)) :=
  mapM (fun sp => gather (fst sp) (snd sp)) (combine row p).

(** Line 157: [beam[:t] = beam[:t].gather(2, pdxs.repeat(t, 1, 1))]. *)
Definition reorder_prefix (t : nat) (pdxs : list (list nat)) (beam : beam_t)
  : res beam_t :=
  pre <- mapM (fun row => gather_slots row pdxs) (firstn t beam) ;;
  Ok (pre ++ skipn t beam).

(** Line 153: [pdxs.view(-1) + (nk_mask / k) * (k if t else 1)]. *)
Definition new_tile (t k : nat) (pdxs : list (list nat)) (nk_mask : list nat)
  : list nat :=
  map (fun pm => fst pm + (snd pm / k) * (if t =? 0 then 1 else k))
      (combine (concat pdxs) nk_mask).

(** Token history of slot [j] of sample [b], over time. *)
Definition column (beam : beam_t) (b j : nat) : list nat :=
  map (fun row => nth j (nth b row []) 0) beam.

(** Line 163: [beam.gt(2).float().sum(0).clamp(min=1)], as a count. *)
Definition lengths (B k : nat) (beam : beam_t) : list (list nat) :=
  map (fun b =>
         map (fun j => Nat.max 1 (length (filter (fun x => 2 <? x)
                                                 (column beam b j))))
             (seq 0 k))
      (seq 0 B).

Definition float (n : nat) : Qc := qc (Z.of_nat n).

(** ** Interfaces of the tensor library *)

(** [x.topk(k, sorted=False, largest=True)] on one row: [k] distinct
    positions holding [k] largest entries, in no promised order, with their
    values; refused when the row is shorter than [k]. *)
Class TopK : Type := {
  topk : nat -> list Qc -> res (list Qc * list nat);
  topk_short : forall k l, length l < k -> topk k l = Err RuntimeError;
  topk_spec : forall k l, k <= length l ->
    exists idxs,
      topk k l = Ok (map (fun i => nth i l 0%Qc) idxs, idxs)
      /\ length idxs = k
      /\ NoDup idxs
      /\ Forall (fun i => i < length l) idxs
      /\ (forall i j, In i idxs -> j < length l -> ~ In j idxs ->
                      (nth j l 0 <= nth i l 0)%Qc)
}.

(** Float power [x ** a]; only [x ** 1 = x] is ever used. *)
Class FloatPow : Type := {
  fpow : Qc -> Qc -> Qc;
  fpow_1 : forall x, fpow x 1%Qc = x
}.

(** ** Collaborators *)

(** The target vocabulary: [vocab['<unk>']], [vocab['<eos>']], [len(vocab)]
    and the surface form of an id. *)
Record Vocab : Type := {
  unk : nat;
  eos : nat;
  n_vocab : nat;
  word : nat -> string
}.

(** Modelled from the spec: the ids the Vocabulary gives to padding, begin
    and end of sequence (section 8: pad 0, bos 1, eos 2); the class is not
    among the sources. *)
Definition PAD : nat := 0.
Definition BOS : nat := 1.
Definition EOS : nat := 2.

Fixpoint take_until (e : nat) (l : list nat) : list nat :=
  match l with
  | [] => []
  | x :: l' => if x =? e then [] else x :: take_until e l'
  end.

(** Modelled from the spec: the Vocabulary's decode, "applied per hypothesis,
    stopping at ... the end token" (section 6); the class is not among the
    sources. *)
Definition idxs_to_sent (v : Vocab) (idxs : list nat) : string :=
  String.concat " "%string (map (word v) (take_until (eos v) idxs)).

Definition list_of_idxs_to_sents (v : Vocab) (hyps : list (list nat))
  : list string :=
  map (idxs_to_sent v) hyps.

Record Batch : Type := {
  size : nat;
  samples : list (list nat)
}.

(** A decoder: [f_init], [f_next] and [emb]; states and embeddings are 2-D
    tensors with one row per hypothesis. *)
Record Decoder : Type := {
  f_init : ctx_dict -> tensor2;
  f_next : ctx_dict -> tensor2 -> tensor2 -> tensor2 * tensor2;
  emb : list nat -> tensor2
}.

Record Model : Type := {
  dec : Decoder;
  get_decoder : string -> Decoder;
  trg_vocab : Vocab;
  vocabs : string -> Vocab;
  encode : Batch -> option (list string) -> ctx_dict;
  get_bos : nat -> list nat
}.

Record topology : Type := {
  srcs : list string;
  first_trg : string
}.

(** [Topology(task_id)] of [utils.topology]. *)
Class TopologyResolver : Type := {
  Topology : string -> topology
}.

(** [getattr(batch_sampler, 'store_indices', False)]: an absent attribute
    reads [false]. *)
Record BatchSampler : Type := {
  batch_size : nat;
  store_indices : bool;
  orig_idxs : list nat
}.

Record DataLoader : Type := {
  batch_sampler : BatchSampler;
  batches : list Batch
}.

(** ** The decoding loop (lines 80-174) *)

(** The storage allocated once per call (lines 76-78). *)
Record storage : Type := {
  beam_storage : beam_t;   (* [max_len][max_batch_size][k] *)
  nll_storage : list Qc    (* [max_batch_size] *)
}.

(** The variables the step loop rebinds.  [ls_nll_view] tells whether [nll]
    still is the view of [nll_storage] made at line 91. *)
Record loop_state : Type := {
  ls_beam : beam_t;
  ls_nll : tensor2;
  ls_nll_view : bool;
  ls_idxs : list nat;
  ls_tile : list nat;
  ls_ctx : list ctx_dict;
  ls_h : list tensor2
}.

Inductive ctl (A : Type) : Type :=
| Continue (a : A)
| Break (a : A).

Arguments Continue {A} a.
Arguments Break {A} a.

Definition ctl_state {A : Type} (c : ctl A) : A :=
  match c with
  | Continue a => a
  | Break a => a
  end.

Definition same_shape (a b : tensor2) : bool :=
  (length a =? length b)
  && forallb (fun rr => length (fst rr) =? length (snd rr)) (combine a b).

Definition zip_with {A B C : Type} (f : A -> B -> C) (a : list A) (b : list B)
  : list C :=
  map (fun ab => f (fst ab) (snd ab)) (combine a b).

Definition add2 (a b : tensor2) : res tensor2 :=
  if same_shape a b then Ok (zip_with (zip_with Qcplus) a b)
  else Err RuntimeError.

(** [nll.div_(lp)] *)
Definition div2 (a b : tensor2) : res tensor2 :=
  if same_shape a b then Ok (zip_with (zip_with Qcdiv) a b)
  else Err RuntimeError.

(** [sum(log_ps)], after the unzipping of the decoders' outputs. *)
Definition sum_tensors (ts : list tensor2) : res tensor2 :=
  match ts with
  | [] => Err ValueError
  | t :: ts' => fold_left (fun acc x => a <- acc ;; add2 a x) ts' (Ok t)
  end.

(** [beam_storage.narrow(1, 0, n)] read, and written through. *)
Definition narrow1 {A : Type} (x : list (list A)) (n : nat) : list (list A) :=
  map (firstn n) x.

Definition write_view {A : Type} (x view : list (list A)) : list (list A) :=
  zip_with (fun row vrow => vrow ++ skipn (length vrow) row) x view.

Definition zero_ (x : beam_t) : beam_t :=
  map (map (map (fun _ => 0))) x.

(** Line 160: [beam[max_len - 1] = eos]. *)
Definition force_eos (e max_len : nat) (beam : beam_t) : beam_t :=
  upd (max_len - 1) (map (map (fun _ => e)) (nth (max_len - 1) beam [])) beam.

Section Decode.

Context `{TopK} `{FloatPow}.

Variable decs : list Decoder.
Variable vocab : Vocab.
Variables k max_len max_batch_size : nat.
Variable lp_alpha : Qc.
Variable suppress_unk : bool.
Variable B : nat.   (* [batch.size] *)

(** Lines 109-127: tile the contexts, step every decoder, add up the
    log-probabilities, suppress [<unk>], find the slots whose token is 2. *)
Definition step_prepare (st : loop_state)
  : res (list ctx_dict * list tensor2 * tensor2 * list nat) :=
  let y_t := ls_idxs st in
  ctx_dicts <- mapM (fun cd => tile_ctx_dict cd (ls_tile st)) (ls_ctx st) ;;
  outs <- mapM (fun dch =>
                  h <- gather (snd dch) (ls_tile st) ;;
                  Ok (f_next (fst (fst dch)) (snd (fst dch))
                             (emb (fst (fst dch)) y_t) h))
               (combine (combine decs ctx_dicts) (ls_h st)) ;;
  log_p <- sum_tensors (map fst outs) ;;
  log_p <- (if suppress_unk then fill_col (unk vocab) inf log_p
            else Ok log_p) ;;
  Ok (ctx_dicts, map snd outs, log_p, nonzero_eq 2 y_t).

(** Lines 142-157: cross-sum, k-best, back-pointers and tokens, the new tile,
    and the reordering of the history. *)
Definition step_select (t : nat) (st : loop_state) (ctx_dicts : list ctx_dict)
           (h_ts : list tensor2) (log_p : tensor2) : res loop_state :=
  scores <- cross_sum B (n_vocab vocab) (ls_nll st) log_p ;;
  tops <- mapM (topk k) scores ;;
  let nll := map fst tops in
  let flat := map snd tops in
  let pdxs := map (map (fun f => f / n_vocab vocab)) flat in
  let toks := map (map (fun f => f mod n_vocab vocab)) flat in
  let beam1 := upd t toks (ls_beam st) in
  beam2 <- (if 0 <? t then reorder_prefix t pdxs beam1 else Ok beam1) ;;
  Ok {| ls_beam := beam2;
        ls_nll := nll;
        ls_nll_view := false;
        ls_idxs := concat toks;
        ls_tile := new_tile t k pdxs (seq 0 (B * k));
        ls_ctx := ctx_dicts;
        ls_h := h_ts |}.

(** One iteration of the loop at line 106. *)
Definition step (t : nat) (st : loop_state) : res (ctl loop_state) :=
  '(ctx_dicts, h_ts, log_p, fin) <- step_prepare st ;;
  if negb (length fin =? 0) then
    if length fin =? B * k then
      Ok (Break {| ls_beam := ls_beam st;
                   ls_nll := ls_nll st;
                   ls_nll_view := ls_nll_view st;
                   ls_idxs := fin;
                   ls_tile := ls_tile st;
                   ls_ctx := ctx_dicts;
                   ls_h := h_ts |})
    else
      log_p <- pin (n_vocab vocab) fin log_p ;;
      st' <- step_select t st ctx_dicts h_ts log_p ;;
      Ok (Continue st')
  else
    st' <- step_select t st ctx_dicts h_ts log_p ;;
    Ok (Continue st').

(** [for t in range(max_len)] from step [t] with [n] iterations left; the
    result tells whether the loop was left by [break] or ran out. *)
Fixpoint step_loop (n t : nat) (st : loop_state) : res (ctl loop_state) :=
  match n with
  | 0 => Ok (Continue st)
  | S n' =>
      c <- step t st ;;
      match c with
      | Break st' => Ok (Break st')
      | Continue st' => step_loop n' (S t) st'
      end
  end.

(** The loop the specification compares with ("running the full loop"): the
    same iteration without the [break] of lines 129-130. *)
Definition step_no_break (t : nat) (st : loop_state) : res loop_state :=
  '(ctx_dicts, h_ts, log_p, fin) <- step_prepare st ;;
  if negb (length fin =? 0) then
    log_p <- pin (n_vocab vocab) fin log_p ;;
    step_select t st ctx_dicts h_ts log_p
  else
    step_select t st ctx_dicts h_ts log_p.

Fixpoint full_loop (n t : nat) (st : loop_state) : res loop_state :=
  match n with
  | 0 => Ok st
  | S n' => st' <- step_no_break t st ;; full_loop n' (S t) st'
  end.

(** Lines 165-166. *)
Definition length_penalty (lp : tensor2) : tensor2 :=
  if Qcltb 0%Qc lp_alpha
  then map (map (fun l => (fpow (qc 5 + l) lp_alpha
                           / fpow (qc 6) lp_alpha)%Qc)) lp
  else lp.

(** Lines 159-173: the explicit [<eos>], lengths, normalisation and the best
    hypothesis of every sample.  Returns the beam, the normalised scores
    (written in place into [nll]) and the hypotheses. *)
Definition finalize (st : loop_state)
  : res (beam_t * tensor2 * list (list nat)) :=
  beam <- (if max_len =? 0 then Err IndexError
           else Ok (force_eos (eos vocab) max_len (ls_beam st))) ;;
  let lp := length_penalty (map (map float) (lengths B k beam)) in
  norm <- div2 (ls_nll st) lp ;;
  tops <- mapM (topk 1) norm ;;
  let top_hyps := map (fun vi => hd 0 (snd vi)) tops in
  let hyps := map (fun bj => column beam (fst bj) (snd bj))
                  (combine (seq 0 B) top_hyps) in
  Ok (beam, norm, hyps).

(** The state a batch starts from (lines 85-104). *)
Definition init_state (sto : storage) (ctx_dicts : list ctx_dict)
           (bos : list nat) : loop_state :=
  {| ls_beam := zero_ (narrow1 (beam_storage sto) B);
     ls_nll := map (fun x => [x]) (firstn B (nll_storage sto));
     ls_nll_view := true;
     ls_idxs := bos;
     ls_tile := seq 0 B;
     ls_ctx := ctx_dicts;
     ls_h := zip_with f_init decs ctx_dicts |}.

(** What a batch leaves in the storage: the beam view is written through,
    and [div_] reaches [nll_storage] only while [nll] still is its view. *)
Definition store (sto : storage) (st : loop_state) (beam : beam_t)
           (norm : tensor2) : storage :=
  {| beam_storage := write_view (beam_storage sto) beam;
     nll_storage := if ls_nll_view st
                    then concat norm ++ skipn B (nll_storage sto)
                    else nll_storage sto |}.

End Decode.

(** ** [beam_search] (lines 18-180) *)

Definition enumerate {A : Type} (l : list A) : list (nat * A) :=
  combine (seq 0 (length l)) l.

(** [sorted(..., key=lambda k: k[1])]: a stable sort on the second
    component. *)
Fixpoint insert_by_snd (p : nat * nat) (l : list (nat * nat))
  : list (nat * nat) :=
  match l with
  | [] => [p]
  | q :: l' => if snd p <=? snd q then p :: l else q :: insert_by_snd p l'
  end.

Definition sorted_by_snd (l : list (nat * nat)) : list (nat * nat) :=
  fold_right insert_by_snd [] l.

(** Lines 178-179. *)
Definition recover_order (results : list string) (orig : list nat)
  : res (list string) :=
  mapM (fun ij => get results (fst ij)) (sorted_by_snd (enumerate orig)).

Section Search.

Context `{TopK} `{FloatPow} `{TopologyResolver}.

Variable models : list Model.
Variable decs : list Decoder.
Variable vocab : Vocab.
Variable enc_args : option (list string).
Variables k max_len max_batch_size : nat.
Variable lp_alpha : Qc.
Variable suppress_unk : bool.

(** The body of the loop over batches (lines 80-174). *)
Definition decode_batch (sto : storage) (batch : Batch)
  : res (storage * list string) :=
  let B := size batch in
  if B <=? max_batch_size then
    let ctx_dicts := map (fun m => encode m batch enc_args) models in
    m0 <- get models 0 ;;
    let st0 := init_state decs B sto ctx_dicts (get_bos m0 B) in
    c <- step_loop decs vocab k suppress_unk B max_len 0 st0 ;;
    let st := ctl_state c in
    '(beam, norm, hyps) <- finalize vocab k max_len lp_alpha B st ;;
    Ok (store B sto st beam norm, list_of_idxs_to_sents vocab hyps)
  else Err RuntimeError.

Fixpoint decode_batches (sto : storage) (bs : list Batch)
         (results : list string) : res (storage * list string) :=
  match bs with
  | [] => Ok (sto, results)
  | b :: bs' =>
      '(sto', sents) <- decode_batch sto b ;;
      decode_batches sto' bs' (results ++ sents)
  end.

End Search.

(** Lines 76-78. *)
Definition fresh_storage (max_len max_batch_size k : nat) : storage :=
  {| beam_storage := repeat (repeat (repeat 0 k) max_batch_size) max_len;
     nll_storage := repeat 0%Qc max_batch_size |}.

Section BeamSearch.

Context `{TopK} `{FloatPow} `{TopologyResolver}.

(** Lines 50-67: the decoders, the vocabulary and the encoder arguments. *)
Definition resolve (models : list Model) (task_id : option string)
  : res (list Decoder * Vocab * option (list string)) :=
  match task_id with
  | None =>
      m0 <- get models 0 ;;
      Ok (map dec models, trg_vocab m0, None)
  | Some tid =>
      let task := Topology tid in
      m0 <- get models 0 ;;
      Ok (map (fun m => get_decoder m (first_trg task)) models,
          vocabs m0 (first_trg task),
          Some (srcs task))
  end.

Definition beam_search (models : list Model) (data_loader : DataLoader)
           (task_id : option string) (beam_size max_len : Z) (lp_alpha : Qc)
           (suppress_unk : bool) : res (list string) :=
  let max_batch_size := batch_size (batch_sampler data_loader) in
  '(decs, vocab, enc_args) <- resolve models task_id ;;
  (* line 76: what the tensor library does with a negative size is not code
     of this function; such a call is given [RuntimeError] here, and no
     theorem about a call that returns has a negative size *)
  if ((max_len <? 0) || (beam_size <? 0))%Z then Err RuntimeError
  else
    let k := Z.to_nat beam_size in
    let sto := fresh_storage (Z.to_nat max_len) max_batch_size k in
    '(_, results) <- decode_batches models decs vocab enc_args k
                                     (Z.to_nat max_len) max_batch_size
                                     lp_alpha suppress_unk sto
                                     (batches data_loader) [] ;;
    if store_indices (batch_sampler data_loader)
    then recover_order results (orig_idxs (batch_sampler data_loader))
    else Ok results.

End BeamSearch.

(** ** A tensor library: one [topk], one power *)

(** Stable insertion sort of (position, value) pairs, largest value first;
    among equal values the earlier position comes first. *)
Fixpoint insert_desc (p : nat * Qc) (l : list (nat * Qc)) : list (nat * Qc) :=
  match l with
  | [] => [p]
  | q :: l' => if Qcleb (snd q) (snd p) then p :: l else q :: insert_desc p l'
  end.

Definition sort_desc (l : list (nat * Qc)) : list (nat * Qc) :=
  fold_right insert_desc [] l.

Definition topk_sorted (k : nat) (l : list Qc) : res (list Qc * list nat) :=
  if k <=? length l
  then let top := firstn k (sort_desc (enumerate l)) in
       Ok (map (fun i => nth i l 0%Qc) (map fst top), map fst top)
  else Err RuntimeError.

Definition ge_snd (p q : nat * Qc) : Prop := (snd q <= snd p)%Qc.

Lemma Qcleb_true (x y : Qc) : Qcleb x y = true <-> (x <= y)%Qc.
Proof. unfold Qcleb, Qcle. apply Qle_bool_iff. Qed.

Lemma Qcleb_false (x y : Qc) : Qcleb x y = false -> (y < x)%Qc.
Proof.
  intros Hf. apply Qcnot_le_lt. intros Hle.
  apply Qcleb_true in Hle. congruence.
Qed.

Lemma Qcltb_true (x y : Qc) : Qcltb x y = true <-> (x < y)%Qc.
Proof.
  unfold Qcltb. rewrite negb_true_iff. split.
  - apply Qcleb_false.
  - intros Hlt. destruct (Qle_bool y x) eqn:E; [|reflexivity].
    apply Qcleb_true in E. exfalso. eapply Qclt_not_le; eauto.
Qed.

Lemma insert_desc_perm (p : nat * Qc) (l : list (nat * Qc)) :
  Permutation (insert_desc p l) (p :: l).
Proof.
  induction l as [|q l IH]; simpl; [reflexivity|].
  destruct (Qcleb (snd q) (snd p)); [reflexivity|].
  rewrite IH. apply perm_swap.
Qed.

Lemma sort_desc_perm (l : list (nat * Qc)) : Permutation (sort_desc l) l.
Proof.
  induction l as [|p l IH]; simpl; [reflexivity|].
  rewrite insert_desc_perm. now constructor.
Qed.

Lemma insert_desc_sorted (p : nat * Qc) (l : list (nat * Qc)) :
  StronglySorted ge_snd l -> StronglySorted ge_snd (insert_desc p l).
Proof.
  induction 1 as [|q l Hs IH Hq]; simpl.
  - repeat constructor.
  - destruct (Qcleb (snd q) (snd p)) eqn:E.
    + apply Qcleb_true in E. constructor; [now constructor|].
      constructor; [exact E|].
      eapply Forall_impl; [|exact Hq].
      intros r Hr. unfold ge_snd in *. eapply Qcle_trans; eauto.
    + apply Qcleb_false in E. constructor; [exact IH|].
      rewrite (Forall_forall (ge_snd q)). intros r Hr.
      apply (Permutation_in _ (insert_desc_perm p l)) in Hr.
      destruct Hr as [<-|Hr].
      * unfold ge_snd. now apply Qclt_le_weak.
      * rewrite Forall_forall in Hq. now apply Hq.
Qed.

Lemma sort_desc_sorted (l : list (nat * Qc)) :
  StronglySorted ge_snd (sort_desc l).
Proof.
  induction l as [|p l IH]; simpl; [constructor|].
  now apply insert_desc_sorted.
Qed.

Lemma StronglySorted_app_inv {A : Type} (R : A -> A -> Prop) (l1 l2 : list A) :
  StronglySorted R (l1 ++ l2) ->
  forall x y, In x l1 -> In y l2 -> R x y.
Proof.
  induction l1 as [|a l1 IH]; simpl; intros Hs x y Hx Hy; [contradiction|].
  inversion Hs as [|? ? Hs' Hall]; subst.
  destruct Hx as [<-|Hx].
  - rewrite Forall_forall in Hall. apply Hall, in_or_app. now right.
  - now apply IH.
Qed.

Lemma enumerate_from_in {A : Type} (l : list A) (s i : nat) (a d : A) :
  In (i, a) (combine (seq s (length l)) l) ->
  s <= i < s + length l /\ a = nth (i - s) l d.
Proof.
  revert s. induction l as [|x l IH]; simpl; intros s Hin; [contradiction|].
  destruct Hin as [Heq|Hin].
  - injection Heq as <- <-. rewrite Nat.sub_diag. split; [lia|reflexivity].
  - apply IH in Hin as [Hr ->]. split; [lia|].
    replace (i - s) with (S (i - S s)) by lia. reflexivity.
Qed.

Lemma enumerate_in {A : Type} (l : list A) (i : nat) (a d : A) :
  In (i, a) (enumerate l) -> i < length l /\ a = nth i l d.
Proof.
  intros Hin. apply (enumerate_from_in l 0 i a d) in Hin as [Hr ->].
  rewrite Nat.sub_0_r. split; [lia|reflexivity].
Qed.

Lemma enumerate_fst {A : Type} (l : list A) :
  map fst (enumerate l) = seq 0 (length l).
Proof.
  unfold enumerate. generalize 0.
  induction l as [|x l IH]; simpl; intros s; [reflexivity|].
  now rewrite IH.
Qed.

Lemma in_enumerate {A : Type} (l : list A) (i : nat) (d : A) :
  i < length l -> In (i, nth i l d) (enumerate l).
Proof.
  unfold enumerate. intros Hi.
  assert (Hgen : forall s, In (s + i, nth i l d) (combine (seq s (length l)) l)).
  { revert i Hi. induction l as [|x l IH]; simpl; intros i Hi s; [lia|].
    destruct i as [|i].
    - left. f_equal. lia.
    - right. replace (s + S i) with (S s + i) by lia. apply IH. lia. }
  exact (Hgen 0).
Qed.

Lemma In_firstn {A : Type} (n : nat) (l : list A) (x : A) :
  In x (firstn n l) -> In x l.
Proof.
  intros Hin. rewrite <- (firstn_skipn n l). apply in_or_app. now left.
Qed.

Lemma In_skipn {A : Type} (n : nat) (l : list A) (x : A) :
  In x (skipn n l) -> In x l.
Proof.
  intros Hin. rewrite <- (firstn_skipn n l). apply in_or_app. now right.
Qed.

Lemma topk_sorted_spec (k : nat) (l : list Qc) :
  k <= length l ->
  exists idxs,
    topk_sorted k l = Ok (map (fun i => nth i l 0%Qc) idxs, idxs)
    /\ length idxs = k
    /\ NoDup idxs
    /\ Forall (fun i => i < length l) idxs
    /\ (forall i j, In i idxs -> j < length l -> ~ In j idxs ->
                    (nth j l 0 <= nth i l 0)%Qc).
Proof.
  intros Hk. unfold topk_sorted.
  destruct (Nat.leb_spec k (length l)) as [_|Hlt]; [|lia].
  set (s := sort_desc (enumerate l)).
  assert (Hperm : Permutation s (enumerate l)) by apply sort_desc_perm.
  assert (Hlen : length s = length l).
  { rewrite (Permutation_length Hperm). unfold enumerate.
    rewrite length_combine, length_seq. lia. }
  assert (Hnd : NoDup (map fst s)).
  { apply (Permutation_NoDup (l := map fst (enumerate l))).
    - symmetry. now apply Permutation_map.
    - rewrite enumerate_fst. apply seq_NoDup. }
  assert (Hsplit : s = firstn k s ++ skipn k s) by (symmetry; apply firstn_skipn).
  exists (map fst (firstn k s)). split; [reflexivity|].
  split; [rewrite length_map, length_firstn; lia|].
  split.
  { rewrite Hsplit, map_app in Hnd. eapply NoDup_app_remove_r; eauto. }
  split.
  { rewrite Forall_forall. intros i Hi.
    apply in_map_iff in Hi as ([i' a] & <- & Hin).
    apply In_firstn in Hin. apply (Permutation_in _ Hperm) in Hin.
    now apply (enumerate_in l i' a 0%Qc) in Hin as [Hr _]. }
  intros i j Hi Hj Hnj.
  apply in_map_iff in Hi as ([i' a] & <- & Hin). simpl.
  assert (Hji : In (j, nth j l 0%Qc) s).
  { apply (Permutation_in _ (Permutation_sym Hperm)). now apply in_enumerate. }
  rewrite Hsplit in Hji. apply in_app_or in Hji as [Hji|Hji].
  { exfalso. apply Hnj. apply in_map_iff. now exists (j, nth j l 0%Qc). }
  assert (Ha : a = nth i' l 0%Qc).
  { apply In_firstn in Hin. apply (Permutation_in _ Hperm) in Hin.
    now apply (enumerate_in l i' a 0%Qc) in Hin as [_ Ha]. }
  pose proof (sort_desc_sorted (enumerate l)) as Hs. fold s in Hs.
  rewrite Hsplit in Hs.
  pose proof (StronglySorted_app_inv _ _ _ Hs _ _ Hin Hji) as Hge.
  unfold ge_snd in Hge. simpl in Hge. now rewrite <- Ha.
Qed.

Lemma topk_sorted_short (k : nat) (l : list Qc) :
  length l < k -> topk_sorted k l = Err RuntimeError.
Proof.
  intros Hlt. unfold topk_sorted.
  destruct (Nat.leb_spec k (length l)); [lia|reflexivity].
Qed.

#[export] Instance TopK_sorted : TopK :=
  {| topk := topk_sorted;
     topk_short := topk_sorted_short;
     topk_spec := topk_sorted_spec |}.

(** A power for whole exponents, enough to run the code on examples. *)
Definition pow_floor (x a : Qc) : Qc :=
  Qcpower x (Z.to_nat (Qfloor a)).

Lemma pow_floor_1 (x : Qc) : pow_floor x 1%Qc = x.
Proof. unfold pow_floor. simpl. ring. Qed.

#[export] Instance FloatPow_floor : FloatPow :=
  {| fpow := pow_floor; fpow_1 := pow_floor_1 |}.

#[export] Instance Topology_none : TopologyResolver :=
  {| Topology := fun tid => {| srcs := [tid]; first_trg := tid |} |}.

(** ** The context tiler *)

(** Every index names a column of every row. *)
Definition in_range {A : Type} (idxs : list nat) (x : list (list A)) : Prop :=
  Forall (fun row => Forall (fun i => i < length row) idxs) x.

Definition entry_in_range (idxs : list nat)
           (e : string * (tensor3 * option mask_t)) : Prop :=
  in_range idxs (fst (snd e))
  /\ match snd (snd e) with
     | None => True
     | Some m => in_range idxs m
     end.

(** [x'] has the rows of [x], and column [j] of [x'] is column [idxs[j]] of
    [x]. *)
Definition columns_gathered {A : Type} (idxs : list nat)
           (x x' : list (list A)) : Prop :=
  length x' = length x
  /\ forall r, r < length x ->
       length (nth r x' []) = length idxs
       /\ forall j, j < length idxs ->
            nth_error (nth r x' []) j = nth_error (nth r x []) (nth j idxs 0).

Definition entry_tiled (idxs : list nat)
           (e e' : string * (tensor3 * option mask_t)) : Prop :=
  fst e' = fst e
  /\ columns_gathered idxs (fst (snd e)) (fst (snd e'))
  /\ match snd (snd e), snd (snd e') with
     | None, None => True
     | Some m, Some m' => columns_gathered idxs m m'
     | _, _ => False
     end.

(** A reference made after the store [h] was taken. *)
Definition fresh (h : Heap.heap) (kv : string * (Heap.loc * option Heap.loc))
  : Prop :=
  length h <= fst (snd kv)
  /\ match snd (snd kv) with
     | None => True
     | Some lm => length h <= lm
     end.

Definition sel {A : Type} (d : A) (idxs : list nat) (x : list (list A))
  : list (list A) :=
  map (fun row => map (fun i => nth i row d) idxs) x.

Definition sel_entry (idxs : list nat) (e : string * (tensor3 * option mask_t))
  : string * (tensor3 * option mask_t) :=
  (fst e, (sel [] idxs (fst (snd e)), option_map (sel 0%Qc idxs) (snd (snd e)))).

Lemma sel_gathered {A : Type} (d : A) (idxs : list nat) (x : list (list A)) :
  in_range idxs x -> columns_gathered idxs x (sel d idxs x).
Proof.
  intros Hr. unfold columns_gathered, sel. split; [apply length_map|].
  intros r Hlt.
  assert (Hrow : nth r (map (fun row => map (fun i => nth i row d) idxs) x) []
                 = map (fun i => nth i (nth r x []) d) idxs).
  { rewrite (nth_indep _ [] (map (fun i => nth i [] d) idxs))
      by (rewrite length_map; exact Hlt).
    apply (map_nth (fun row => map (fun i => nth i row d) idxs)). }
  rewrite Hrow. split; [apply length_map|].
  intros j Hj. rewrite nth_error_map.
  rewrite (nth_error_nth' idxs 0 Hj). simpl.
  unfold in_range in Hr. rewrite Forall_forall in Hr.
  assert (Hin : In (nth r x []) x) by now apply nth_In.
  specialize (Hr _ Hin). rewrite Forall_forall in Hr.
  assert (Hb : nth j idxs 0 < length (nth r x [])) by (apply Hr; now apply nth_In).
  now rewrite (nth_error_nth' _ d Hb).
Qed.

Lemma tile_entry_ok (idxs : list nat) (e : string * (tensor3 * option mask_t)) :
  entry_in_range idxs e -> tile_entry idxs e = Ok (sel_entry idxs e).
Proof.
  destruct e as [key [t mask]]. intros [Ht Hm]. simpl in Ht, Hm.
  unfold tile_entry, sel_entry. simpl.
  rewrite (index_axis1_ok t idxs [] Ht). simpl.
  destruct mask as [m|]; simpl; [|reflexivity].
  rewrite (index_axis1_ok m idxs 0%Qc Hm). reflexivity.
Qed.

Lemma sel_entry_tiled (idxs : list nat)
      (e : string * (tensor3 * option mask_t)) :
  entry_in_range idxs e -> entry_tiled idxs e (sel_entry idxs e).
Proof.
  destruct e as [key [t mask]]. intros [Ht Hm]. simpl in Ht, Hm.
  unfold entry_tiled, sel_entry. simpl.
  split; [reflexivity|]. split; [now apply sel_gathered|].
  destruct mask as [m|]; simpl; [now apply sel_gathered|exact I].
Qed.

Lemma tile_ctx_dict_ok (cd : ctx_dict) (idxs : list nat) :
  Forall (entry_in_range idxs) cd ->
  tile_ctx_dict cd idxs = Ok (map (sel_entry idxs) cd).
Proof.
  intros Hr. unfold tile_ctx_dict. apply mapM_ok.
  eapply Forall_impl; [|exact Hr]. intros e He. now apply tile_entry_ok.
Qed.

Lemma read_tensor_app (h ext : Heap.heap) (l : Heap.loc) (t : tensor3) :
  Heap.read_tensor h l = Ok t -> Heap.read_tensor (h ++ ext) l = Ok t.
Proof.
  unfold Heap.read_tensor. intros Hread.
  destruct (nth_error h l) as [o|] eqn:E; [|discriminate].
  rewrite nth_error_app1 by (apply nth_error_Some; congruence).
  now rewrite E.
Qed.

Lemma read_mask_app (h ext : Heap.heap) (l : Heap.loc) (m : mask_t) :
  Heap.read_mask h l = Ok m -> Heap.read_mask (h ++ ext) l = Ok m.
Proof.
  unfold Heap.read_mask. intros Hread.
  destruct (nth_error h l) as [o|] eqn:E; [|discriminate].
  rewrite nth_error_app1 by (apply nth_error_Some; congruence).
  now rewrite E.
Qed.

Lemma read_tensor_alloc (h : Heap.heap) (t : tensor3) :
  Heap.read_tensor (h ++ [Heap.OTensor t]) (length h) = Ok t.
Proof.
  unfold Heap.read_tensor.
  rewrite nth_error_app2 by lia. now rewrite Nat.sub_diag.
Qed.

Lemma read_mask_alloc (h : Heap.heap) (m : mask_t) :
  Heap.read_mask (h ++ [Heap.OMask m]) (length h) = Ok m.
Proof.
  unfold Heap.read_mask.
  rewrite nth_error_app2 by lia. now rewrite Nat.sub_diag.
Qed.

Lemma deref_entry_app (h ext : Heap.heap) kv e :
  Heap.deref_entry h kv = Ok e -> Heap.deref_entry (h ++ ext) kv = Ok e.
Proof.
  destruct kv as [key [lt lmask]]. unfold Heap.deref_entry. intros Hd.
  apply bind_ok_inv in Hd as (t & Ht & Hd).
  rewrite (read_tensor_app h ext lt t Ht). simpl.
  destruct lmask as [lm|]; simpl in *; [|exact Hd].
  destruct (Heap.read_mask h lm) as [m|] eqn:Em; simpl in Hd; [|discriminate].
  now rewrite (read_mask_app h ext lm m Em).
Qed.

Lemma Forall2_In_l {A B : Type} (R : A -> B -> Prop) (l : list A)
      (l' : list B) (a : A) :
  Forall2 R l l' -> In a l -> exists b, In b l' /\ R a b.
Proof.
  induction 1 as [|x y l l' Hxy _ IH]; simpl; intros Hin; [contradiction|].
  destruct Hin as [<-|Hin]; [eauto|].
  destruct (IH Hin) as (b & Hb & Hab). eauto.
Qed.

Lemma deref_app (h ext : Heap.heap) (cd : Heap.ctx_ref) (vals : ctx_dict) :
  Heap.deref h cd = Ok vals -> Heap.deref (h ++ ext) cd = Ok vals.
Proof.
  unfold Heap.deref. intros Hd.
  rewrite <- Hd. apply mapM_ext_in. intros kv Hin.
  apply mapM_ok_inv in Hd.
  destruct (Forall2_In_l _ _ _ _ Hd Hin) as (e & _ & He).
  rewrite He. now apply deref_entry_app.
Qed.

Lemma heap_tile_entry_ok (idxs : list nat) (h : Heap.heap) kv e :
  Heap.deref_entry h kv = Ok e ->
  entry_in_range idxs e ->
  exists ext kv',
    Heap.tile_entry idxs h kv = Ok (h ++ ext, kv')
    /\ Heap.deref_entry (h ++ ext) kv' = Ok (sel_entry idxs e)
    /\ fresh h kv'.
Proof.
  destruct kv as [key [lt lmask]]. unfold Heap.deref_entry, Heap.tile_entry.
  intros Hd [Ht Hm].
  apply bind_ok_inv in Hd as (t & Hrt & Hd). rewrite Hrt. simpl.
  destruct lmask as [lm|]; simpl in Hd.
  - destruct (Heap.read_mask h lm) as [m|] eqn:Em; simpl in Hd; [|discriminate].
    injection Hd as <-. simpl in Ht, Hm.
    rewrite (index_axis1_ok t idxs [] Ht). simpl.
    rewrite (read_mask_app h _ lm m Em). simpl.
    rewrite (index_axis1_ok m idxs 0%Qc Hm). simpl.
    exists [Heap.OTensor (sel [] idxs t); Heap.OMask (sel 0%Qc idxs m)].
    eexists. split.
    { rewrite <- app_assoc. reflexivity. }
    split.
    + simpl. change (h ++ [Heap.OTensor (sel [] idxs t); Heap.OMask (sel 0%Qc idxs m)])
        with (h ++ [Heap.OTensor (sel [] idxs t)] ++ [Heap.OMask (sel 0%Qc idxs m)]).
      rewrite app_assoc.
      rewrite (read_tensor_app _ _ _ _ (read_tensor_alloc h _)). simpl.
      replace (length (h ++ [Heap.OTensor (sel [] idxs t)]))
        with (length (h ++ [Heap.OTensor (sel [] idxs t)])) by reflexivity.
      rewrite read_mask_alloc. reflexivity.
    + unfold fresh. simpl. rewrite length_app. simpl. lia.
  - injection Hd as <-. simpl in Ht.
    rewrite (index_axis1_ok t idxs [] Ht). simpl.
    exists [Heap.OTensor (sel [] idxs t)]. eexists. split; [reflexivity|].
    split.
    + simpl. rewrite read_tensor_alloc. reflexivity.
    + unfold fresh. simpl. lia.
Qed.

Lemma fresh_app (h ext : Heap.heap) kv : fresh (h ++ ext) kv -> fresh h kv.
Proof.
  unfold fresh. rewrite length_app. intros [Ht Hm]. split; [lia|].
  destruct (snd (snd kv)); [lia|exact I].
Qed.

Lemma heap_tile_ctx_dict_ok (idxs : list nat) (cd : Heap.ctx_ref) :
  forall (h : Heap.heap) (vals : ctx_dict),
    Heap.deref h cd = Ok vals ->
    Forall (entry_in_range idxs) vals ->
    exists ext cd',
      Heap.tile_ctx_dict h cd idxs = Ok (h ++ ext, cd')
      /\ Heap.deref (h ++ ext) cd' = Ok (map (sel_entry idxs) vals)
      /\ Forall (fresh h) cd'.
Proof.
  induction cd as [|kv cd IH]; intros h vals Hd Hr.
  - injection Hd as <-. exists [], []. simpl. rewrite app_nil_r. auto.
  - unfold Heap.deref in Hd. simpl in Hd.
    apply bind_ok_inv in Hd as (e & He & Hd).
    apply bind_ok_inv in Hd as (vals' & Hvals & Hd).
    injection Hd as <-. inversion Hr as [|? ? Hre Hr']; subst.
    destruct (heap_tile_entry_ok idxs h kv e He Hre)
      as (ext1 & kv' & Ht1 & Hd1 & Hf1).
    destruct (IH (h ++ ext1) vals' (deref_app h ext1 cd vals' Hvals) Hr')
      as (ext2 & cd' & Ht2 & Hd2 & Hf2).
    exists (ext1 ++ ext2), (kv' :: cd'). simpl.
    rewrite Ht1. simpl. rewrite Ht2. simpl. rewrite app_assoc.
    split; [reflexivity|]. split.
    + unfold Heap.deref in *. simpl.
      rewrite (deref_entry_app _ ext2 _ _ Hd1). simpl.
      rewrite Hd2. reflexivity.
    + constructor; [exact Hf1|].
      eapply Forall_impl; [|exact Hf2]. intros a. apply fresh_app.
Qed.

(** C9.  The context tiler, run on a store: when every index names a sample
    column, it returns a dictionary of newly made tensors with the same keys,
    in which column [j] along the sample axis is column [idxs[j]] of the
    input (masks alike, an absent mask staying absent); the objects of the
    input store, hence the input dictionary and its tensors, are as before. *)
Theorem tile_ctx_dict_gathers (h : Heap.heap) (cd : Heap.ctx_ref)
        (vals : ctx_dict) (idxs : list nat) :
  Heap.deref h cd = Ok vals ->
  Forall (entry_in_range idxs) vals ->
  exists h' cd' out,
    Heap.tile_ctx_dict h cd idxs = Ok (h', cd')
    /\ tile_ctx_dict vals idxs = Ok out
    /\ Heap.deref h' cd' = Ok out
    /\ Forall2 (entry_tiled idxs) vals out
    /\ firstn (length h) h' = h
    /\ Heap.deref h' cd = Ok vals
    /\ Forall (fresh h) cd'.
Proof.
  intros Hd Hr.
  destruct (heap_tile_ctx_dict_ok idxs cd h vals Hd Hr)
    as (ext & cd' & Ht & Hd' & Hf).
  exists (h ++ ext), cd', (map (sel_entry idxs) vals).
  split; [exact Ht|]. split; [now apply tile_ctx_dict_ok|].
  split; [exact Hd'|]. split.
  { clear -Hr. induction Hr as [|e vals He _ IH]; simpl; constructor; auto.
    now apply sel_entry_tiled. }
  split.
  { rewrite firstn_app, Nat.sub_diag, firstn_all. simpl. apply app_nil_r. }
  split; [now apply deref_app|exact Hf].
Qed.

(** Outside the sample axis the index is refused. *)
Lemma index_axis1_out_of_range {A : Type} (row : list A) (x : list (list A))
      (idxs : list nat) :
  Exists (fun i => length row <= i) idxs ->
  exists e, index_axis1 (row :: x) idxs = Err e.
Proof.
  intros Hex. unfold index_axis1. simpl.
  destruct (gather_err row idxs Hex) as (e & ->). simpl. eauto.
Qed.

(** ** Lists as tensors: shapes and positions *)

Definition shape2 {A : Type} (r c : nat) (m : list (list A)) : Prop :=
  length m = r /\ Forall (fun row => length row = c) m.

Definition shape3 {A : Type} (n r c : nat) (x : list (list (list A))) : Prop :=
  length x = n /\ Forall (shape2 r c) x.

Lemma shape2_row {A : Type} (r c : nat) (m : list (list A)) (i : nat) :
  shape2 r c m -> i < r -> length (nth i m []) = c.
Proof.
  intros [Hl Hall] Hi. rewrite Forall_forall in Hall.
  apply Hall, nth_In. lia.
Qed.

Lemma length_upd {A : Type} (i : nat) (v : A) (l : list A) :
  length (upd i v l) = length l.
Proof.
  revert i. induction l as [|a l IH]; intros [|i]; simpl; auto.
Qed.

Lemma nth_upd_eq {A : Type} (i : nat) (v d : A) (l : list A) :
  i < length l -> nth i (upd i v l) d = v.
Proof.
  revert i. induction l as [|a l IH]; intros [|i]; simpl; intros Hi;
    try lia; [reflexivity|]. apply IH. lia.
Qed.

Lemma nth_upd_neq {A : Type} (i j : nat) (v d : A) (l : list A) :
  i <> j -> nth j (upd i v l) d = nth j l d.
Proof.
  revert i j. induction l as [|a l IH]; intros [|i] [|j] Hne; simpl;
    first [lia | reflexivity | apply IH; lia].
Qed.

Lemma firstn_upd {A : Type} (i : nat) (v : A) (l : list A) :
  firstn i (upd i v l) = firstn i l.
Proof.
  revert i. induction l as [|a l IH]; intros [|i]; simpl; auto.
  now rewrite IH.
Qed.

Lemma skipn_upd {A : Type} (i n : nat) (v : A) (l : list A) :
  i < n -> skipn n (upd i v l) = skipn n l.
Proof.
  revert i n. induction l as [|a l IH]; intros [|i] [|n] Hlt; simpl;
    first [lia | reflexivity | apply IH; lia].
Qed.

Lemma length_imap_from {A B : Type} (f : nat -> A -> B) (l : list A) (n : nat) :
  length (imap_from n f l) = length l.
Proof.
  revert n. induction l as [|a l IH]; simpl; intros n; auto.
Qed.

Lemma nth_imap_from {A B : Type} (f : nat -> A -> B) (l : list A) (n i : nat)
      (d : A) (d' : B) :
  i < length l -> nth i (imap_from n f l) d' = f (n + i) (nth i l d).
Proof.
  revert n i. induction l as [|a l IH]; simpl; intros n [|i] Hi; try lia.
  - now rewrite Nat.add_0_r.
  - rewrite (IH (S n) i) by lia. f_equal. lia.
Qed.

Lemma length_imap {A B : Type} (f : nat -> A -> B) (l : list A) :
  length (imap f l) = length l.
Proof. apply length_imap_from. Qed.

Lemma nth_imap {A B : Type} (f : nat -> A -> B) (l : list A) (i : nat)
      (d : A) (d' : B) :
  i < length l -> nth i (imap f l) d' = f i (nth i l d).
Proof. intros Hi. unfold imap. now rewrite (nth_imap_from f l 0 i d d' Hi). Qed.

Lemma mem_iff (i : nat) (l : list nat) : mem i l = true <-> In i l.
Proof.
  unfold mem. rewrite existsb_exists. split.
  - intros (x & Hin & Heq). apply Nat.eqb_eq in Heq. now subst.
  - intros Hin. exists i. split; [exact Hin|apply Nat.eqb_refl].
Qed.

Lemma length_chunk {A : Type} (n g : nat) (l : list A) :
  length (chunk n g l) = g.
Proof.
  revert l. induction g as [|g IH]; simpl; intros l; auto.
Qed.

Lemma nth_chunk {A : Type} (n g b : nat) (l : list A) :
  b < g -> nth b (chunk n g l) [] = firstn n (skipn (b * n) l).
Proof.
  revert b l. induction g as [|g IH]; intros b l Hb; [lia|].
  destruct b as [|b]; simpl; [reflexivity|].
  rewrite IH by lia. rewrite skipn_skipn. f_equal. f_equal. lia.
Qed.

Lemma length_concat_uniform {A : Type} (c : nat) (rows : list (list A)) :
  Forall (fun row => length row = c) rows ->
  length (concat rows) = length rows * c.
Proof.
  induction 1 as [|row rows Hrow _ IH]; simpl; [reflexivity|].
  rewrite length_app, IH, Hrow. reflexivity.
Qed.

Lemma nth_concat_uniform {A : Type} (c : nat) (rows : list (list A))
      (j v : nat) (d : A) :
  Forall (fun row => length row = c) rows ->
  v < c ->
  nth (j * c + v) (concat rows) d = nth v (nth j rows []) d.
Proof.
  intros Hall Hv. revert j. induction Hall as [|row rows Hrow _ IH]; intros j.
  - simpl. destruct (j * c + v), j, v; reflexivity.
  - destruct j as [|j]; simpl.
    + rewrite app_nth1 by lia. reflexivity.
    + rewrite app_nth2 by lia.
      replace (c + j * c + v - length row) with (j * c + v) by lia.
      apply IH.
Qed.

Lemma nth_map_lt {A B : Type} (f : A -> B) (l : list A) (i : nat) (d : A)
      (d' : B) :
  i < length l -> nth i (map f l) d' = f (nth i l d).
Proof.
  intros Hi. rewrite (nth_indep _ d' (f d)) by (now rewrite length_map).
  apply map_nth.
Qed.

Lemma length_zip_with {A B C : Type} (f : A -> B -> C) (a : list A)
      (b : list B) :
  length (zip_with f a b) = Nat.min (length a) (length b).
Proof. unfold zip_with. now rewrite length_map, length_combine. Qed.

Lemma nth_zip_with {A B C : Type} (f : A -> B -> C) (a : list A) (b : list B)
      (i : nat) (da : A) (db : B) (dc : C) :
  i < length a -> i < length b ->
  nth i (zip_with f a b) dc = f (nth i a da) (nth i b db).
Proof.
  unfold zip_with. revert b i.
  induction a as [|x a IH]; intros [|y b] [|i]; simpl; intros Ha Hb;
    first [lia | reflexivity | apply IH; lia].
Qed.

(** ** The score matrix *)

Lemma forallb_length_eq {A : Type} (c : nat) (m : list (list A)) :
  Forall (fun row => length row = c) m ->
  forallb (fun row => length row =? c) m = true.
Proof.
  intros Hall. apply forallb_forall. rewrite Forall_forall in Hall.
  intros row Hin. apply Nat.eqb_eq. now apply Hall.
Qed.

Lemma view3_ok (B V K : nat) (log_p : tensor2) :
  0 < B -> 0 < V -> shape2 (B * K) V log_p ->
  view3 B V log_p = Ok (chunk K B log_p).
Proof.
  intros HB HV [Hl Hrows]. unfold view3.
  destruct (Nat.eqb_spec B 0) as [?|_]; [lia|].
  destruct (Nat.eqb_spec V 0) as [?|_]; [lia|].
  rewrite (forallb_length_eq V log_p Hrows). rewrite Hl. simpl.
  rewrite (Nat.mul_comm B K), Nat.Div0.mod_mul, Nat.div_mul by lia.
  reflexivity.
Qed.

(** One sample's scores, slot after slot. *)
Definition sample_scores (sg : list Qc * tensor2) : list Qc :=
  concat (zip_with (fun x row => map (Qcplus x) row) (fst sg) (snd sg)).

Lemma nth_chunk_rows {A : Type} (K B b j : nat) (l : list A) (d : A) :
  length l = B * K -> b < B -> j < K ->
  nth j (nth b (chunk K B l) []) d = nth (b * K + j) l d.
Proof.
  intros Hl Hb Hj. rewrite nth_chunk by exact Hb.
  rewrite nth_firstn.
  destruct (Nat.ltb_spec j K) as [_|?]; [|lia].
  apply nth_skipn.
Qed.

Lemma length_chunk_row {A : Type} (K B b : nat) (l : list A) :
  length l = B * K -> b < B -> length (nth b (chunk K B l) []) = K.
Proof.
  intros Hl Hb. rewrite nth_chunk by exact Hb.
  rewrite length_firstn, length_skipn. nia.
Qed.

Lemma cross_sum_ok (B V K : nat) (nll log_p : tensor2) :
  0 < B -> 0 < V -> shape2 B K nll -> shape2 (B * K) V log_p ->
  cross_sum B V nll log_p
  = Ok (map sample_scores (combine nll (chunk K B log_p))).
Proof.
  intros HB HV Hn Hp. unfold cross_sum.
  rewrite (view3_ok B V K log_p HB HV Hp). simpl.
  destruct Hn as [Hnl Hnr]. rewrite Hnl, Nat.eqb_refl.
  apply mapM_ok. rewrite Forall_forall. intros [s g] Hin.
  unfold add_scores, sample_scores. simpl.
  destruct (In_nth _ _ ([], []) Hin) as (b & Hb & Hnth).
  rewrite length_combine, length_chunk, Hnl, Nat.min_id in Hb.
  rewrite combine_nth in Hnth by (now rewrite length_chunk).
  injection Hnth as Hs Hg.
  assert (Hls : length s = K).
  { rewrite <- Hs. apply (shape2_row B K nll b); [split; auto|exact Hb]. }
  assert (Hlg : length g = K).
  { rewrite <- Hg. apply length_chunk_row; [apply Hp|exact Hb]. }
  rewrite Hls, Hlg, Nat.eqb_refl. reflexivity.
Qed.

Definition scores_of (K B : nat) (nll log_p : tensor2) : tensor2 :=
  map sample_scores (combine nll (chunk K B log_p)).

Lemma scores_of_shape (B V K : nat) (nll log_p : tensor2) :
  shape2 B K nll -> shape2 (B * K) V log_p ->
  shape2 B (K * V) (scores_of K B nll log_p).
Proof.
  intros [Hnl Hnr] [Hpl Hpr]. unfold scores_of. split.
  - rewrite length_map, length_combine, length_chunk. lia.
  - rewrite Forall_forall. intros row Hin.
    apply in_map_iff in Hin as ([s g] & <- & Hin).
    destruct (In_nth _ _ ([], []) Hin) as (b & Hb & Hnth).
    rewrite length_combine, length_chunk, Hnl, Nat.min_id in Hb.
    rewrite combine_nth in Hnth by (now rewrite length_chunk).
    injection Hnth as Hs Hg.
    unfold sample_scores. simpl.
    rewrite (length_concat_uniform V).
    + rewrite length_zip_with. rewrite <- Hs, <- Hg.
      rewrite (shape2_row B K nll b) by (try split; auto).
      rewrite length_chunk_row by auto. rewrite Nat.min_id. reflexivity.
    + rewrite Forall_forall. intros r Hr. unfold zip_with in Hr.
      apply in_map_iff in Hr as ([x row] & <- & Hr). simpl.
      rewrite length_map. apply in_combine_r in Hr.
      rewrite <- Hg in Hr. rewrite nth_chunk in Hr by exact Hb.
      apply In_firstn, In_skipn in Hr.
      rewrite Forall_forall in Hpr. now apply Hpr.
Qed.

(** Entry [j * V + v] of sample [b]: slot [j]'s score plus the
    log-probability of token [v] in hypothesis row [b * K + j]. *)
Lemma scores_of_nth (B V K : nat) (nll log_p : tensor2) (b j v : nat) :
  shape2 B K nll -> shape2 (B * K) V log_p ->
  b < B -> j < K -> v < V ->
  nth (j * V + v) (nth b (scores_of K B nll log_p) []) 0%Qc
  = (nth j (nth b nll []) 0 + nth v (nth (b * K + j) log_p []) 0)%Qc.
Proof.
  intros [Hnl Hnr] [Hpl Hpr] Hb Hj Hv. unfold scores_of.
  rewrite (nth_indep _ [] (sample_scores ([], [])))
    by (rewrite length_map, length_combine, length_chunk; lia).
  rewrite (map_nth sample_scores).
  rewrite combine_nth by (now rewrite length_chunk).
  unfold sample_scores. simpl.
  assert (Hrow : length (nth b nll []) = K)
    by (apply (shape2_row B K nll b); [split; auto|exact Hb]).
  assert (Hgrp : length (nth b (chunk K B log_p) []) = K)
    by (now apply length_chunk_row).
  rewrite (nth_concat_uniform V).
  - rewrite (nth_zip_with _ _ _ j 0%Qc [] []) by lia.
    rewrite (nth_map_lt _ _ _ 0%Qc).
    + now rewrite nth_chunk_rows.
    + rewrite nth_chunk_rows by auto.
      rewrite Forall_forall in Hpr. rewrite (Hpr (nth (b * K + j) log_p [])).
      * exact Hv.
      * apply nth_In. nia.
  - rewrite Forall_forall. intros r Hr. unfold zip_with in Hr.
    apply in_map_iff in Hr as ([x row] & <- & Hr). simpl.
    rewrite length_map. apply in_combine_r in Hr.
    rewrite nth_chunk in Hr by exact Hb.
    apply In_firstn, In_skipn in Hr.
    rewrite Forall_forall in Hpr. now apply Hpr.
  - exact Hv.
Qed.

(** ** One selection step *)

(** What [topk] promises about one row. *)
Definition kbest (k : nat) (row : list Qc) (vi : list Qc * list nat) : Prop :=
  fst vi = map (fun i => nth i row 0%Qc) (snd vi)
  /\ length (snd vi) = k
  /\ NoDup (snd vi)
  /\ Forall (fun i => i < length row) (snd vi)
  /\ (forall i j, In i (snd vi) -> j < length row -> ~ In j (snd vi) ->
                  (nth j row 0 <= nth i row 0)%Qc).

(** Line 157 on values: slot [j] of sample [b] takes over the history of
    its ancestor [pdxs[b][j]]. *)
Definition reordered (t : nat) (pdxs : list (list nat)) (beam : beam_t)
  : beam_t :=
  map (fun row => zip_with (fun slots p => map (fun i => nth i slots 0) p)
                           row pdxs)
      (firstn t beam)
  ++ skipn t beam.

(** The state lines 142-157 leave, given what [topk] returned. *)
Definition selected (V k B t : nat) (st : loop_state)
           (ctx_dicts : list ctx_dict) (h_ts : list tensor2)
           (tops : list (list Qc * list nat)) : loop_state :=
  let flat := map snd tops in
  let pdxs := map (map (fun f => f / V)) flat in
  let toks := map (map (fun f => f mod V)) flat in
  {| ls_beam := if 0 <? t then reordered t pdxs (upd t toks (ls_beam st))
                else upd t toks (ls_beam st);
     ls_nll := map fst tops;
     ls_nll_view := false;
     ls_idxs := concat toks;
     ls_tile := new_tile t k pdxs (seq 0 (B * k));
     ls_ctx := ctx_dicts;
     ls_h := h_ts |}.

Section SelectFacts.

Context `{TopK}.
Variable vocab : Vocab.
Variables k B : nat.

Let V := n_vocab vocab.

Lemma topk_kbest (row : list Qc) :
  k <= length row -> exists vi, topk k row = Ok vi /\ kbest k row vi.
Proof.
  intros Hk. destruct (topk_spec k row Hk) as (idxs & Ht & Hl & Hn & Hr & Hd).
  eexists. split; [exact Ht|]. unfold kbest. simpl. auto.
Qed.

Lemma mapM_topk (scores : tensor2) :
  Forall (fun row => k <= length row) scores ->
  exists tops, mapM (topk k) scores = Ok tops /\ Forall2 (kbest k) scores tops.
Proof.
  induction 1 as [|row scores Hrow _ IH]; simpl.
  - exists []. split; [reflexivity|constructor].
  - destruct (topk_kbest row Hrow) as (vi & -> & Hvi).
    destruct IH as (tops & -> & Htops). simpl.
    exists (vi :: tops). split; [reflexivity|now constructor].
Qed.

Lemma gather_slots_ok (K : nat) (row pdxs : list (list nat)) :
  Forall (fun slots => length slots = K) row ->
  Forall (Forall (fun i => i < K)) pdxs ->
  gather_slots row pdxs
  = Ok (zip_with (fun slots p => map (fun i => nth i slots 0) p) row pdxs).
Proof.
  intros Hrow Hp. unfold gather_slots, zip_with. apply mapM_ok.
  rewrite Forall_forall. intros [slots p] Hin. simpl.
  apply gather_ok.
  rewrite Forall_forall in Hrow, Hp.
  rewrite (Hrow slots (in_combine_l _ _ _ _ Hin)).
  apply (Hp p (in_combine_r _ _ _ _ Hin)).
Qed.

Lemma reorder_prefix_ok (K t : nat) (pdxs : list (list nat)) (beam : beam_t) :
  Forall (shape2 B K) (firstn t beam) ->
  Forall (Forall (fun i => i < K)) pdxs ->
  reorder_prefix t pdxs beam = Ok (reordered t pdxs beam).
Proof.
  intros Hb Hp. unfold reorder_prefix, reordered.
  rewrite (mapM_ok _ (fun row => zip_with
                        (fun slots p => map (fun i => nth i slots 0) p)
                        row pdxs)).
  - reflexivity.
  - eapply Forall_impl; [|exact Hb]. intros row [_ Hrow].
    now apply (gather_slots_ok K).
Qed.

(** The flattened indices of a k-best row split into a slot below [K] and a
    token below [V]. *)
Lemma kbest_pdxs_bound (K : nat) (row : list Qc) (vi : list Qc * list nat) :
  0 < V -> length row = K * V -> kbest k row vi ->
  Forall (fun i => i < K) (map (fun f => f / V) (snd vi)).
Proof.
  intros HV Hl (_ & _ & _ & Hr & _).
  rewrite Forall_forall in *. intros i Hin.
  apply in_map_iff in Hin as (f & <- & Hf).
  specialize (Hr f Hf). rewrite Hl in Hr.
  apply Nat.Div0.div_lt_upper_bound. lia.
Qed.

Lemma step_select_ok (K t : nat) (st : loop_state) (ctx_dicts : list ctx_dict)
      (h_ts : list tensor2) (log_p : tensor2) :
  0 < B -> 0 < V -> k <= K * V ->
  shape2 B K (ls_nll st) ->
  shape2 (B * K) V log_p ->
  Forall (shape2 B K) (firstn t (ls_beam st)) ->
  exists tops,
    Forall2 (kbest k) (scores_of K B (ls_nll st) log_p) tops
    /\ step_select vocab k B t st ctx_dicts h_ts log_p
       = Ok (selected V k B t st ctx_dicts h_ts tops).
Proof.
  intros HB HV Hk Hn Hp Hbeam. unfold step_select. fold V.
  rewrite (cross_sum_ok B V K _ _ HB HV Hn Hp). simpl.
  fold (scores_of K B (ls_nll st) log_p).
  pose proof (scores_of_shape B V K _ _ Hn Hp) as [Hsl Hsr].
  destruct (mapM_topk (scores_of K B (ls_nll st) log_p)) as (tops & -> & Htops).
  { eapply Forall_impl; [|exact Hsr]. simpl. intros row ->. exact Hk. }
  exists tops. split; [exact Htops|]. simpl.
  unfold selected.
  destruct (Nat.ltb_spec 0 t) as [Ht|Ht]; [|reflexivity].
  rewrite (reorder_prefix_ok K).
  - reflexivity.
  - now rewrite firstn_upd.
  - rewrite Forall_forall. intros p Hin.
    apply in_map_iff in Hin as (fl & <- & Hfl).
    apply in_map_iff in Hfl as (vi & <- & Hvi).
    destruct (Forall2_In_l _ _ _ _ (Forall2_flip Htops) Hvi) as (row & Hrow & Hkb).
    apply (kbest_pdxs_bound K row vi HV); [|exact Hkb].
    rewrite Forall_forall in Hsr. now apply Hsr.
Qed.

End SelectFacts.

Lemma Forall2_nth {A B : Type} (R : A -> B -> Prop) (l : list A) (l' : list B)
      (i : nat) (d : A) (d' : B) :
  Forall2 R l l' -> i < length l -> R (nth i l d) (nth i l' d').
Proof.
  intros HF. revert i. induction HF as [|x y l l' Hxy _ IH]; simpl;
    intros [|i] Hi; first [lia | assumption | apply IH; lia].
Qed.

Section SelectedFacts.

Variables V k B K t : nat.
Variable st : loop_state.
Variable ctx_dicts : list ctx_dict.
Variable h_ts : list tensor2.
Variable scores : tensor2.
Variable tops : list (list Qc * list nat).

Hypothesis HV : 0 < V.
Hypothesis Hscores : shape2 B (K * V) scores.
Hypothesis Htops : Forall2 (kbest k) scores tops.

Let flat := map snd tops.
Let st' := selected V k B t st ctx_dicts h_ts tops.

Lemma tops_length : length tops = B.
Proof.
  destruct Hscores as [Hl _]. rewrite <- Hl. symmetry.
  eapply Forall2_length; eauto.
Qed.

Lemma tops_kbest (b : nat) :
  b < B -> kbest k (nth b scores []) (nth b tops ([], [])).
Proof.
  intros Hb. apply Forall2_nth; [exact Htops|]. destruct Hscores; lia.
Qed.

Lemma flat_shape : shape2 B k flat.
Proof.
  unfold flat. split; [rewrite length_map; apply tops_length|].
  rewrite Forall_forall. intros fl Hin.
  apply in_map_iff in Hin as (vi & <- & Hvi).
  destruct (Forall2_In_l _ _ _ _ (Forall2_flip Htops) Hvi) as (row & _ & Hkb).
  apply Hkb.
Qed.

Lemma flat_nth (b : nat) : nth b flat [] = snd (nth b tops ([], [])).
Proof. unfold flat. apply (map_nth snd tops ([], [])). Qed.

Lemma flat_bound (b j : nat) :
  b < B -> j < k -> nth j (nth b flat []) 0 < K * V.
Proof.
  intros Hb Hj. destruct (tops_kbest b Hb) as (_ & Hl & _ & Hr & _).
  rewrite flat_nth. rewrite Forall_forall in Hr.
  rewrite <- (shape2_row B (K * V) scores b Hscores Hb).
  apply Hr, nth_In. lia.
Qed.

Lemma nth2_map2 (f : nat -> nat) (m : list (list nat)) (b j : nat) :
  b < length m -> j < length (nth b m []) ->
  nth j (nth b (map (map f) m) []) 0 = f (nth j (nth b m []) 0).
Proof.
  intros Hb Hj. rewrite (nth_map_lt _ _ _ []) by exact Hb.
  now rewrite (nth_map_lt _ _ _ 0).
Qed.

Lemma selected_nll (b j : nat) :
  b < B -> j < k ->
  nth j (nth b (ls_nll st') []) 0%Qc
  = nth (nth j (nth b flat []) 0) (nth b scores []) 0%Qc.
Proof.
  intros Hb Hj. unfold st', selected. simpl.
  rewrite (nth_map_lt _ _ _ ([], [])) by (rewrite tops_length; exact Hb).
  destruct (tops_kbest b Hb) as (Hv & Hl & _).
  rewrite Hv, flat_nth.
  now rewrite (nth_map_lt _ _ _ 0) by lia.
Qed.

Lemma selected_beam_row (d : list (list nat)) :
  t < length (ls_beam st) ->
  nth t (ls_beam st') d = map (map (fun f => f mod V)) flat.
Proof.
  intros Ht. unfold st', selected. simpl. fold flat.
  destruct (Nat.ltb_spec 0 t) as [Hpos|Hz].
  - unfold reordered. rewrite app_nth2; rewrite length_map, length_firstn,
      length_upd; [|lia].
    rewrite Nat.min_l by lia. rewrite Nat.sub_diag.
    rewrite nth_skipn, Nat.add_0_r. now apply nth_upd_eq.
  - now apply nth_upd_eq.
Qed.

Lemma selected_beam_prefix (r b j : nat) :
  Forall (shape2 B K) (firstn t (ls_beam st)) ->
  r < t -> t < length (ls_beam st) -> b < B -> j < k ->
  nth j (nth b (nth r (ls_beam st') []) []) 0
  = nth (nth j (nth b flat []) 0 / V) (nth b (nth r (ls_beam st) []) []) 0.
Proof.
  intros Hpre Hr Ht Hb Hj. unfold st', selected. simpl. fold flat.
  destruct (Nat.ltb_spec 0 t) as [_|?]; [|lia].
  unfold reordered. rewrite firstn_upd.
  rewrite app_nth1 by (rewrite length_map, length_firstn; lia).
  rewrite (nth_map_lt _ _ _ []) by (rewrite length_firstn; lia).
  rewrite nth_firstn. destruct (Nat.ltb_spec r t) as [_|?]; [|lia].
  assert (Hrow : shape2 B K (nth r (ls_beam st) [])).
  { rewrite Forall_forall in Hpre. apply Hpre.
    rewrite <- (firstn_skipn t (ls_beam st)) at 1.
    rewrite app_nth1 by (rewrite length_firstn; lia).
    apply nth_In. rewrite length_firstn. lia. }
  pose proof flat_shape as [Hfl Hfr].
  rewrite (nth_zip_with _ _ _ b [] [] [])
    by (rewrite ?length_map; destruct Hrow; lia).
  assert (Hlen : length (nth b flat []) = k)
    by (apply (shape2_row B k flat b); [apply flat_shape|exact Hb]).
  rewrite (nth_map_lt _ _ _ []) by lia.
  rewrite (nth_map_lt _ _ _ 0) by (rewrite length_map; lia).
  now rewrite (nth_map_lt _ _ _ 0) by lia.
Qed.


Lemma selected_idxs (i : nat) :
  i < B * k ->
  nth i (ls_idxs st') 0 = nth (i mod k) (nth (i / k) flat []) 0 mod V.
Proof.
  intros Hi. unfold st', selected. simpl. fold flat.
  assert (Hk : 0 < k) by (destruct k; [lia|lia]).
  pose proof flat_shape as [Hfl Hfr].
  assert (Hb : i / k < B) by (apply Nat.Div0.div_lt_upper_bound; lia).
  assert (Hj : i mod k < k) by (apply Nat.mod_upper_bound; lia).
  rewrite (Nat.div_mod_eq i k) at 1.
  rewrite (Nat.mul_comm k (i / k)).
  rewrite (nth_concat_uniform k).
  - apply nth2_map2; [lia|].
    rewrite (shape2_row B k flat (i / k)); [exact Hj|apply flat_shape|exact Hb].
  - rewrite Forall_forall. intros row Hin.
    apply in_map_iff in Hin as (fl & <- & Hin'). rewrite length_map.
    rewrite Forall_forall in Hfr. now apply Hfr.
  - exact Hj.
Qed.

Lemma selected_tile (i : nat) :
  i < B * k ->
  nth i (ls_tile st') 0
  = nth (i mod k) (nth (i / k) flat []) 0 / V
    + (i / k) * (if t =? 0 then 1 else k).
Proof.
  intros Hi. unfold st', selected, new_tile. simpl. fold flat.
  assert (Hk : 0 < k) by (destruct k; [lia|lia]).
  pose proof flat_shape as [Hfl Hfr].
  assert (Hb : i / k < B) by (apply Nat.Div0.div_lt_upper_bound; lia).
  assert (Hj : i mod k < k) by (apply Nat.mod_upper_bound; lia).
  assert (Hu : Forall (fun row => length row = k)
                      (map (map (fun f => f / V)) flat)).
  { rewrite Forall_forall. intros row Hin.
    apply in_map_iff in Hin as (fl & <- & Hin'). rewrite length_map.
    rewrite Forall_forall in Hfr. now apply Hfr. }
  assert (Hlc : length (concat (map (map (fun f => f / V)) flat)) = B * k).
  { rewrite (length_concat_uniform k _ Hu), length_map. now rewrite Hfl. }
  rewrite (nth_map_lt _ _ _ (0, 0))
    by (rewrite length_combine, length_seq, Hlc; lia).
  rewrite combine_nth by (now rewrite length_seq).
  simpl. rewrite seq_nth by exact Hi. simpl. f_equal.
  rewrite (Nat.div_mod_eq i k) at 1.
  rewrite (Nat.mul_comm k (i / k)).
  rewrite (nth_concat_uniform k _ _ _ _ Hu Hj).
  apply nth2_map2; [lia|].
  rewrite (shape2_row B k flat (i / k)); [exact Hj|apply flat_shape|exact Hb].
Qed.

End SelectedFacts.

(** ** Back-pointers, tokens and the tile (C2, C3) *)



(** ** Lengths and the length penalty (C6, C7) *)

(** A content token: none of pad, begin, end. *)
Definition content (x : nat) : bool :=
  negb ((x =? PAD) || (x =? BOS) || (x =? EOS)).

Definition content_count (tokens : list nat) : nat :=
  length (filter content tokens).

Lemma gt2_content (x : nat) : (2 <? x) = content x.
Proof.
  unfold content, PAD, BOS, EOS.
  destruct x as [|[|[|x]]]; reflexivity.
Qed.

Lemma lengths_shape (B k : nat) (beam : beam_t) : shape2 B k (lengths B k beam).
Proof.
  unfold lengths. split; [now rewrite length_map, length_seq|].
  rewrite Forall_forall. intros row Hin.
  apply in_map_iff in Hin as (b & <- & _).
  now rewrite length_map, length_seq.
Qed.

Lemma lengths_nth (B k : nat) (beam : beam_t) (b j : nat) :
  b < B -> j < k ->
  nth j (nth b (lengths B k beam) []) 0
  = Nat.max 1 (length (filter (fun x => 2 <? x) (column beam b j))).
Proof.
  intros Hb Hj. unfold lengths.
  rewrite (nth_map_lt _ _ _ 0) by (now rewrite length_seq).
  rewrite (nth_map_lt _ _ _ 0) by (now rewrite length_seq).
  now rewrite !seq_nth.
Qed.

(** C6.  Once row [max_len - 1] holds the end-of-sequence id, the length of
    every slot is the number of its time positions holding a content token
    (none of pad, begin, end), and at least 1: a slot of special tokens only
    has length 1. *)
Theorem lengths_count_content (e max_len B k : nat) (beam : beam_t)
        (b j : nat) :
  b < B -> j < k ->
  let beam' := force_eos e max_len beam in
  let len := nth j (nth b (lengths B k beam') []) 0 in
  len = Nat.max 1 (content_count (column beam' b j))
  /\ (content_count (column beam' b j) = 0 -> len = 1).
Proof.
  intros Hb Hj beam' len. unfold len.
  rewrite (lengths_nth B k beam' b j Hb Hj).
  rewrite (filter_ext _ _ gt2_content). fold (content_count (column beam' b j)).
  split; [reflexivity|]. intros ->. reflexivity.
Qed.

Lemma qc_5_5 : (qc 5 + qc 5)%Qc = qc 10.
Proof. apply Qc_is_canon. reflexivity. Qed.

(** Entry [(b, j)] of the tensor lines 165-166 leave in [lp], for a slot of
    length [len]. *)
Lemma length_penalty_nth `{FloatPow} (lp_alpha : Qc) (B k : nat)
      (beam : beam_t) (b j : nat) :
  b < B -> j < k ->
  let len := float (nth j (nth b (lengths B k beam) []) 0) in
  let divisor :=
    nth j (nth b (length_penalty lp_alpha
                                 (map (map float) (lengths B k beam))) [])
        0%Qc in
  (lp_alpha = 0%Qc -> divisor = len)
  /\ ((0 < lp_alpha)%Qc ->
      divisor = (fpow (qc 5 + len) lp_alpha / fpow (qc 6) lp_alpha)%Qc)
  /\ (lp_alpha = 1%Qc -> len = qc 5 -> divisor = (qc 10 / qc 6)%Qc).
Proof.
  intros Hb Hj len divisor.
  pose proof (lengths_shape B k beam) as Hs.
  assert (Hrow : length (nth b (lengths B k beam) []) = k)
    by (now apply (shape2_row B k)).
  assert (Hlen : nth j (nth b (map (map float) (lengths B k beam)) []) 0%Qc
                 = len).
  { unfold len. rewrite (nth_map_lt _ _ _ []) by (destruct Hs; lia).
    now rewrite (nth_map_lt _ _ _ 0) by lia. }
  assert (Hpos : (0 < lp_alpha)%Qc ->
                 divisor = (fpow (qc 5 + len) lp_alpha
                            / fpow (qc 6) lp_alpha)%Qc).
  { intros Hlt. unfold divisor, length_penalty.
    apply Qcltb_true in Hlt. rewrite Hlt.
    rewrite (nth_map_lt _ _ _ [])
      by (rewrite length_map; destruct Hs; lia).
    rewrite (nth_map_lt _ _ _ 0%Qc).
    - now rewrite Hlen.
    - rewrite (nth_map_lt _ _ _ []) by (destruct Hs; lia).
      rewrite length_map. lia. }
  split; [|split].
  - intros ->. unfold divisor, length_penalty.
    replace (Qcltb 0 0) with false by reflexivity. exact Hlen.
  - exact Hpos.
  - intros -> Hfive. rewrite Hpos by reflexivity.
    rewrite !fpow_1, Hfive, qc_5_5. reflexivity.
Qed.

(** ** Well-shaped collaborators and the first half of a step *)

(** Every tensor and mask of the dictionary has [N] sample columns. *)
Definition ctx_width (N : nat) (cd : ctx_dict) : Prop :=
  Forall (fun e =>
            Forall (fun row => length row = N) (fst (snd e))
            /\ match snd (snd e) with
               | None => True
               | Some m => Forall (fun row => length row = N) m
               end) cd.

(** A decoder step returns one row of [V] log-probabilities and one state
    row per hypothesis it was given. *)
Definition decoder_ok (V : nat) (d : Decoder) : Prop :=
  forall cd e h,
    shape2 (length h) V (fst (f_next d cd e h))
    /\ length (snd (f_next d cd e h)) = length h.

Lemma ctx_width_in_range (N : nat) (cd : ctx_dict) (idxs : list nat) :
  ctx_width N cd -> Forall (fun i => i < N) idxs ->
  Forall (entry_in_range idxs) cd.
Proof.
  intros Hw Hi. eapply Forall_impl; [|exact Hw].
  intros [key [t mask]] [Ht Hm]. simpl in *. split; simpl.
  - eapply Forall_impl; [|exact Ht]. intros row ->. exact Hi.
  - destruct mask as [m|]; [|exact I].
    eapply Forall_impl; [|exact Hm]. intros row ->. exact Hi.
Qed.

Lemma sel_width {A : Type} (d : A) (idxs : list nat) (x : list (list A)) :
  Forall (fun row => length row = length idxs) (sel d idxs x).
Proof.
  unfold sel. rewrite Forall_forall. intros row Hin.
  apply in_map_iff in Hin as (r & <- & _). apply length_map.
Qed.

Lemma sel_entry_width (idxs : list nat) (cd : ctx_dict) :
  ctx_width (length idxs) (map (sel_entry idxs) cd).
Proof.
  unfold ctx_width. rewrite Forall_forall. intros e Hin.
  apply in_map_iff in Hin as ([key [t mask]] & <- & _).
  unfold sel_entry. simpl. split; [apply sel_width|].
  destruct mask; simpl; [apply sel_width|exact I].
Qed.

Lemma same_shape_true (r c : nat) (a b : tensor2) :
  shape2 r c a -> shape2 r c b -> same_shape a b = true.
Proof.
  intros [Hal Har] [Hbl Hbr]. unfold same_shape.
  rewrite Hal, Hbl, Nat.eqb_refl. simpl.
  apply forallb_forall. intros [x y] Hin. simpl.
  rewrite Forall_forall in Har, Hbr.
  rewrite (Har x (in_combine_l _ _ _ _ Hin)).
  rewrite (Hbr y (in_combine_r _ _ _ _ Hin)).
  apply Nat.eqb_refl.
Qed.

Lemma zip2_shape {A B C : Type} (f : A -> B -> C) (r c : nat)
      (a : list (list A)) (b : list (list B)) :
  shape2 r c a -> shape2 r c b -> shape2 r c (zip_with (zip_with f) a b).
Proof.
  intros [Hal Har] [Hbl Hbr]. split.
  - rewrite length_zip_with. lia.
  - rewrite Forall_forall. intros row Hin. unfold zip_with at 1 in Hin.
    apply in_map_iff in Hin as ([x y] & <- & Hin). simpl.
    rewrite length_zip_with.
    rewrite Forall_forall in Har, Hbr.
    rewrite (Har x (in_combine_l _ _ _ _ Hin)).
    rewrite (Hbr y (in_combine_r _ _ _ _ Hin)). lia.
Qed.

Lemma add2_ok (r c : nat) (a b : tensor2) :
  shape2 r c a -> shape2 r c b ->
  add2 a b = Ok (zip_with (zip_with Qcplus) a b).
Proof.
  intros Ha Hb. unfold add2. now rewrite (same_shape_true r c a b Ha Hb).
Qed.

Lemma div2_ok (r c : nat) (a b : tensor2) :
  shape2 r c a -> shape2 r c b ->
  div2 a b = Ok (zip_with (zip_with Qcdiv) a b).
Proof.
  intros Ha Hb. unfold div2. now rewrite (same_shape_true r c a b Ha Hb).
Qed.

Lemma sum_fold_ok (r c : nat) (ts : list tensor2) (acc : tensor2) :
  shape2 r c acc -> Forall (shape2 r c) ts ->
  exists m, fold_left (fun acc x => a <- acc ;; add2 a x) ts (Ok acc) = Ok m
            /\ shape2 r c m.
Proof.
  intros Hacc Hts. revert acc Hacc.
  induction Hts as [|t ts Ht _ IH]; simpl; intros acc Hacc.
  - eauto.
  - rewrite (add2_ok r c acc t Hacc Ht). apply IH.
    now apply zip2_shape.
Qed.

Lemma sum_tensors_ok (r c : nat) (ts : list tensor2) :
  ts <> [] -> Forall (shape2 r c) ts ->
  exists m, sum_tensors ts = Ok m /\ shape2 r c m.
Proof.
  destruct ts as [|t ts]; [congruence|]. intros _ Hts.
  inversion Hts; subst. unfold sum_tensors. now apply (sum_fold_ok r c).
Qed.

Lemma fill_col_ok (r c col : nat) (v : Qc) (m : tensor2) :
  col < c -> shape2 r c m ->
  fill_col col v m = Ok (map (upd col v) m)
  /\ shape2 r c (map (upd col v) m).
Proof.
  intros Hcol [Hl Hr]. split.
  - unfold fill_col. apply mapM_ok. eapply Forall_impl; [|exact Hr].
    intros row Hrow. simpl. rewrite Hrow.
    destruct (Nat.ltb_spec col c); [reflexivity|lia].
  - split; [now rewrite length_map|].
    rewrite Forall_forall in *. intros row Hin.
    apply in_map_iff in Hin as (row' & <- & Hin').
    rewrite length_upd. now apply Hr.
Qed.

Section PrepareFacts.

Variable decs : list Decoder.
Variable vocab : Vocab.
Variable suppress_unk : bool.

Let V := n_vocab vocab.

Hypothesis Hdecs : decs <> [].
Hypothesis Hdok : Forall (decoder_ok V) decs.
Hypothesis Hunk : suppress_unk = true -> unk vocab < V.

Lemma step_prepare_ok (M : nat) (st : loop_state) :
  length (ls_ctx st) = length decs ->
  length (ls_h st) = length decs ->
  Forall (ctx_width M) (ls_ctx st) ->
  Forall (fun h => length h = M) (ls_h st) ->
  Forall (fun i => i < M) (ls_tile st) ->
  exists ctx_dicts h_ts log_p,
    step_prepare decs vocab suppress_unk st
    = Ok (ctx_dicts, h_ts, log_p, nonzero_eq 2 (ls_idxs st))
    /\ shape2 (length (ls_tile st)) V log_p
    /\ Forall (ctx_width (length (ls_tile st))) ctx_dicts
    /\ Forall (fun h => length h = length (ls_tile st)) h_ts
    /\ length ctx_dicts = length decs
    /\ length h_ts = length decs.
Proof.
  intros Hlc Hlh Hcw Hhw Htile. unfold step_prepare.
  set (tile := ls_tile st) in *.
  (* the contexts *)
  rewrite (mapM_ok _ (map (sel_entry tile)) (ls_ctx st)).
  2:{ eapply Forall_impl; [|exact Hcw]. intros cd Hcd. simpl.
      apply tile_ctx_dict_ok. now apply (ctx_width_in_range M). }
  simpl.
  set (ctx' := map (map (sel_entry tile)) (ls_ctx st)).
  assert (Hctx' : Forall (ctx_width (length tile)) ctx').
  { unfold ctx'. rewrite Forall_forall. intros cd Hin.
    apply in_map_iff in Hin as (cd0 & <- & _). apply sel_entry_width. }
  assert (Hlctx' : length ctx' = length decs)
    by (unfold ctx'; now rewrite length_map).
  (* the decoders *)
  set (call := fun dch : Decoder * ctx_dict * tensor2 =>
                 f_next (fst (fst dch)) (snd (fst dch))
                        (emb (fst (fst dch)) (ls_idxs st))
                        (map (fun i => nth i (snd dch) []) tile)).
  rewrite (mapM_ok _ call (combine (combine decs ctx') (ls_h st))).
  2:{ rewrite Forall_forall. intros [[d cd] h] Hin. simpl.
      rewrite (gather_ok h tile []).
      - reflexivity.
      - rewrite Forall_forall in Hhw.
        rewrite (Hhw h (in_combine_r _ _ _ _ Hin)). exact Htile. }
  simpl.
  set (outs := map call (combine (combine decs ctx') (ls_h st))).
  assert (Hlouts : length outs = length decs).
  { unfold outs. rewrite length_map, !length_combine. lia. }
  assert (Hshape : Forall (shape2 (length tile) V) (map fst outs)).
  { unfold outs. rewrite map_map. rewrite Forall_forall. intros lp Hin.
    apply in_map_iff in Hin as ([[d cd] h] & <- & Hin).
    unfold call. simpl.
    assert (Hd : In d decs).
    { apply in_combine_l in Hin. now apply in_combine_l in Hin. }
    rewrite Forall_forall in Hdok.
    destruct (Hdok d Hd cd (emb d (ls_idxs st))
                   (map (fun i => nth i h []) tile)) as [Hs _].
    now rewrite length_map in Hs. }
  assert (Hhs : Forall (fun h => length h = length tile) (map snd outs)).
  { unfold outs. rewrite map_map. rewrite Forall_forall. intros h' Hin.
    apply in_map_iff in Hin as ([[d cd] h] & <- & Hin).
    unfold call. simpl.
    assert (Hd : In d decs).
    { apply in_combine_l in Hin. now apply in_combine_l in Hin. }
    rewrite Forall_forall in Hdok.
    destruct (Hdok d Hd cd (emb d (ls_idxs st))
                   (map (fun i => nth i h []) tile)) as [_ Hl].
    now rewrite length_map in Hl. }
  destruct (sum_tensors_ok (length tile) V (map fst outs)) as (m & -> & Hm).
  { intros Hnil. apply (f_equal (@length _)) in Hnil.
    rewrite length_map, Hlouts in Hnil. simpl in Hnil.
    destruct decs; [congruence|discriminate]. }
  { exact Hshape. }
  simpl.
  destruct suppress_unk.
  - destruct (fill_col_ok (length tile) V (unk vocab) inf m (Hunk eq_refl) Hm)
      as [-> Hm'].
    simpl. exists ctx', (map snd outs), (map (upd (unk vocab) inf) m).
    repeat split; auto; try apply Hm'. now rewrite length_map.
  - simpl. exists ctx', (map snd outs), m.
    repeat split; auto; try apply Hm. now rewrite length_map.
Qed.

End PrepareFacts.

(** ** End-token pinning *)

(** What lines 131-135 leave in [log_p]: a finished row holds [inf]
    everywhere but 0 at entry 2; the other rows are untouched. *)
Definition pinned (fin : list nat) (log_p : tensor2) : tensor2 :=
  imap (fun r row =>
          if mem r fin
          then imap (fun c _ => if c =? 2 then 0%Qc else inf) row
          else row) log_p.

Lemma imap_from_ext {A B : Type} (f g : nat -> A -> B) (l : list A)
      (n : nat) (d : A) :
  (forall i, i < length l -> f (n + i) (nth i l d) = g (n + i) (nth i l d)) ->
  imap_from n f l = imap_from n g l.
Proof.
  revert n. induction l as [|a l IH]; simpl; intros n Hfg; [reflexivity|].
  f_equal.
  - specialize (Hfg 0 (Nat.lt_0_succ _)). simpl in Hfg.
    now rewrite Nat.add_0_r in Hfg.
  - apply IH. intros i Hi.
    specialize (Hfg (S i) (proj1 (Nat.succ_lt_mono _ _) Hi)). simpl in Hfg.
    replace (S n + i) with (n + S i) by lia. exact Hfg.
Qed.

Lemma imap_ext {A B : Type} (f g : nat -> A -> B) (l : list A) (d : A) :
  (forall i, i < length l -> f i (nth i l d) = g i (nth i l d)) ->
  imap f l = imap g l.
Proof. intros Hfg. unfold imap. now apply (imap_from_ext f g l 0 d). Qed.

Lemma imap_from_imap_from {A B C : Type} (f : nat -> B -> C)
      (g : nat -> A -> B) (l : list A) (n : nat) :
  imap_from n f (imap_from n g l) = imap_from n (fun i x => f i (g i x)) l.
Proof.
  revert n. induction l as [|a l IH]; simpl; intros n; [reflexivity|].
  now rewrite IH.
Qed.

Lemma imap_from_id {A : Type} (l : list A) (n : nat) :
  imap_from n (fun _ x => x) l = l.
Proof.
  revert n. induction l as [|a l IH]; simpl; intros n; [reflexivity|].
  now rewrite IH.
Qed.

Lemma imap_from_map {A B C : Type} (f : nat -> B -> C) (g : A -> B)
      (l : list A) (n : nat) :
  imap_from n f (map g l) = imap_from n (fun i x => f i (g x)) l.
Proof.
  revert n. induction l as [|a l IH]; simpl; intros n; [reflexivity|].
  now rewrite IH.
Qed.

Lemma forallb_lt (N : nat) (l : list nat) :
  Forall (fun i => i < N) l -> forallb (fun i => i <? N) l = true.
Proof.
  intros Hall. apply forallb_forall. rewrite Forall_forall in Hall.
  intros i Hin. apply Nat.ltb_lt. now apply Hall.
Qed.

Lemma mem_pin_position (V r c : nat) (fin : list nat) :
  2 < V -> c < V ->
  mem (r * V + c) (map (fun i => i * V + 2) fin) = mem r fin && (c =? 2).
Proof.
  intros HV Hc. apply eq_true_iff_eq.
  rewrite andb_true_iff, !mem_iff, in_map_iff, Nat.eqb_eq. split.
  - intros (i & Heq & Hin).
    assert (i = r /\ c = 2) as [-> ->]; [|auto].
    assert (Hdiv : (i * V + 2) / V = (r * V + c) / V) by (now rewrite Heq).
    rewrite !Nat.div_add_l, !Nat.div_small in Hdiv by lia.
    split; [lia|]. nia.
  - intros [Hin ->]. now exists r.
Qed.

Lemma pin_ok (N V : nat) (fin : list nat) (log_p : tensor2) :
  2 < V -> shape2 N V log_p -> Forall (fun i => i < N) fin -> fin <> [] ->
  pin V fin log_p = Ok (pinned fin log_p).
Proof.
  intros HV [Hl Hrows] Hfin Hne. unfold pin, index_fill_rows.
  rewrite Hl, (forallb_lt N fin Hfin). simpl.
  unfold flat_fill. rewrite length_imap, Hl.
  assert (HN : 0 < N).
  { destruct fin as [|i fin]; [congruence|]. inversion Hfin; subst. lia. }
  assert (Hcols : length (hd [] (imap (fun i row =>
                    if mem i fin then map (fun _ => inf) row else row) log_p))
                  = V).
  { destruct log_p as [|row0 rest]; [simpl in Hl; lia|].
    inversion Hrows as [|? ? Hrow0 _]; subst. unfold imap. simpl.
    destruct (mem 0 fin); [now rewrite length_map|reflexivity]. }
  rewrite Hcols.
  rewrite forallb_lt.
  2:{ rewrite Forall_forall in *. intros p Hin.
      apply in_map_iff in Hin as (i & <- & Hi). specialize (Hfin i Hi). nia. }
  f_equal. unfold pinned, imap. rewrite imap_from_imap_from.
  apply (imap_from_ext _ _ _ 0 []). intros r Hr. simpl.
  assert (Hrow : length (nth r log_p []) = V).
  { rewrite Forall_forall in Hrows. apply Hrows. now apply nth_In. }
  destruct (mem r fin) eqn:Hmem.
  - rewrite imap_from_map.
    apply (imap_from_ext _ _ _ 0 0%Qc). intros c Hc. simpl.
    rewrite Hrow in Hc. rewrite (mem_pin_position V r c fin HV Hc), Hmem.
    simpl. reflexivity.
  - rewrite <- (imap_from_id (nth r log_p []) 0) at 2.
    apply (imap_from_ext _ _ _ 0 0%Qc). intros c Hc. simpl.
    rewrite Hrow in Hc. rewrite (mem_pin_position V r c fin HV Hc), Hmem.
    reflexivity.
Qed.

Lemma pinned_shape (N V : nat) (fin : list nat) (log_p : tensor2) :
  shape2 N V log_p -> shape2 N V (pinned fin log_p).
Proof.
  intros [Hl Hrows]. unfold pinned. split; [now rewrite length_imap|].
  rewrite Forall_forall. intros row Hin.
  destruct (In_nth _ _ [] Hin) as (r & Hr & <-).
  rewrite length_imap in Hr.
  rewrite (nth_imap _ _ _ [] []) by exact Hr.
  assert (Hrow : length (nth r log_p []) = V).
  { rewrite Forall_forall in Hrows. apply Hrows. now apply nth_In. }
  destruct (mem r fin); [now rewrite length_imap|exact Hrow].
Qed.

Lemma pinned_row_fin (N V : nat) (fin : list nat) (log_p : tensor2)
      (r c : nat) :
  shape2 N V log_p -> In r fin -> r < N -> c < V ->
  nth c (nth r (pinned fin log_p) []) 0%Qc = if c =? 2 then 0%Qc else inf.
Proof.
  intros [Hl Hrows] Hin Hr Hc. unfold pinned.
  rewrite (nth_imap _ _ _ [] []) by lia.
  apply mem_iff in Hin. rewrite Hin.
  rewrite (nth_imap _ _ _ 0%Qc 0%Qc); [reflexivity|].
  rewrite Forall_forall in Hrows.
  rewrite (Hrows (nth r log_p [])); [exact Hc|]. apply nth_In. lia.
Qed.

Lemma pinned_row_other (fin : list nat) (log_p : tensor2) (r : nat) :
  ~ In r fin -> nth r (pinned fin log_p) [] = nth r log_p [].
Proof.
  intros Hin. unfold pinned.
  destruct (Nat.lt_ge_cases r (length log_p)) as [Hr|Hr].
  - rewrite (nth_imap _ _ _ [] []) by exact Hr.
    destruct (mem r fin) eqn:E; [|reflexivity].
    apply mem_iff in E. contradiction.
  - rewrite !nth_overflow; auto. now rewrite length_imap.
Qed.

Lemma nonzero_eq_spec (v : nat) (idxs : list nat) (i : nat) :
  In i (nonzero_eq v idxs) <-> i < length idxs /\ nth i idxs 0 = v.
Proof.
  unfold nonzero_eq. rewrite filter_In, in_seq, Nat.eqb_eq. lia.
Qed.

Lemma nonzero_eq_length (v : nat) (idxs : list nat) :
  length (nonzero_eq v idxs) <= length idxs.
Proof.
  unfold nonzero_eq.
  pose proof (filter_length_le (fun i => nth i idxs 0 =? v)
                               (seq 0 (length idxs))) as Hle.
  now rewrite length_seq in Hle.
Qed.

(** ** The loop invariant *)

Lemma Forall_firstn_of {A : Type} (P : A -> Prop) (n : nat) (l : list A) :
  Forall P l -> Forall P (firstn n l).
Proof.
  rewrite !Forall_forall. intros Hall x Hin. apply Hall.
  now apply (In_firstn n).
Qed.

Lemma Forall_skipn_of {A : Type} (P : A -> Prop) (n : nat) (l : list A) :
  Forall P l -> Forall P (skipn n l).
Proof.
  rewrite !Forall_forall. intros Hall x Hin. apply Hall.
  now apply (In_skipn n).
Qed.

Lemma Forall_upd {A : Type} (P : A -> Prop) (i : nat) (v : A) (l : list A) :
  P v -> Forall P l -> Forall P (upd i v l).
Proof.
  intros Hv Hall. revert i.
  induction Hall as [|a l Ha Hl IH]; intros [|i]; simpl;
    try constructor; auto.
Qed.

Lemma Forall_of_nth {A : Type} (P : A -> Prop) (l : list A) (d : A) :
  (forall i, i < length l -> P (nth i l d)) -> Forall P l.
Proof.
  intros Hnth. rewrite Forall_forall. intros x Hin.
  destruct (In_nth _ _ d Hin) as (i & Hi & <-). now apply Hnth.
Qed.

Lemma zip_rows_shape (B k : nat) (row p : list (list nat)) :
  length row = B -> shape2 B k p ->
  shape2 B k (zip_with (fun slots q => map (fun i => nth i slots 0) q) row p).
Proof.
  intros Hrow [Hpl Hpr]. split; [rewrite length_zip_with; lia|].
  rewrite Forall_forall. intros x Hin. unfold zip_with in Hin.
  apply in_map_iff in Hin as ([slots q] & <- & Hin). simpl.
  rewrite length_map. rewrite Forall_forall in Hpr.
  apply Hpr. now apply in_combine_r in Hin.
Qed.

Lemma map2_shape (f : nat -> nat) (B k : nat) (m : list (list nat)) :
  shape2 B k m -> shape2 B k (map (map f) m).
Proof.
  intros [Hl Hr]. split; [now rewrite length_map|].
  rewrite Forall_forall in *. intros row Hin.
  apply in_map_iff in Hin as (r & <- & Hin'). rewrite length_map. auto.
Qed.

Lemma reordered_shape (n B k t : nat) (pdxs : list (list nat)) (beam : beam_t) :
  shape3 n B k beam -> shape2 B k pdxs ->
  shape3 n B k (reordered t pdxs beam).
Proof.
  intros [Hl Hrows] Hp. unfold reordered. split.
  - rewrite length_app, length_map, length_firstn, length_skipn. lia.
  - apply Forall_app. split.
    + rewrite Forall_forall. intros x Hin.
      apply in_map_iff in Hin as (row & <- & Hin).
      apply In_firstn in Hin. rewrite Forall_forall in Hrows.
      apply zip_rows_shape; [apply (Hrows row Hin)|exact Hp].
    + now apply Forall_skipn_of.
Qed.

Lemma skipn_reordered (t n : nat) (pdxs : list (list nat)) (beam : beam_t) :
  t <= length beam -> t <= n ->
  skipn n (reordered t pdxs beam) = skipn n beam.
Proof.
  intros Ht Hn. unfold reordered.
  rewrite skipn_app, length_map, length_firstn, Nat.min_l by exact Ht.
  rewrite skipn_all2 by (rewrite length_map, length_firstn; lia).
  simpl. rewrite skipn_skipn. f_equal. lia.
Qed.

Section LoopFacts.

Context `{TopK}.

Variable decs : list Decoder.
Variable vocab : Vocab.
Variables k max_len B : nat.
Variable suppress_unk : bool.

Let V := n_vocab vocab.

(** Slots per sample in the scores entering step [t]. *)
Definition width (t : nat) : nat := if t =? 0 then 1 else k.

(** What holds of the loop variables when step [t] begins. *)
Record inv (t : nat) (st : loop_state) : Prop := {
  inv_nll : shape2 B (width t) (ls_nll st);
  inv_idxs : length (ls_idxs st) = B * width t;
  inv_tile : length (ls_tile st) = B * width t;
  inv_rows : exists M,
      Forall (fun i => i < M) (ls_tile st)
      /\ Forall (fun h => length h = M) (ls_h st)
      /\ Forall (ctx_width M) (ls_ctx st);
  inv_ctx : length (ls_ctx st) = length decs;
  inv_h : length (ls_h st) = length decs;
  inv_beam : shape3 max_len B k (ls_beam st);
  inv_view : ls_nll_view st = true ->
             t = 0 /\ Forall (Forall (fun x => x = 0%Qc)) (ls_nll st);
  inv_link : 0 < t -> ls_idxs st = concat (nth (t - 1) (ls_beam st) []);
  inv_zero : Forall (Forall (Forall (fun x => x = 0))) (skipn t (ls_beam st))
}.

Hypothesis HB : 0 < B.
Hypothesis HV : 2 < V.
Hypothesis Hk : 0 < k.
Hypothesis HkV : k <= V.
Hypothesis Hdecs : decs <> [].
Hypothesis Hdok : Forall (decoder_ok V) decs.
Hypothesis Hunk : suppress_unk = true -> unk vocab < V.

Lemma width_pos (t : nat) : 0 < width t.
Proof. unfold width. destruct (t =? 0); lia. Qed.

Lemma width_le (t : nat) : k <= width t * V.
Proof. unfold width. destruct (t =? 0); nia. Qed.

Lemma inv_selected (t : nat) (st : loop_state) (ctx_dicts : list ctx_dict)
      (h_ts : list tensor2) (log_p : tensor2)
      (tops : list (list Qc * list nat)) :
  inv t st -> t < max_len ->
  shape2 (B * width t) V log_p ->
  Forall (ctx_width (B * width t)) ctx_dicts ->
  Forall (fun h => length h = B * width t) h_ts ->
  length ctx_dicts = length decs ->
  length h_ts = length decs ->
  Forall2 (kbest k) (scores_of (width t) B (ls_nll st) log_p) tops ->
  inv (S t) (selected V k B t st ctx_dicts h_ts tops).
Proof.
  intros Hinv Ht Hlp Hctx Hh Hlc Hlh Htops.
  pose proof (scores_of_shape B V (width t) _ _ (inv_nll _ _ Hinv) Hlp) as Hsc.
  assert (HV0 : 0 < V) by lia.
  pose proof (flat_shape V k B (width t) _ tops Hsc Htops) as Hflat.
  pose proof (tops_length V k B (width t) _ tops Hsc Htops) as Hlt.
  destruct (inv_beam _ _ Hinv) as [Hbl Hbr].
  assert (Htoks : shape2 B k (map (map (fun f => f mod V)) (map snd tops)))
    by (now apply map2_shape).
  assert (Hpdxs : shape2 B k (map (map (fun f => f / V)) (map snd tops)))
    by (now apply map2_shape).
  assert (Hw : width (S t) = k) by reflexivity.
  constructor; rewrite ?Hw.
  - (* nll *)
    simpl. split; [now rewrite length_map|].
    rewrite Forall_forall. intros row Hin.
    apply in_map_iff in Hin as (vi & <- & Hvi).
    destruct (Forall2_In_l _ _ _ _ (Forall2_flip Htops) Hvi)
      as (r & _ & Hv & Hl & _).
    now rewrite Hv, length_map.
  - (* idxs *)
    simpl. rewrite (length_concat_uniform k); [|apply Htoks].
    destruct Htoks as [-> _]. reflexivity.
  - (* tile *)
    simpl. unfold new_tile.
    rewrite length_map, length_combine, length_seq.
    rewrite (length_concat_uniform k); [|apply Hpdxs].
    destruct Hpdxs as [-> _]. lia.
  - (* rows *)
    exists (B * width t). split; [|split; assumption].
    apply (Forall_of_nth _ _ 0). intros i Hi.
    assert (Hi' : i < B * k).
    { simpl in Hi. unfold new_tile in Hi.
      rewrite length_map, length_combine, length_seq in Hi. lia. }
    rewrite (selected_tile V k B (width t) t st ctx_dicts h_ts _ tops
                           HV0 Hsc Htops i Hi').
    assert (Hb : i / k < B) by (apply Nat.Div0.div_lt_upper_bound; lia).
    assert (Hj : i mod k < k) by (apply Nat.mod_upper_bound; lia).
    pose proof (flat_bound V k B (width t) _ tops HV0 Hsc Htops
                           (i / k) (i mod k) Hb Hj) as Hf.
    assert (Hanc : nth (i mod k) (nth (i / k) (map snd tops) []) 0 / V
                   < width t)
      by (apply Nat.Div0.div_lt_upper_bound; lia).
    unfold width in *. destruct (Nat.eqb_spec t 0); nia.
  - exact Hlc.
  - exact Hlh.
  - (* beam *)
    simpl.
    assert (Hupd : shape3 max_len B k
                     (upd t (map (map (fun f => f mod V)) (map snd tops))
                          (ls_beam st))).
    { split; [now rewrite length_upd|]. now apply Forall_upd. }
    destruct (0 <? t); [|exact Hupd].
    now apply reordered_shape.
  - simpl. discriminate.
  - (* link *)
    intros _. simpl ls_idxs. replace (S t - 1) with t by lia.
    rewrite (selected_beam_row V k B t st ctx_dicts h_ts tops HV0 []); [reflexivity|lia].
  - (* zero *)
    unfold selected. cbn [ls_beam].
    assert (Hskip : skipn (S t)
                          (upd t (map (map (fun f => f mod V)) (map snd tops))
                               (ls_beam st))
                    = skipn (S t) (ls_beam st))
      by (apply skipn_upd; lia).
    assert (Hz : Forall (Forall (Forall (fun x => x = 0)))
                        (skipn (S t) (ls_beam st))).
    { replace (S t) with (1 + t) by lia. rewrite <- skipn_skipn.
      apply Forall_skipn_of. apply (inv_zero _ _ Hinv). }
    destruct (0 <? t).
    + rewrite skipn_reordered by (rewrite ?length_upd; lia).
      now rewrite Hskip.
    + now rewrite Hskip.
Qed.

(** The log-probabilities the selection sees: pinned when some slot holds
    token 2. *)
Definition step_log_p (fin : list nat) (log_p : tensor2) : tensor2 :=
  if length fin =? 0 then log_p else pinned fin log_p.

(** What both loops do in a step that does not end in [break]. *)
Lemma step_common (t : nat) (st : loop_state) :
  inv t st -> t < max_len ->
  let fin := nonzero_eq 2 (ls_idxs st) in
  exists ctx_dicts h_ts log_p tops,
    step_prepare decs vocab suppress_unk st = Ok (ctx_dicts, h_ts, log_p, fin)
    /\ shape2 (B * width t) V log_p
    /\ (fin <> [] -> pin V fin log_p = Ok (pinned fin log_p))
    /\ Forall2 (kbest k)
               (scores_of (width t) B (ls_nll st) (step_log_p fin log_p)) tops
    /\ step_select vocab k B t st ctx_dicts h_ts (step_log_p fin log_p)
       = Ok (selected V k B t st ctx_dicts h_ts tops)
    /\ inv (S t) (selected V k B t st ctx_dicts h_ts tops).
Proof.
  intros Hinv Ht fin.
  destruct (inv_rows _ _ Hinv) as (M & Htile & Hhs & Hcw).
  destruct (step_prepare_ok decs vocab suppress_unk Hdecs Hdok Hunk M st
              (inv_ctx _ _ Hinv) (inv_h _ _ Hinv) Hcw Hhs Htile)
    as (ctx_dicts & h_ts & log_p & Hprep & Hlp & Hctx & Hh & Hlc & Hlh).
  rewrite (inv_tile _ _ Hinv) in Hlp, Hctx, Hh.
  assert (Hfin : Forall (fun i => i < B * width t) fin).
  { rewrite Forall_forall. intros i Hi.
    apply nonzero_eq_spec in Hi as [Hi _].
    now rewrite (inv_idxs _ _ Hinv) in Hi. }
  assert (Hlp' : shape2 (B * width t) V (step_log_p fin log_p)).
  { unfold step_log_p. destruct (length fin =? 0); [exact Hlp|].
    now apply pinned_shape. }
  destruct (inv_beam _ _ Hinv) as [Hbl Hbr].
  assert (Hpre : Forall (shape2 B (width t)) (firstn t (ls_beam st))).
  { unfold width. destruct (Nat.eqb_spec t 0) as [->|Hne].
    - constructor.
    - now apply Forall_firstn_of. }
  destruct (step_select_ok vocab k B (width t) t st ctx_dicts h_ts
              (step_log_p fin log_p) HB ltac:(fold V; lia) (width_le t)
              (inv_nll _ _ Hinv) Hlp' Hpre) as (tops & Htops & Hsel).
  exists ctx_dicts, h_ts, log_p, tops.
  split; [exact Hprep|]. split; [exact Hlp|]. split.
  { intros Hne. now apply (pin_ok (B * width t) V). }
  split; [exact Htops|]. split; [exact Hsel|].
  now apply (inv_selected t st ctx_dicts h_ts (step_log_p fin log_p) tops).
Qed.

(** Every slot holds token 2: the test of line 129. *)
Definition all_finished (st : loop_state) : Prop :=
  length (nonzero_eq 2 (ls_idxs st)) = B * k.

Lemma step_no_break_ok (t : nat) (st : loop_state) :
  inv t st -> t < max_len ->
  let fin := nonzero_eq 2 (ls_idxs st) in
  exists ctx_dicts h_ts log_p tops,
    shape2 (B * width t) V log_p
    /\ Forall2 (kbest k)
               (scores_of (width t) B (ls_nll st) (step_log_p fin log_p)) tops
    /\ step_no_break decs vocab k suppress_unk B t st
       = Ok (selected V k B t st ctx_dicts h_ts tops)
    /\ inv (S t) (selected V k B t st ctx_dicts h_ts tops).
Proof.
  intros Hinv Ht fin.
  destruct (step_common t st Hinv Ht)
    as (ctx_dicts & h_ts & log_p & tops & Hprep & Hlp & Hpin & Htops & Hsel
        & Hinv').
  fold fin in Hprep, Hpin, Htops, Hsel.
  exists ctx_dicts, h_ts, log_p, tops.
  split; [exact Hlp|]. split; [exact Htops|]. split; [|exact Hinv'].
  unfold V in Hpin, Hsel.
  unfold step_no_break. rewrite Hprep. simpl.
  unfold step_log_p in Hsel.
  destruct (Nat.eqb_spec (length fin) 0) as [Hz|Hnz]; simpl.
  - exact Hsel.
  - rewrite Hpin by (intros E; rewrite E in Hnz; simpl in Hnz; lia).
    simpl. exact Hsel.
Qed.

Lemma step_ok (t : nat) (st : loop_state) :
  inv t st -> t < max_len ->
  let fin := nonzero_eq 2 (ls_idxs st) in
  (all_finished st
   /\ exists ctx_dicts h_ts,
       step decs vocab k suppress_unk B t st
       = Ok (Break {| ls_beam := ls_beam st;
                      ls_nll := ls_nll st;
                      ls_nll_view := ls_nll_view st;
                      ls_idxs := fin;
                      ls_tile := ls_tile st;
                      ls_ctx := ctx_dicts;
                      ls_h := h_ts |}))
  \/ (~ all_finished st
      /\ exists st',
          step decs vocab k suppress_unk B t st = Ok (Continue st')
          /\ step_no_break decs vocab k suppress_unk B t st = Ok st'
          /\ inv (S t) st').
Proof.
  intros Hinv Ht fin.
  destruct (step_common t st Hinv Ht)
    as (ctx_dicts & h_ts & log_p & tops & Hprep & Hlp & Hpin & Htops & Hsel
        & Hinv').
  fold fin in Hprep, Hpin, Htops, Hsel.
  unfold all_finished. fold fin. unfold V in Hpin, Hsel.
  unfold step, step_no_break. rewrite Hprep. simpl.
  unfold step_log_p in Hsel.
  destruct (Nat.eqb_spec (length fin) 0) as [Hz|Hnz]; simpl.
  - right. split; [nia|].
    eexists. rewrite Hsel. simpl. auto.
  - destruct (Nat.eqb_spec (length fin) (B * k)) as [Hall|Hnall].
    + left. split; [exact Hall|]. eauto.
    + right. split; [exact Hnall|].
      rewrite Hpin by (intros E; rewrite E in Hnz; simpl in Hnz; lia).
      simpl. eexists. rewrite Hsel. simpl. auto.
Qed.

(** What holds of the loop variables when the loop is left. *)
Definition post (st : loop_state) : Prop :=
  shape2 B k (ls_nll st)
  /\ shape3 max_len B k (ls_beam st)
  /\ (ls_nll_view st = true ->
      k = 1 /\ Forall (Forall (fun x => x = 0%Qc)) (ls_nll st)).

Lemma inv_post (t : nat) (st : loop_state) :
  inv t st -> 0 < t \/ all_finished st -> post st.
Proof.
  intros Hinv Hcase.
  assert (Hk1 : t = 0 -> k = 1).
  { intros ->. destruct Hcase as [?|Hall]; [lia|].
    unfold all_finished in Hall.
    pose proof (nonzero_eq_length 2 (ls_idxs st)) as Hle.
    rewrite (inv_idxs _ _ Hinv), Hall in Hle. unfold width in Hle.
    simpl in Hle. nia. }
  split; [|split].
  - pose proof (inv_nll _ _ Hinv) as Hn. unfold width in Hn.
    destruct (Nat.eqb_spec t 0) as [Hz|Hne]; [|exact Hn].
    now rewrite (Hk1 Hz).
  - apply (inv_beam _ _ Hinv).
  - intros Hview. destruct (inv_view _ _ Hinv Hview) as [Hz Hzero]. auto.
Qed.

Lemma step_loop_post (n : nat) :
  forall t st,
    inv t st -> t + n = max_len -> 0 < max_len ->
    exists c, step_loop decs vocab k suppress_unk B n t st = Ok c
              /\ post (ctl_state c).
Proof.
  induction n as [|n IH]; intros t st Hinv Hn Hpos; simpl.
  - exists (Continue st). split; [reflexivity|].
    apply (inv_post t); [exact Hinv|left; lia].
  - destruct (step_ok t st Hinv ltac:(lia))
      as [(Hall & ctx_dicts & h_ts & ->)|(_ & st' & -> & _ & Hinv')]; simpl.
    + eexists. split; [reflexivity|]. simpl.
      destruct (inv_post t st Hinv (or_intror Hall)) as (Hp1 & Hp2 & Hp3).
      split; [|split]; assumption.
    + apply IH; [exact Hinv'|lia|exact Hpos].
Qed.

End LoopFacts.

(** ** After the loop: normalisation and the best hypothesis *)

(** The hypotheses line 173 reads off the beam, given what [topk(1)]
    returned for each sample. *)
Definition best_hyps (B : nat) (beam : beam_t)
           (tops : list (list Qc * list nat)) : list (list nat) :=
  map (fun bj => column beam (fst bj) (snd bj))
      (combine (seq 0 B) (map (fun vi => hd 0 (snd vi)) tops)).

Lemma length_penalty_shape `{FloatPow} (lp_alpha : Qc) (r c : nat)
      (lp : tensor2) :
  shape2 r c lp -> shape2 r c (length_penalty lp_alpha lp).
Proof.
  intros Hs. unfold length_penalty. destruct (Qcltb 0 lp_alpha); [|exact Hs].
  destruct Hs as [Hl Hr]. split; [now rewrite length_map|].
  rewrite Forall_forall in *. intros row Hin.
  apply in_map_iff in Hin as (row' & <- & Hin'). rewrite length_map. auto.
Qed.

Lemma float_shape (r c : nat) (m : list (list nat)) :
  shape2 r c m -> shape2 r c (map (map float) m).
Proof.
  intros [Hl Hr]. split; [now rewrite length_map|].
  rewrite Forall_forall in *. intros row Hin.
  apply in_map_iff in Hin as (row' & <- & Hin'). rewrite length_map. auto.
Qed.

(** The divisors of line 169. *)
Definition divisors `{FloatPow} (lp_alpha : Qc) (B k : nat) (beam : beam_t)
  : tensor2 :=
  length_penalty lp_alpha (map (map float) (lengths B k beam)).

Section FinalizeFacts.

Context `{TopK} `{FloatPow}.

Variable vocab : Vocab.
Variables k max_len B : nat.
Variable lp_alpha : Qc.

Hypothesis Hk : 0 < k.
Hypothesis Hlen : 0 < max_len.

Lemma finalize_ok (st : loop_state) :
  post k max_len B st ->
  let beam := force_eos (eos vocab) max_len (ls_beam st) in
  let norm := zip_with (zip_with Qcdiv) (ls_nll st)
                       (divisors lp_alpha B k beam) in
  exists tops,
    Forall2 (kbest 1) norm tops
    /\ finalize vocab k max_len lp_alpha B st
       = Ok (beam, norm, best_hyps B beam tops)
    /\ length (best_hyps B beam tops) = B
    /\ shape2 B k norm.
Proof.
  intros (Hn & Hb & _) beam norm. unfold finalize.
  destruct (Nat.eqb_spec max_len 0) as [?|_]; [lia|]. simpl.
  fold beam.
  assert (Hlp : shape2 B k (divisors lp_alpha B k beam)).
  { unfold divisors. apply length_penalty_shape, float_shape, lengths_shape. }
  unfold divisors in Hlp.
  rewrite (div2_ok B k _ _ Hn Hlp). simpl. fold (divisors lp_alpha B k beam).
  fold norm.
  assert (Hnorm : shape2 B k norm) by (now apply zip2_shape).
  destruct (mapM_topk 1 norm) as (tops & -> & Htops).
  { destruct Hnorm as [_ Hr]. eapply Forall_impl; [|exact Hr].
    simpl. intros row ->. lia. }
  simpl. exists tops. split; [exact Htops|]. split; [reflexivity|].
  split; [|exact Hnorm].
  unfold best_hyps. rewrite length_map, length_combine, length_seq, length_map.
  destruct Hnorm as [Hl _]. rewrite <- (Forall2_length Htops), Hl. lia.
Qed.

End FinalizeFacts.

(** ** One batch, and the storage it leaves *)

Lemma map_const_repeat {A B : Type} (c : B) (l : list A) :
  map (fun _ => c) l = repeat c (length l).
Proof. induction l as [|a l IH]; simpl; [reflexivity|now rewrite IH]. Qed.

Lemma Forall_eq_repeat {A : Type} (c : A) (l : list A) :
  Forall (fun x => x = c) l -> l = repeat c (length l).
Proof.
  induction 1 as [|a l Ha _ IH]; simpl; [reflexivity|].
  now rewrite Ha, <- IH.
Qed.

Lemma repeat_app_total {A : Type} (c : A) (n m : nat) :
  repeat c n ++ repeat c m = repeat c (n + m).
Proof. symmetry. apply repeat_app. Qed.

Lemma zero_narrow (L M k B : nat) (x : beam_t) :
  shape3 L M k x -> B <= M ->
  zero_ (narrow1 x B) = repeat (repeat (repeat 0 k) B) L.
Proof.
  intros [Hl Hrows] HB. unfold zero_, narrow1. rewrite map_map.
  rewrite <- Hl. clear Hl.
  induction Hrows as [|row x [Hrl Hrr] _ IH]; simpl; [reflexivity|].
  rewrite IH. f_equal.
  assert (Hlen : length (firstn B row) = B)
    by (rewrite length_firstn; lia).
  rewrite <- Hlen at 2.
  assert (Hk : Forall (fun slots => length slots = k) (firstn B row))
    by (now apply Forall_firstn_of).
  clear Hlen. induction Hk as [|slots rest Hs _ IHk]; simpl; [reflexivity|].
  now rewrite IHk, map_const_repeat, Hs.
Qed.

Lemma zeros_shape (L B k : nat) :
  shape3 L B k (repeat (repeat (repeat 0 k) B) L).
Proof.
  split; [apply repeat_length|].
  apply Forall_forall. intros row Hin. apply repeat_spec in Hin as ->.
  split; [apply repeat_length|].
  apply Forall_forall. intros slots Hin. apply repeat_spec in Hin as ->.
  apply repeat_length.
Qed.

Lemma zeros_zero (L B k : nat) :
  Forall (Forall (Forall (fun x => x = 0))) (repeat (repeat (repeat 0 k) B) L).
Proof.
  apply Forall_forall. intros row Hin. apply repeat_spec in Hin as ->.
  apply Forall_forall. intros slots Hin. apply repeat_spec in Hin as ->.
  apply Forall_forall. intros x Hin. now apply repeat_spec in Hin.
Qed.

Lemma write_view_shape (L M k B : nat) (x view : beam_t) :
  shape3 L M k x -> shape3 L B k view -> B <= M ->
  shape3 L M k (write_view x view).
Proof.
  intros [Hxl Hxr] [Hvl Hvr] HB. unfold write_view. split.
  - rewrite length_zip_with. lia.
  - rewrite Forall_forall. intros row Hin. unfold zip_with in Hin.
    apply in_map_iff in Hin as ([srow vrow] & <- & Hin). simpl.
    rewrite Forall_forall in Hxr, Hvr.
    destruct (Hxr srow (in_combine_l _ _ _ _ Hin)) as [Hsl Hsr].
    destruct (Hvr vrow (in_combine_r _ _ _ _ Hin)) as [Hvl' Hvr'].
    split.
    + rewrite length_app, length_skipn. lia.
    + apply Forall_app. split; [exact Hvr'|now apply Forall_skipn_of].
Qed.

Lemma Qcdiv_0_l (d : Qc) : (0 / d)%Qc = 0%Qc.
Proof. unfold Qcdiv. apply Qcmult_0_l. Qed.

Lemma zip_div_zero (a b : tensor2) :
  Forall (Forall (fun x => x = 0%Qc)) a ->
  Forall (Forall (fun x => x = 0%Qc)) (zip_with (zip_with Qcdiv) a b).
Proof.
  intros Ha. rewrite Forall_forall. intros row Hin. unfold zip_with at 1 in Hin.
  apply in_map_iff in Hin as ([x y] & <- & Hin). simpl.
  rewrite Forall_forall in Ha.
  pose proof (Ha x (in_combine_l _ _ _ _ Hin)) as Hx.
  rewrite Forall_forall. intros q Hq. unfold zip_with in Hq.
  apply in_map_iff in Hq as ([n d] & <- & Hq). simpl.
  rewrite Forall_forall in Hx.
  rewrite (Hx n (in_combine_l _ _ _ _ Hq)). apply Qcdiv_0_l.
Qed.

Lemma concat_zero (B : nat) (m : tensor2) :
  shape2 B 1 m -> Forall (Forall (fun x => x = 0%Qc)) m ->
  concat m = repeat 0%Qc B.
Proof.
  intros [Hl Hr] Hz. rewrite <- Hl. clear Hl.
  induction Hr as [|row m Hrow _ IH]; simpl; [reflexivity|].
  inversion Hz as [|? ? Hz1 Hz2]; subst.
  rewrite (IH Hz2). destruct row as [|q [|q' row]]; simpl in Hrow; try lia.
  inversion Hz1; subst. reflexivity.
Qed.

Lemma storage_eta (sto sto' : storage) :
  beam_storage sto = beam_storage sto' ->
  nll_storage sto = nll_storage sto' ->
  sto = sto'.
Proof. destruct sto, sto'. simpl. now intros -> ->. Qed.

Lemma force_eos_shape (e L B k' : nat) (beam : beam_t) :
  shape3 L B k' beam -> shape3 L B k' (force_eos e L beam).
Proof.
  intros [Hl Hr]. unfold force_eos. split; [now rewrite length_upd|].
  destruct beam as [|row beam']; [simpl in Hl; subst L; constructor|].
  apply Forall_upd; [|exact Hr].
  apply map2_shape. rewrite Forall_forall in Hr. apply Hr.
  apply nth_In. simpl in *. lia.
Qed.

Section BatchFacts.

Context `{TopK} `{FloatPow}.

Variable models : list Model.
Variable decs : list Decoder.
Variable vocab : Vocab.
Variable enc_args : option (list string).
Variables k max_len max_batch_size : nat.
Variable lp_alpha : Qc.
Variable suppress_unk : bool.

Let V := n_vocab vocab.

(** The storage between two batches: the shape it was allocated with, and
    scores that are still zero. *)
Definition storage_ok (sto : storage) : Prop :=
  shape3 max_len max_batch_size k (beam_storage sto)
  /\ nll_storage sto = repeat 0%Qc max_batch_size.

(** A batch the collaborators handle with the shapes they promise: a size
    within the storage, contexts with one column per sample, one initial
    state row and one begin token per sample. *)
Definition batch_ok (batch : Batch) : Prop :=
  0 < size batch <= max_batch_size
  /\ Forall (fun m => ctx_width (size batch) (encode m batch enc_args)) models
  /\ Forall (fun dc => length (f_init (fst dc) (snd dc)) = size batch)
            (combine decs (map (fun m => encode m batch enc_args) models))
  /\ Forall (fun m => length (get_bos m (size batch)) = size batch) models.

(** The arguments [beam_search] can decode with. *)
Definition call_ok : Prop :=
  2 < V /\ 0 < k <= V /\ 0 < max_len
  /\ models <> [] /\ length decs = length models
  /\ Forall (decoder_ok V) decs
  /\ (suppress_unk = true -> unk vocab < V).

Lemma init_state_indep (B : nat) (sto sto' : storage)
      (ctx_dicts : list ctx_dict) (bos : list nat) :
  storage_ok sto -> storage_ok sto' -> B <= max_batch_size ->
  init_state decs B sto ctx_dicts bos = init_state decs B sto' ctx_dicts bos.
Proof.
  intros [Hb Hn] [Hb' Hn'] HB. unfold init_state.
  rewrite (zero_narrow _ _ _ B _ Hb HB), (zero_narrow _ _ _ B _ Hb' HB).
  now rewrite Hn, Hn'.
Qed.

Lemma init_inv (sto : storage) (batch : Batch) (m0 : Model) :
  call_ok -> storage_ok sto -> batch_ok batch -> In m0 models ->
  inv decs k max_len (size batch) 0
      (init_state decs (size batch) sto
                  (map (fun m => encode m batch enc_args) models)
                  (get_bos m0 (size batch))).
Proof.
  intros (HV & Hk & Hlen & Hm & Hld & Hdok & Hunk) [Hsb Hsn]
         ([HB0 HBm] & Henc & Hinit & Hbos) Hm0.
  set (B := size batch) in *.
  unfold init_state. rewrite (zero_narrow _ _ _ B _ Hsb HBm), Hsn.
  assert (Hfn : firstn B (repeat 0%Qc max_batch_size) = repeat 0%Qc B).
  { replace max_batch_size with (B + (max_batch_size - B)) by lia.
    rewrite repeat_app, firstn_app, repeat_length, Nat.sub_diag.
    rewrite firstn_all2 by (rewrite repeat_length; lia).
    simpl. apply app_nil_r. }
  rewrite Hfn.
  constructor; simpl.
  - split; [now rewrite length_map, repeat_length|].
    apply Forall_forall. intros row Hin.
    apply in_map_iff in Hin as (x & <- & _). reflexivity.
  - rewrite Forall_forall in Hbos. rewrite (Hbos m0 Hm0). unfold width. simpl. lia.
  - rewrite length_seq. unfold width. simpl. lia.
  - exists B. split; [|split].
    + apply Forall_forall. intros i Hi. apply in_seq in Hi. lia.
    + apply Forall_forall. intros h Hin. unfold zip_with in Hin.
      apply in_map_iff in Hin as (dc & <- & Hdc).
      rewrite Forall_forall in Hinit. now apply Hinit.
    + apply Forall_forall. intros cd Hin.
      apply in_map_iff in Hin as (m & <- & Hmin).
      rewrite Forall_forall in Henc. now apply Henc.
  - now rewrite length_map.
  - rewrite length_zip_with, length_map. lia.
  - apply zeros_shape.
  - intros _. split; [reflexivity|].
    apply Forall_forall. intros row Hin.
    apply in_map_iff in Hin as (x & <- & Hx).
    apply repeat_spec in Hx as ->. repeat constructor.
  - lia.
  - apply zeros_zero.
Qed.

(** The sentences of a result, without the storage. *)
Definition sents_of (r : res (storage * list string)) : res (list string) :=
  match r with
  | Ok (_, sents) => Ok sents
  | Err e => Err e
  end.

Lemma get_first (m : Model) (ms : list Model) : get (m :: ms) 0 = Ok m.
Proof. reflexivity. Qed.

Lemma decode_batch_ok (sto : storage) (batch : Batch) :
  call_ok -> storage_ok sto -> batch_ok batch ->
  exists sto' sents,
    decode_batch models decs vocab enc_args k max_len max_batch_size
                 lp_alpha suppress_unk sto batch = Ok (sto', sents)
    /\ length sents = size batch
    /\ storage_ok sto'.
Proof.
  intros Hcall Hsto Hbatch.
  pose proof Hcall as (HV & Hk & Hlen & Hm & Hld & Hdok & Hunk).
  pose proof Hbatch as ([HB0 HBm] & _).
  unfold decode_batch.
  destruct (Nat.leb_spec (size batch) max_batch_size) as [_|?]; [|lia].
  assert (Hget : exists m0, get models 0 = Ok m0 /\ In m0 models).
  { destruct models as [|m0 ms]; [congruence|].
    exists m0. split; [reflexivity|now left]. }
  destruct Hget as (m0 & -> & Hm0). simpl bind.
  pose proof (init_inv sto batch m0 Hcall Hsto Hbatch Hm0) as Hinv.
  assert (Hdecs : decs <> []).
  { intros E. rewrite E in Hld. destruct models; [congruence|discriminate]. }
  destruct (step_loop_post decs vocab k max_len (size batch) suppress_unk
              HB0 HV (proj1 Hk) (proj2 Hk) Hdecs Hdok Hunk max_len 0 _
              Hinv eq_refl Hlen) as (c & -> & Hpost).
  simpl bind.
  destruct (finalize_ok vocab k max_len (size batch) lp_alpha
              (proj1 Hk) Hlen (ctl_state c) Hpost)
    as (tops & Htops & -> & Hhyps & Hnorm).
  simpl. eexists. eexists. split; [reflexivity|].
  split.
  { unfold list_of_idxs_to_sents. now rewrite length_map. }
  destruct Hsto as [Hsb Hsn]. destruct Hpost as (Hpn & Hpb & Hpv).
  split; simpl.
  - apply (write_view_shape _ _ _ (size batch)); [exact Hsb| |exact HBm].
    now apply force_eos_shape.
  - destruct (ls_nll_view (ctl_state c)) eqn:Hview; [|exact Hsn].
    destruct (Hpv eq_refl) as [Hk1 Hz].
    rewrite (concat_zero (size batch)).
    + rewrite Hsn.
      replace max_batch_size with (size batch + (max_batch_size - size batch))
        at 1 by lia.
      rewrite repeat_app, skipn_app, repeat_length, Nat.sub_diag.
      rewrite skipn_all2 by (rewrite repeat_length; lia).
      simpl. rewrite repeat_app_total. f_equal. lia.
    + rewrite <- Hk1. exact Hnorm.
    + now apply zip_div_zero.
Qed.

Lemma decode_batch_indep (sto sto' : storage) (batch : Batch) :
  storage_ok sto -> storage_ok sto' ->
  sents_of (decode_batch models decs vocab enc_args k max_len max_batch_size
                         lp_alpha suppress_unk sto batch)
  = sents_of (decode_batch models decs vocab enc_args k max_len
                           max_batch_size lp_alpha suppress_unk sto' batch).
Proof.
  intros Hs Hs'. unfold decode_batch.
  destruct (Nat.leb_spec (size batch) max_batch_size) as [HB|?];
    [|reflexivity].
  destruct (get models 0) as [m0|e]; simpl; [|reflexivity].
  rewrite (init_state_indep (size batch) sto sto' _ _ Hs Hs' HB).
  destruct (step_loop decs vocab k suppress_unk (size batch) max_len 0 _)
    as [c|e]; simpl; [|reflexivity].
  destruct (finalize vocab k max_len lp_alpha (size batch) (ctl_state c))
    as [[[beam norm] hyps]|e]; simpl; reflexivity.
Qed.

End BatchFacts.

(** ** All batches *)

Lemma fresh_storage_ok (max_len max_batch_size k : nat) :
  storage_ok k max_len max_batch_size (fresh_storage max_len max_batch_size k).
Proof. split; [apply zeros_shape|reflexivity]. Qed.

Section BatchesFacts.

Context `{TopK} `{FloatPow}.

Variable models : list Model.
Variable decs : list Decoder.
Variable vocab : Vocab.
Variable enc_args : option (list string).
Variables k max_len max_batch_size : nat.
Variable lp_alpha : Qc.
Variable suppress_unk : bool.

(** The sentences of one batch decoded on its own, from newly allocated
    storage. *)
Definition batch_alone (batch : Batch) : res (list string) :=
  sents_of (decode_batch models decs vocab enc_args k max_len max_batch_size
                         lp_alpha suppress_unk
                         (fresh_storage max_len max_batch_size k) batch).

Lemma decode_batches_ok (bs : list Batch) :
  call_ok models decs vocab k max_len suppress_unk ->
  Forall (batch_ok models decs enc_args max_batch_size) bs ->
  forall sto acc,
    storage_ok k max_len max_batch_size sto ->
    exists sto' outs,
      decode_batches models decs vocab enc_args k max_len max_batch_size
                     lp_alpha suppress_unk sto bs acc
      = Ok (sto', acc ++ concat outs)
      /\ storage_ok k max_len max_batch_size sto'
      /\ Forall2 (fun b s => batch_alone b = Ok s /\ length s = size b) bs outs.
Proof.
  intros Hcall Hbs. induction Hbs as [|b bs Hb _ IH]; intros sto acc Hsto.
  - exists sto, []. simpl. rewrite app_nil_r.
    split; [reflexivity|]. split; [exact Hsto|constructor].
  - simpl.
    destruct (decode_batch_ok models decs vocab enc_args k max_len
                max_batch_size lp_alpha suppress_unk sto b Hcall Hsto Hb)
      as (sto1 & sents & Hdec & Hlen & Hsto1).
    rewrite Hdec. simpl.
    destruct (IH sto1 (acc ++ sents) Hsto1) as (sto' & outs & Hrest & Hsto' & Houts).
    exists sto', (sents :: outs). simpl. rewrite app_assoc.
    split; [exact Hrest|]. split; [exact Hsto'|].
    constructor; [|exact Houts]. split; [|exact Hlen].
    unfold batch_alone.
    rewrite <- (decode_batch_indep models decs vocab enc_args k max_len
                  max_batch_size lp_alpha suppress_unk sto _ b Hsto
                  (fresh_storage_ok max_len max_batch_size k)).
    now rewrite Hdec.
Qed.

End BatchesFacts.

Lemma concat_sizes (bs : list Batch) (outs : list (list string))
      (P : Batch -> list string -> Prop) :
  Forall2 (fun b s => P b s /\ length s = size b) bs outs ->
  length (concat outs) = list_sum (map size bs).
Proof.
  induction 1 as [|b s bs outs [_ Hs] _ IH]; simpl; [reflexivity|].
  now rewrite length_app, Hs, IH.
Qed.

(** ** Recovering the order of the samples *)

Definition le_snd (p q : nat * nat) : Prop := snd p <= snd q.

Lemma insert_by_snd_perm (p : nat * nat) (l : list (nat * nat)) :
  Permutation (insert_by_snd p l) (p :: l).
Proof.
  induction l as [|q l IH]; simpl; [reflexivity|].
  destruct (snd p <=? snd q); [reflexivity|].
  rewrite IH. apply perm_swap.
Qed.

Lemma sorted_by_snd_perm (l : list (nat * nat)) :
  Permutation (sorted_by_snd l) l.
Proof.
  induction l as [|p l IH]; simpl; [reflexivity|].
  rewrite insert_by_snd_perm. now constructor.
Qed.

Lemma insert_by_snd_sorted (p : nat * nat) (l : list (nat * nat)) :
  StronglySorted le_snd l -> StronglySorted le_snd (insert_by_snd p l).
Proof.
  induction 1 as [|q l Hs IH Hq]; simpl.
  - repeat constructor.
  - destruct (Nat.leb_spec (snd p) (snd q)) as [Hle|Hgt].
    + constructor; [now constructor|]. constructor; [exact Hle|].
      eapply Forall_impl; [|exact Hq]. unfold le_snd. intros r Hr. lia.
    + constructor; [exact IH|].
      rewrite Forall_forall. intros r Hr.
      apply (Permutation_in _ (insert_by_snd_perm p l)) in Hr.
      destruct Hr as [<-|Hr]; [unfold le_snd; lia|].
      rewrite Forall_forall in Hq. now apply Hq.
Qed.

Lemma sorted_by_snd_sorted (l : list (nat * nat)) :
  StronglySorted le_snd (sorted_by_snd l).
Proof.
  induction l as [|p l IH]; simpl; [constructor|].
  now apply insert_by_snd_sorted.
Qed.

Lemma sorted_snd_le (l : list (nat * nat)) :
  StronglySorted le_snd l -> StronglySorted le (map snd l).
Proof.
  induction 1 as [|p l _ IH Hp]; simpl; constructor; [exact IH|].
  rewrite Forall_forall in *. intros j Hj.
  apply in_map_iff in Hj as (q & <- & Hq). now apply Hp.
Qed.

(** A sorted arrangement of [s, s+1, ..., s+n-1] is that list. *)
Lemma sorted_perm_seq (n : nat) :
  forall (s : nat) (l : list nat),
    StronglySorted le l -> Permutation l (seq s n) -> l = seq s n.
Proof.
  induction n as [|n IH]; intros s l Hs Hp; simpl in *.
  - now apply Permutation_nil, Permutation_sym.
  - destruct l as [|a l].
    { apply Permutation_length in Hp. discriminate. }
    inversion Hs as [|? ? Hs' Ha]; subst.
    assert (Has : a = s).
    { assert (Hin_a : In a (s :: seq (S s) n))
        by (apply (Permutation_in _ Hp); now left).
      assert (Hin_s : In s (a :: l))
        by (apply (Permutation_in _ (Permutation_sym Hp)); now left).
      destruct Hin_a as [?|Hin_a]; [congruence|].
      apply in_seq in Hin_a.
      destruct Hin_s as [?|Hin_s]; [congruence|].
      rewrite Forall_forall in Ha. specialize (Ha s Hin_s). lia. }
    subst a. f_equal. apply IH; [exact Hs'|].
    now apply Permutation_cons_inv in Hp.
Qed.

Lemma enumerate_snd {A : Type} (l : list A) : map snd (enumerate l) = l.
Proof.
  unfold enumerate. generalize 0.
  induction l as [|x l IH]; simpl; intros s; [reflexivity|].
  now rewrite IH.
Qed.

Lemma recover_order_perm (results : list string) (orig : list nat)
      (d : string) :
  Permutation orig (seq 0 (length results)) ->
  exists out,
    recover_order results orig = Ok out
    /\ length out = length results
    /\ forall i, i < length results ->
         nth (nth i orig 0) out d = nth i results d.
Proof.
  intros Hperm. set (n := length results) in *.
  assert (Hlo : length orig = n).
  { rewrite (Permutation_length Hperm). apply length_seq. }
  set (s := sorted_by_snd (enumerate orig)).
  assert (Hsp : Permutation s (enumerate orig)) by apply sorted_by_snd_perm.
  assert (Hsnd : map snd s = seq 0 n).
  { apply sorted_perm_seq.
    - apply sorted_snd_le, sorted_by_snd_sorted.
    - rewrite (Permutation_map snd Hsp), enumerate_snd. exact Hperm. }
  assert (Hls : length s = n).
  { rewrite <- (length_map snd), Hsnd. apply length_seq. }
  assert (Helem : forall r, r < n ->
            fst (nth r s (0, 0)) < n
            /\ nth (fst (nth r s (0, 0))) orig 0 = r).
  { intros r Hr.
    assert (Hin : In (nth r s (0, 0)) (enumerate orig)).
    { apply (Permutation_in _ Hsp). apply nth_In. lia. }
    assert (Hr2 : snd (nth r s (0, 0)) = r).
    { rewrite <- (map_nth snd s (0, 0)). rewrite Hsnd. simpl.
      now rewrite seq_nth. }
    destruct (nth r s (0, 0)) as [i j] eqn:E. simpl in *. subst j.
    apply (enumerate_in orig i r 0) in Hin as [Hi Hv]. split; [lia|].
    now symmetry. }
  exists (map (fun ij => nth (fst ij) results d) s).
  split; [|split].
  - unfold recover_order. fold s. apply mapM_ok.
    apply (Forall_of_nth _ _ (0, 0)). intros r Hr.
    apply get_ok. fold n. apply Helem. lia.
  - now rewrite length_map.
  - intros i Hi.
    assert (Hj : nth i orig 0 < n).
    { assert (Hin : In (nth i orig 0) (seq 0 n)).
      { apply (Permutation_in _ Hperm). apply nth_In. lia. }
      apply in_seq in Hin. lia. }
    rewrite (nth_map_lt _ _ _ (0, 0)) by lia.
    destruct (Helem (nth i orig 0) Hj) as [Hlt Heq].
    f_equal.
    assert (Hnd : NoDup orig).
    { apply (Permutation_NoDup (Permutation_sym Hperm)), seq_NoDup. }
    apply (proj1 (NoDup_nth orig 0) Hnd); [lia|lia|exact Heq].
Qed.

(** ** The result of [beam_search] (C1) and the reuse of storage (C10) *)

Lemma resolve_length `{TopologyResolver} (models : list Model)
      (task_id : option string) decs vocab enc_args :
  resolve models task_id = Ok (decs, vocab, enc_args) ->
  length decs = length models.
Proof.
  unfold resolve. destruct task_id as [tid|];
    destruct (get models 0) as [m0|e]; simpl; intros Hr;
      try discriminate; injection Hr as <- _ _; apply length_map.
Qed.

(** C1.  With arguments it can decode with and batches of the promised
    shapes, [beam_search] returns one string per input sample: the per-batch
    hypotheses in the order decoded when the sampler did not reorder, and,
    when it stored a permutation [orig_idxs], the list in which the
    hypothesis decoded at position [i] sits at position [orig_idxs[i]]. *)
Theorem beam_search_one_per_sample `{TopK} `{FloatPow} `{TopologyResolver}
        (models : list Model) (data_loader : DataLoader)
        (task_id : option string) (beam_size max_len : Z) (lp_alpha : Qc)
        (suppress_unk : bool)
        (decs : list Decoder) (vocab : Vocab)
        (enc_args : option (list string)) :
  let sampler := batch_sampler data_loader in
  let k := Z.to_nat beam_size in
  let n := list_sum (map size (batches data_loader)) in
  resolve models task_id = Ok (decs, vocab, enc_args) ->
  call_ok models decs vocab k (Z.to_nat max_len) suppress_unk ->
  Forall (batch_ok models decs enc_args (batch_size sampler))
         (batches data_loader) ->
  exists outs,
    Forall2 (fun b s =>
               batch_alone models decs vocab enc_args k (Z.to_nat max_len)
                           (batch_size sampler) lp_alpha suppress_unk b = Ok s
               /\ length s = size b)
            (batches data_loader) outs
    /\ length (concat outs) = n
    /\ (store_indices sampler = false ->
        beam_search models data_loader task_id beam_size max_len lp_alpha
                    suppress_unk = Ok (concat outs))
    /\ (store_indices sampler = true ->
        Permutation (orig_idxs sampler) (seq 0 n) ->
        exists out,
          beam_search models data_loader task_id beam_size max_len lp_alpha
                      suppress_unk = Ok out
          /\ length out = n
          /\ forall i, i < n ->
               nth (nth i (orig_idxs sampler) 0) out ""%string
               = nth i (concat outs) ""%string).
Proof.
  intros sampler k n Hres Hcall Hbs.
  destruct (decode_batches_ok models decs vocab enc_args k (Z.to_nat max_len)
              (batch_size sampler) lp_alpha suppress_unk (batches data_loader)
              Hcall Hbs (fresh_storage (Z.to_nat max_len) (batch_size sampler) k)
              [] (fresh_storage_ok _ _ _))
    as (sto' & outs & Hdec & _ & Houts).
  simpl in Hdec.
  assert (Hn : length (concat outs) = n) by (apply (concat_sizes _ _ _ Houts)).
  assert (Hpos : ((max_len <? 0) || (beam_size <? 0))%Z = false).
  { destruct Hcall as (_ & [Hk _] & Hl & _). fold k in Hk.
    apply orb_false_iff. split; apply Z.ltb_ge; lia. }
  assert (Hbeam :
            beam_search models data_loader task_id beam_size max_len lp_alpha
                        suppress_unk
            = if store_indices sampler
              then recover_order (concat outs) (orig_idxs sampler)
              else Ok (concat outs)).
  { unfold beam_search. rewrite Hres. simpl bind.
    rewrite Hpos. fold sampler k. rewrite Hdec. reflexivity. }
  exists outs. split; [exact Houts|]. split; [exact Hn|]. split.
  - intros Hst. now rewrite Hbeam, Hst.
  - intros Hst Hperm. rewrite Hbeam, Hst.
    rewrite <- Hn in Hperm.
    destruct (recover_order_perm (concat outs) (orig_idxs sampler) ""%string
                                 Hperm) as (out & Hrec & Hlen & Hnth).
    exists out. split; [exact Hrec|]. split; [lia|].
    intros i Hi. apply Hnth. lia.
Qed.

Lemma firstn_repeat_le {A : Type} (c : A) (n m : nat) :
  n <= m -> firstn n (repeat c m) = repeat c n.
Proof.
  intros Hle. replace m with (n + (m - n)) by lia.
  rewrite repeat_app, firstn_app, repeat_length, Nat.sub_diag.
  rewrite firstn_all2 by (rewrite repeat_length; lia).
  simpl. apply app_nil_r.
Qed.

(** C10.  Whatever batches were decoded before, the next batch starts from a
    zeroed beam view and from running scores that are exactly zero (the score
    storage still holds its initial zeros), and its sentences are those it
    yields when decoded on its own from newly allocated storage. *)
Theorem batches_independent `{TopK} `{FloatPow}
        (models : list Model) (decs : list Decoder) (vocab : Vocab)
        (enc_args : option (list string)) (k max_len max_batch_size : nat)
        (lp_alpha : Qc) (suppress_unk : bool)
        (pre : list Batch) (b : Batch) :
  call_ok models decs vocab k max_len suppress_unk ->
  Forall (batch_ok models decs enc_args max_batch_size) pre ->
  batch_ok models decs enc_args max_batch_size b ->
  exists sto res,
    decode_batches models decs vocab enc_args k max_len max_batch_size
                   lp_alpha suppress_unk
                   (fresh_storage max_len max_batch_size k) pre []
    = Ok (sto, res)
    /\ nll_storage sto = repeat 0%Qc max_batch_size
    /\ (forall ctx_dicts bos,
          let st0 := init_state decs (size b) sto ctx_dicts bos in
          ls_beam st0 = repeat (repeat (repeat 0 k) (size b)) max_len
          /\ ls_nll st0 = repeat [0%Qc] (size b))
    /\ sents_of (decode_batch models decs vocab enc_args k max_len
                              max_batch_size lp_alpha suppress_unk sto b)
       = batch_alone models decs vocab enc_args k max_len max_batch_size
                     lp_alpha suppress_unk b
    /\ exists s,
         batch_alone models decs vocab enc_args k max_len max_batch_size
                     lp_alpha suppress_unk b = Ok s
         /\ length s = size b.
Proof.
  intros Hcall Hpre Hb.
  destruct (decode_batches_ok models decs vocab enc_args k max_len
              max_batch_size lp_alpha suppress_unk pre Hcall Hpre
              (fresh_storage max_len max_batch_size k) []
              (fresh_storage_ok _ _ _))
    as (sto & outs & Hdec & Hsto & _).
  exists sto, ([] ++ concat outs). split; [exact Hdec|].
  pose proof Hsto as [Hsb Hsn]. split; [exact Hsn|].
  pose proof Hb as ([_ HBm] & _).
  split.
  { intros ctx_dicts bos st0. unfold st0, init_state. simpl. split.
    - now apply (zero_narrow max_len max_batch_size k).
    - rewrite Hsn, firstn_repeat_le by exact HBm. apply map_repeat. }
  split.
  { apply decode_batch_indep; [exact Hsto|apply fresh_storage_ok]. }
  destruct (decode_batch_ok models decs vocab enc_args k max_len
              max_batch_size lp_alpha suppress_unk
              (fresh_storage max_len max_batch_size k) b Hcall
              (fresh_storage_ok _ _ _) Hb) as (sto1 & s & Hd & Hl & _).
  exists s. split; [|exact Hl]. unfold batch_alone. now rewrite Hd.
Qed.

(** ** End-token pinning in a step (C4) *)

Lemma inf_value : inf = qc (-1000).
Proof. reflexivity. Qed.

(** C4, as the code has it.  In a step that does not break, the tensor the
    selection of lines 142-144 reads is the summed output [raw] of
    [step_prepare] after lines 131-135: every slot whose current token is 2
    holds the row "[inf] everywhere, 0 at entry 2", every other row is as the
    decoders gave it.  Slot [b * k + j] of the next state continues the old
    slot its tile entry names; when that ancestor held token 2, the new slot
    either carries token 2 and exactly the ancestor's running score, or
    another token and that score plus [inf].  Nothing keeps such a slot among
    the [k] best. *)
Theorem pinning_step `{TopK} (decs : list Decoder) (vocab : Vocab)
        (k max_len B : nat) (suppress_unk : bool) (t : nat) (st : loop_state) :
  let V := n_vocab vocab in
  let K := width k t in
  let fin := nonzero_eq 2 (ls_idxs st) in
  0 < B -> 2 < V -> 0 < k -> k <= V -> decs <> [] ->
  Forall (decoder_ok V) decs ->
  (suppress_unk = true -> unk vocab < V) ->
  inv decs k max_len B t st -> t < max_len ->
  ~ all_finished k B st ->
  exists ctx_dicts h_ts raw log_p st',
    step_prepare decs vocab suppress_unk st = Ok (ctx_dicts, h_ts, raw, fin)
    /\ (if length fin =? 0 then log_p = raw else pin V fin raw = Ok log_p)
    /\ step_select vocab k B t st ctx_dicts h_ts log_p = Ok st'
    /\ step decs vocab k suppress_unk B t st = Ok (Continue st')
    /\ (forall i c, i < B * K -> c < V ->
          nth c (nth i log_p []) 0%Qc
          = if nth i (ls_idxs st) 0 =? 2
            then (if c =? 2 then 0%Qc else inf)
            else nth c (nth i raw []) 0%Qc)
    /\ (forall b j, b < B -> j < k ->
          let token := nth (b * k + j) (ls_idxs st') 0 in
          let score := nth j (nth b (ls_nll st') []) 0%Qc in
          exists ancestor,
            ancestor < K
            /\ nth (b * k + j) (ls_tile st') 0 = b * K + ancestor
            /\ token < V
            /\ score = (nth ancestor (nth b (ls_nll st) []) 0
                        + nth token (nth (b * K + ancestor) log_p []) 0)%Qc
            /\ (nth (b * K + ancestor) (ls_idxs st) 0 = 2 ->
                score = if token =? 2
                        then nth ancestor (nth b (ls_nll st) []) 0%Qc
                        else (nth ancestor (nth b (ls_nll st) []) 0 + inf)%Qc)).
Proof.
  intros V K fin HB HV Hk HkV Hdecs Hdok Hunk Hinv Ht Hnall.
  destruct (step_common decs vocab k max_len B suppress_unk HB HV Hk HkV
              Hdecs Hdok Hunk t st Hinv Ht)
    as (ctx_dicts & h_ts & raw & tops & Hprep & Hlp & Hpin & Htops & Hsel
        & Hinv').
  fold fin in Hprep, Hpin, Htops, Hsel.
  fold V in Hlp, Hpin, Hsel, Hinv'. fold K in Hlp, Htops.
  assert (HV0 : 0 < V) by lia.
  assert (Hchoice : if length fin =? 0 then step_log_p fin raw = raw
                    else pin V fin raw = Ok (step_log_p fin raw)).
  { unfold step_log_p.
    destruct (Nat.eqb_spec (length fin) 0) as [Hz|Hnz]; [reflexivity|].
    apply Hpin. intros E. rewrite E in Hnz. simpl in Hnz. lia. }
  assert (Hstep : step decs vocab k suppress_unk B t st
                  = Ok (Continue (selected V k B t st ctx_dicts h_ts tops))).
  { unfold step. rewrite Hprep. simpl. fold fin.
    unfold all_finished in Hnall. fold fin in Hnall.
    destruct (Nat.eqb_spec (length fin) 0) as [Hz|Hnz]; simpl.
    - rewrite <- Hchoice. unfold V in Hsel. now rewrite Hsel.
    - destruct (Nat.eqb_spec (length fin) (B * k)) as [?|_]; [contradiction|].
      unfold V in Hchoice, Hsel. rewrite Hchoice.
      simpl. now rewrite Hsel. }
  assert (Hrows : forall i c, i < B * K -> c < V ->
            nth c (nth i (step_log_p fin raw) []) 0%Qc
            = if nth i (ls_idxs st) 0 =? 2
              then (if c =? 2 then 0%Qc else inf)
              else nth c (nth i raw []) 0%Qc).
  { intros i c Hi Hc.
    destruct (Nat.eqb_spec (nth i (ls_idxs st) 0) 2) as [Htok|Htok].
    - assert (Hin : In i fin).
      { apply nonzero_eq_spec. split; [|exact Htok].
        rewrite (inv_idxs _ _ _ _ _ _ Hinv). exact Hi. }
      unfold step_log_p.
      destruct (Nat.eqb_spec (length fin) 0) as [Hz|_].
      + destruct fin; [contradiction|discriminate].
      + now apply (pinned_row_fin (B * K) V).
    - unfold step_log_p. destruct (length fin =? 0); [reflexivity|].
      rewrite pinned_row_other; [reflexivity|].
      intros Hin. apply nonzero_eq_spec in Hin as [_ E]. contradiction. }
  assert (Hlp' : shape2 (B * K) V (step_log_p fin raw)).
  { unfold step_log_p. destruct (length fin =? 0); [exact Hlp|].
    now apply pinned_shape. }
  pose proof (scores_of_shape B V K _ _ (inv_nll _ _ _ _ _ _ Hinv) Hlp') as Hsc.
  exists ctx_dicts, h_ts, raw, (step_log_p fin raw),
         (selected V k B t st ctx_dicts h_ts tops).
  split; [exact Hprep|]. split; [exact Hchoice|]. split; [exact Hsel|].
  split; [exact Hstep|]. split; [exact Hrows|].
  intros b j Hb Hj token score.
  set (f := nth j (nth b (map snd tops) []) 0).
  pose proof (flat_bound V k B K _ tops HV0 Hsc Htops b j Hb Hj) as Hf.
  fold f in Hf.
  assert (Hanc : f / V < K)
    by (apply Nat.Div0.div_lt_upper_bound; lia).
  assert (Htokb : f mod V < V) by (apply Nat.mod_upper_bound; lia).
  assert (Hfeq : f = f / V * V + f mod V).
  { pose proof (Nat.div_mod_eq f V). lia. }
  assert (Hbj : b * k + j < B * k) by nia.
  assert (Hdiv : (b * k + j) / k = b).
  { rewrite Nat.div_add_l by lia. rewrite Nat.div_small by exact Hj. lia. }
  assert (Hmod : (b * k + j) mod k = j).
  { rewrite Nat.add_comm, Nat.Div0.mod_add. now apply Nat.mod_small. }
  assert (Htoken : token = f mod V).
  { unfold token.
    rewrite (selected_idxs V k B K t st ctx_dicts h_ts _ tops HV0 Hsc Htops
                           _ Hbj).
    now rewrite Hdiv, Hmod. }
  assert (Hscore : score
                   = (nth (f / V) (nth b (ls_nll st) []) 0
                      + nth (f mod V)
                            (nth (b * K + f / V) (step_log_p fin raw) []) 0)%Qc).
  { unfold score.
    rewrite (selected_nll V k B K t st ctx_dicts h_ts _ tops HV0 Hsc Htops
                          b j Hb Hj).
    fold f. rewrite Hfeq at 1.
    apply (scores_of_nth B V K _ _ b (f / V) (f mod V)
                         (inv_nll _ _ _ _ _ _ Hinv) Hlp' Hb Hanc Htokb). }
  exists (f / V). split; [exact Hanc|]. split.
  { rewrite (selected_tile V k B K t st ctx_dicts h_ts _ tops HV0 Hsc Htops
                           _ Hbj).
    rewrite Hdiv, Hmod. fold f. unfold K, width. lia. }
  split; [rewrite Htoken; exact Htokb|].
  split; [rewrite Htoken; exact Hscore|].
  intros Heos. rewrite Hscore, Htoken.
  rewrite (Hrows (b * K + f / V) (f mod V)) by (try assumption; nia).
  rewrite Heos. simpl.
  destruct (f mod V =? 2); [apply Qcplus_0_r|reflexivity].
Qed.

(** ** A worked example: the vocabulary of the specification's scenario *)

Module Toy.

Local Open Scope string_scope.

(** pad 0, bos 1, eos 2, unk 3, a 4, b 5. *)
Definition vocab6 : Vocab :=
  {| unk := 3;
     eos := 2;
     n_vocab := 6;
     word := fun i => match i with
                      | 3 => "<unk>"
                      | 4 => "a"
                      | 5 => "b"
                      | _ => "?"
                      end |}.

Definition num_of (row : list Qc) : nat := Z.to_nat (Qfloor (hd 0%Qc row)).

Definition fit (V : nat) (row : list Qc) : list Qc :=
  firstn V (row ++ repeat inf V).

(** A decoder read off a table: the distribution after [step] steps when
    the previous token is [prev].  The state row counts the steps. *)
Definition table_decoder (V : nat) (dist : nat -> nat -> list Qc) : Decoder :=
  {| f_init := fun cd =>
       map (fun _ => [0%Qc])
           (hd [] (fst (snd (hd ("", ([], None)) cd))));
     f_next := fun _ e h =>
       (imap (fun i hrow => fit V (dist (num_of hrow) (num_of (nth i e []))))
             h,
        map (fun hrow => [(hd 0%Qc hrow + 1)%Qc]) h);
     emb := fun y => map (fun tok => [float tok]) y |}.

Definition table_model (V : nat) (dist : nat -> nat -> list Qc) : Model :=
  {| dec := table_decoder V dist;
     get_decoder := fun _ => table_decoder V dist;
     trg_vocab := vocab6;
     vocabs := fun _ => vocab6;
     encode := fun b _ => [("src", ([map (fun _ => [0%Qc]) (samples b)], None))];
     get_bos := fun n => repeat BOS n |}.

Definition batch_of (ss : list (list nat)) : Batch :=
  {| size := length ss; samples := ss |}.

Definition row6 (p0 p1 p2 p3 p4 p5 : Z) : list Qc :=
  [qc p0; qc p1; qc p2; qc p3; qc p4; qc p5].

End Toy.

Lemma fit_length (V : nat) (row : list Qc) : length (Toy.fit V row) = V.
Proof.
  unfold Toy.fit. rewrite length_firstn, length_app, repeat_length. lia.
Qed.

Lemma table_decoder_ok (V : nat) (dist : nat -> nat -> list Qc) :
  decoder_ok V (Toy.table_decoder V dist).
Proof.
  intros cd e h. simpl. split; [split|].
  - apply length_imap.
  - apply (Forall_of_nth _ _ []). intros i Hi. rewrite length_imap in Hi.
    rewrite (nth_imap _ _ _ [] []) by exact Hi. apply fit_length.
  - apply length_map.
Qed.

Lemma table_call_ok (dist : nat -> nat -> list Qc) (k max_len : nat)
      (suppress_unk : bool) :
  0 < k <= 6 -> 0 < max_len ->
  call_ok [Toy.table_model 6 dist] [Toy.table_decoder 6 dist] Toy.vocab6
          k max_len suppress_unk.
Proof.
  intros Hk Hl. unfold call_ok. simpl.
  repeat split; try lia; try discriminate.
  - constructor; [apply table_decoder_ok|constructor].
Qed.

Lemma table_batch_ok (dist : nat -> nat -> list Qc) (enc_args : option (list string))
      (max_batch_size : nat) (ss : list (list nat)) :
  0 < length ss <= max_batch_size ->
  batch_ok [Toy.table_model 6 dist] [Toy.table_decoder 6 dist] enc_args
           max_batch_size (Toy.batch_of ss).
Proof.
  intros Hs. unfold batch_ok. simpl. split; [exact Hs|].
  split; [|split].
  - constructor; [|constructor]. constructor; [|constructor]. simpl.
    split; [|exact I]. constructor; [|constructor]. apply length_map.
  - constructor; [|constructor]. simpl. now rewrite !length_map.
  - constructor; [|constructor]. simpl. apply repeat_length.
Qed.

(** ** A finished slot that is not kept (C4) *)

Module PinExample.

(** After begin: a is likely, end possible; after a: a, then b. *)
Definition dist (step prev : nat) : list Qc :=
  match prev with
  | 1 => Toy.row6 (-9) (-9) (-5) (-9) (-1) (-9)
  | 4 => Toy.row6 (-9) (-9) (-9) (-9) (-1) (-2)
  | _ => Toy.row6 (-9) (-9) (-9) (-9) (-9) (-9)
  end.

Definition decoder : Decoder := Toy.table_decoder 6 dist.
Definition model : Model := Toy.table_model 6 dist.
Definition batch : Batch := Toy.batch_of [[4]].

(** One sample, beam width 2, three steps. *)
Definition st0 : loop_state :=
  init_state [decoder] 1 (fresh_storage 3 1 2) [encode model batch None]
             (get_bos model 1).

End PinExample.

(** The claim C4 makes of every later step fails: after step 0 slot 1 holds
    the end-of-sequence token with score -5; at step 1 the two best
    candidates (-2 and -3) both continue slot 0, so no slot holds the
    end-of-sequence token any more.  The two selected candidates are
    strictly better than all others, whatever order [topk] returns. *)
Lemma pinning_finished_slot_dropped :
  exists st1 st2,
    step [PinExample.decoder] Toy.vocab6 2 false 1 0 PinExample.st0
    = Ok (Continue st1)
    /\ step [PinExample.decoder] Toy.vocab6 2 false 1 1 st1
       = Ok (Continue st2)
    /\ ls_idxs st1 = [4; 2]
    /\ map (map (fun q => Qnum (this q))) (ls_nll st1) = [[(-1)%Z; (-5)%Z]]
    /\ ls_idxs st2 = [4; 5]
    /\ map (map (fun q => Qnum (this q))) (ls_nll st2) = [[(-2)%Z; (-3)%Z]]
    /\ ~ In 2 (ls_idxs st2).
Proof.
  eexists. eexists.
  split; [vm_compute; reflexivity|].
  split; [vm_compute; reflexivity|].
  split; [reflexivity|]. split; [reflexivity|].
  split; [reflexivity|]. split; [reflexivity|].
  simpl. intros [E|[E|[]]]; discriminate.
Qed.

(** ** A call that is not refused (C8) *)

Definition empty_loader : DataLoader :=
  {| batch_sampler := {| batch_size := 1;
                         store_indices := false;
                         orig_idxs := [] |};
     batches := [] |}.

(** A call with a non-positive [max_len] that is not rejected: with no batch
    to decode, [beam_search] returns the empty list. *)
Lemma no_eager_rejection :
  (0 <= 0)%Z
  /\ beam_search [PinExample.model] empty_loader None 2%Z 0%Z 0%Qc false
     = Ok [].
Proof. split; [lia|reflexivity]. Qed.

Lemma resolve_nil `{TopologyResolver} (task_id : option string) :
  resolve [] task_id = Err IndexError.
Proof. destruct task_id; reflexivity. Qed.

Lemma resolve_cons `{TopologyResolver} (m : Model) (ms : list Model)
      (task_id : option string) :
  exists decs vocab enc_args,
    resolve (m :: ms) task_id = Ok (decs, vocab, enc_args).
Proof. destruct task_id; simpl; eauto. Qed.

(** ** The theorems at concrete inputs *)

Module Witness.

Local Open Scope string_scope.

Definition tensor : tensor3 := [[[qc 1]; [qc 2]]].
Definition mask : mask_t := [[1%Qc; 0%Qc]].
Definition heap0 : Heap.heap := [Heap.OTensor tensor; Heap.OMask mask].
Definition ctx0 : Heap.ctx_ref := [("src", (0, Some 1)); ("img", (0, None))].
Definition vals0 : ctx_dict :=
  [("src", (tensor, Some mask)); ("img", (tensor, None))].

Definition log_p0 : tensor2 := [Toy.row6 (-9) (-9) (-5) (-9) (-1) (-9)].

Definition beam5 : beam_t :=
  [[[4]]; [[4]]; [[5]]; [[4]]; [[5]]; [[2]]].

Definition loader : DataLoader :=
  {| batch_sampler := {| batch_size := 2;
                         store_indices := true;
                         orig_idxs := [2; 0; 1] |};
     batches := [Toy.batch_of [[4]; [5]]; Toy.batch_of [[4]]] |}.

(** One sample, one slot, six steps: five content tokens, score -3. *)
Definition done5 : loop_state :=
  {| ls_beam := beam5;
     ls_nll := [[qc (-3)]];
     ls_nll_view := false;
     ls_idxs := [2];
     ls_tile := [0];
     ls_ctx := [];
     ls_h := [] |}.

End Witness.

Lemma tile_ctx_dict_gathers_witness :
  Heap.deref Witness.heap0 Witness.ctx0 = Ok Witness.vals0
  /\ Forall (entry_in_range [1; 1; 0]) Witness.vals0
  /\ exists h' cd' out,
       Heap.tile_ctx_dict Witness.heap0 Witness.ctx0 [1; 1; 0] = Ok (h', cd')
       /\ Heap.deref h' cd' = Ok out
       /\ firstn 2 h' = Witness.heap0
       /\ Heap.deref h' Witness.ctx0 = Ok Witness.vals0.
Proof.
  assert (Hd : Heap.deref Witness.heap0 Witness.ctx0 = Ok Witness.vals0)
    by reflexivity.
  assert (Hr : Forall (entry_in_range [1; 1; 0]) Witness.vals0).
  { repeat constructor; simpl; lia. }
  split; [exact Hd|]. split; [exact Hr|].
  destruct (tile_ctx_dict_gathers Witness.heap0 Witness.ctx0 Witness.vals0
                                  [1; 1; 0] Hd Hr)
    as (h' & cd' & out & Ht & _ & Hd' & _ & Hpre & Hin & _).
  exists h', cd', out. auto.
Defined.



Lemma lengths_count_content_witness :
  0 < 1 /\ 0 < 1
  /\ nth 0 (nth 0 (lengths 1 1 (force_eos 2 6 Witness.beam5)) []) 0 = 5.
Proof.
  split; [lia|]. split; [lia|].
  destruct (lengths_count_content 2 6 1 1 Witness.beam5 0 0
              ltac:(lia) ltac:(lia)) as [E _].
  exact E.
Defined.

Lemma beam_search_one_per_sample_witness :
  resolve [PinExample.model] None
  = Ok ([PinExample.decoder], Toy.vocab6, None)
  /\ call_ok [PinExample.model] [PinExample.decoder] Toy.vocab6
             (Z.to_nat 2) (Z.to_nat 3) false
  /\ Forall (batch_ok [PinExample.model] [PinExample.decoder] None 2)
            (batches Witness.loader)
  /\ Permutation [2; 0; 1] (seq 0 3)
  /\ exists out,
       beam_search [PinExample.model] Witness.loader None 2%Z 3%Z 0%Qc false
       = Ok out
       /\ length out = 3.
Proof.
  assert (Hres : resolve [PinExample.model] None
                 = Ok ([PinExample.decoder], Toy.vocab6, None))
    by reflexivity.
  assert (Hcall : call_ok [PinExample.model] [PinExample.decoder] Toy.vocab6
                          (Z.to_nat 2) (Z.to_nat 3) false).
  { apply table_call_ok; simpl; lia. }
  assert (Hbs : Forall (batch_ok [PinExample.model] [PinExample.decoder]
                                 None 2)
                       (batches Witness.loader)).
  { repeat constructor; apply table_batch_ok; simpl; lia. }
  assert (Hperm : Permutation [2; 0; 1] (seq 0 3)).
  { apply (Permutation_cons_append [0; 1] 2). }
  repeat (split; [assumption|]).
  destruct (beam_search_one_per_sample [PinExample.model] Witness.loader None
              2%Z 3%Z 0%Qc false [PinExample.decoder] Toy.vocab6 None
              Hres Hcall Hbs) as (outs & _ & _ & _ & Hre).
  destruct (Hre eq_refl Hperm) as (out & Hb & Hl & _).
  exists out. split; [exact Hb|exact Hl].
Defined.

Lemma batches_independent_witness :
  call_ok [PinExample.model] [PinExample.decoder] Toy.vocab6 2 3 false
  /\ Forall (batch_ok [PinExample.model] [PinExample.decoder] None 2)
            [Toy.batch_of [[4]; [5]]]
  /\ batch_ok [PinExample.model] [PinExample.decoder] None 2
              (Toy.batch_of [[4]])
  /\ exists sto res,
       decode_batches [PinExample.model] [PinExample.decoder] Toy.vocab6 None
                      2 3 2 0%Qc false (fresh_storage 3 2 2)
                      [Toy.batch_of [[4]; [5]]] []
       = Ok (sto, res)
       /\ nll_storage sto = repeat 0%Qc 2
       /\ sents_of (decode_batch [PinExample.model] [PinExample.decoder]
                                 Toy.vocab6 None 2 3 2 0%Qc false sto
                                 (Toy.batch_of [[4]]))
          = batch_alone [PinExample.model] [PinExample.decoder] Toy.vocab6
                        None 2 3 2 0%Qc false (Toy.batch_of [[4]]).
Proof.
  assert (Hcall : call_ok [PinExample.model] [PinExample.decoder] Toy.vocab6
                          2 3 false).
  { apply table_call_ok; simpl; lia. }
  assert (Hpre : Forall (batch_ok [PinExample.model] [PinExample.decoder]
                                  None 2)
                        [Toy.batch_of [[4]; [5]]]).
  { repeat constructor; apply table_batch_ok; simpl; lia. }
  assert (Hb : batch_ok [PinExample.model] [PinExample.decoder] None 2
                        (Toy.batch_of [[4]])).
  { apply table_batch_ok; simpl; lia. }
  repeat (split; [assumption|]).
  destruct (batches_independent [PinExample.model] [PinExample.decoder]
              Toy.vocab6 None 2 3 2 0%Qc false
              [Toy.batch_of [[4]; [5]]] (Toy.batch_of [[4]]) Hcall Hpre Hb)
    as (sto & res & Hdec & Hn & _ & Hind & _).
  exists sto, res. auto.
Defined.

Lemma pin_example_inv0 : inv [PinExample.decoder] 2 3 1 0 PinExample.st0.
Proof.
  apply (init_inv [PinExample.model] [PinExample.decoder] Toy.vocab6 None
                  2 3 1 false (fresh_storage 3 1 2) PinExample.batch
                  PinExample.model).
  - apply table_call_ok; simpl; lia.
  - apply fresh_storage_ok.
  - apply table_batch_ok. simpl. lia.
  - now left.
Qed.

Lemma pinning_step_witness :
  exists st1,
    step [PinExample.decoder] Toy.vocab6 2 false 1 0 PinExample.st0
    = Ok (Continue st1)
    /\ inv [PinExample.decoder] 2 3 1 1 st1
    /\ ~ all_finished 2 1 st1
    /\ nth 1 (ls_idxs st1) 0 = 2
    /\ exists ctx_dicts h_ts raw log_p st2,
         step_prepare [PinExample.decoder] Toy.vocab6 false st1
         = Ok (ctx_dicts, h_ts, raw, [1])
         /\ pin 6 [1] raw = Ok log_p
         /\ step_select Toy.vocab6 2 1 1 st1 ctx_dicts h_ts log_p = Ok st2
         /\ step [PinExample.decoder] Toy.vocab6 2 false 1 1 st1
            = Ok (Continue st2)
         /\ (forall c, c < 6 ->
               nth c (nth 1 log_p []) 0%Qc = if c =? 2 then 0%Qc else inf)
         /\ (forall c, c < 6 ->
               nth c (nth 0 log_p []) 0%Qc = nth c (nth 0 raw []) 0%Qc).
Proof.
  assert (HB : 0 < 1) by lia.
  assert (HV : 2 < n_vocab Toy.vocab6) by (simpl; lia).
  assert (Hk : 0 < 2) by lia.
  assert (HkV : 2 <= n_vocab Toy.vocab6) by (simpl; lia).
  assert (Hdecs : [PinExample.decoder] <> []) by discriminate.
  assert (Hdok : Forall (decoder_ok (n_vocab Toy.vocab6)) [PinExample.decoder]).
  { constructor; [apply table_decoder_ok|constructor]. }
  assert (Hunk : false = true -> unk Toy.vocab6 < n_vocab Toy.vocab6)
    by discriminate.
  destruct (step_ok [PinExample.decoder] Toy.vocab6 2 3 1 false HB HV Hk HkV
              Hdecs Hdok Hunk 0 PinExample.st0 pin_example_inv0 ltac:(lia))
    as [(Hall & _)|(_ & st1 & Hstep & _ & Hinv1)].
  { exfalso. vm_compute in Hall. discriminate. }
  exists st1. split; [exact Hstep|]. split; [exact Hinv1|].
  assert (Hidxs : ls_idxs st1 = [4; 2]).
  { assert (E : step [PinExample.decoder] Toy.vocab6 2 false 1 0 PinExample.st0
               = Ok (Continue st1)) by exact Hstep.
    vm_compute in E. injection E as E. now rewrite <- E. }
  assert (Hnall : ~ all_finished 2 1 st1).
  { unfold all_finished. rewrite Hidxs. simpl. discriminate. }
  split; [exact Hnall|]. split; [now rewrite Hidxs|].
  destruct (pinning_step [PinExample.decoder] Toy.vocab6 2 3 1 false 1 st1
              HB HV Hk HkV Hdecs Hdok Hunk Hinv1 ltac:(lia) Hnall)
    as (ctx_dicts & h_ts & raw & log_p & st2 & Hprep & Hpin & Hsel & Hstep2
        & Hrows & _).
  rewrite Hidxs in Hprep, Hpin. simpl in Hprep, Hpin.
  exists ctx_dicts, h_ts, raw, log_p, st2.
  split; [exact Hprep|]. split; [exact Hpin|]. split; [exact Hsel|].
  split; [exact Hstep2|]. split.
  - intros c Hc.
    rewrite (Hrows 1 c) by (simpl; lia). now rewrite Hidxs.
  - intros c Hc.
    rewrite (Hrows 0 c) by (simpl; lia). now rewrite Hidxs.
Defined.

(** ** Early exit against the full loop (C5) *)

(** *** k-best over rows that are all pinned *)

Lemma nodup_bounded_perm (n : nat) (p : list nat) :
  NoDup p -> length p = n -> Forall (fun i => i < n) p ->
  Permutation p (seq 0 n).
Proof.
  intros Hnd Hl Hb. apply NoDup_Permutation_bis; [exact Hnd| |].
  - rewrite length_seq. lia.
  - intros i Hi. apply in_seq. rewrite Forall_forall in Hb.
    specialize (Hb i Hi). lia.
Qed.

Lemma map_nth_seq {A : Type} (l : list A) (d : A) :
  map (fun i => nth i l d) (seq 0 (length l)) = l.
Proof.
  apply (nth_ext _ _ d d).
  - now rewrite length_map, length_seq.
  - intros i Hi. rewrite length_map, length_seq in Hi.
    rewrite (nth_map_lt _ _ _ 0) by (now rewrite length_seq).
    now rewrite seq_nth.
Qed.

Lemma map_nth_perm {A : Type} (l : list A) (d : A) (p : list nat) :
  Permutation p (seq 0 (length l)) ->
  Permutation (map (fun i => nth i l d) p) l.
Proof.
  intros Hp. rewrite (Permutation_map (fun i => nth i l d) Hp).
  now rewrite map_nth_seq.
Qed.

Lemma incl_or_missing (E l : list nat) :
  incl E l \/ exists e, In e E /\ ~ In e l.
Proof.
  induction E as [|a E IH].
  - left. intros x [].
  - destruct IH as [Hincl|(e & He & Hne)].
    + destruct (in_dec Nat.eq_dec a l) as [Ha|Ha].
      * left. intros x [<-|Hx]; auto.
      * right. exists a. split; [now left|exact Ha].
    + right. exists e. split; [now right|exact Hne].
Qed.

Lemma NoDup_map_inj_in {A B : Type} (f : A -> B) (l : list A) :
  (forall x y, In x l -> In y l -> f x = f y -> x = y) ->
  NoDup l -> NoDup (map f l).
Proof.
  intros Hinj Hnd. induction Hnd as [|a l Ha _ IH]; simpl; constructor.
  - intros Hin. apply in_map_iff in Hin as (y & Hfy & Hy).
    assert (y = a) by (apply Hinj; simpl; auto). subst. contradiction.
  - apply IH. intros x y Hx Hy. apply Hinj; simpl; auto.
Qed.

(** No score of the sample is 1000 or more below another: a pinned
    end-of-sequence candidate beats every other continuation. *)
Definition spread_ok (s : list Qc) : Prop :=
  forall x y, In x s -> In y s -> (x + inf < y)%Qc.

Lemma pinned_row_kbest (V k : nat) (s row : list Qc)
      (vi : list Qc * list nat) :
  2 < V -> length s = k -> length row = k * V ->
  (forall j v, j < k -> v < V ->
     nth (j * V + v) row 0%Qc
     = (nth j s 0 + (if v =? 2 then 0 else inf))%Qc) ->
  spread_ok s ->
  kbest k row vi ->
  Forall (fun f => f mod V = 2) (snd vi)
  /\ Permutation (map (fun f => f / V) (snd vi)) (seq 0 k)
  /\ fst vi = map (fun f => nth (f / V) s 0%Qc) (snd vi).
Proof.
  intros HV Hs Hrow Hval Hspread (Hv & Hl & Hnd & Hr & Hdom).
  rewrite Forall_forall in Hr. rewrite Hrow in Hr.
  assert (Hsplit : forall f, In f (snd vi) ->
            f / V < k /\ f mod V < V /\ f = f / V * V + f mod V).
  { intros f Hf. specialize (Hr f Hf).
    split; [apply Nat.Div0.div_lt_upper_bound; lia|].
    split; [apply Nat.mod_upper_bound; lia|].
    pose proof (Nat.div_mod_eq f V). lia. }
  assert (Htok : forall f, In f (snd vi) -> f mod V = 2).
  { intros f Hf. destruct (Nat.eq_dec (f mod V) 2) as [E|Hne]; [exact E|].
    exfalso.
    set (E := map (fun j => j * V + 2) (seq 0 k)).
    assert (HndE : NoDup E).
    { apply NoDup_map_inj_in; [|apply seq_NoDup].
      intros x y _ _ Hxy. nia. }
    assert (HfE : ~ In f E).
    { intros Hin. apply in_map_iff in Hin as (j & <- & _).
      apply Hne. rewrite Nat.add_comm, Nat.Div0.mod_add.
      apply Nat.mod_small. lia. }
    destruct (incl_or_missing E (snd vi)) as [Hincl|(e & He & Hne')].
    { assert (Hlen : length (f :: E) <= length (snd vi)).
      { apply NoDup_incl_length; [now constructor|].
        intros x [<-|Hx]; auto. }
      simpl in Hlen. unfold E in Hlen.
      rewrite length_map, length_seq in Hlen. lia. }
    apply in_map_iff in He as (j & <- & Hj). apply in_seq in Hj.
    destruct (Hsplit f Hf) as (Hanc & Htk & Hfeq).
    assert (Hle : (nth (j * V + 2) row 0 <= nth f row 0)%Qc).
    { apply Hdom; [exact Hf| |exact Hne']. rewrite Hrow. nia. }
    rewrite Hfeq in Hle.
    rewrite (Hval j 2), (Hval (f / V) (f mod V)) in Hle by lia.
    destruct (Nat.eqb_spec (f mod V) 2) as [?|_]; [contradiction|].
    simpl in Hle. rewrite Qcplus_0_r in Hle.
    assert (Hlt : (nth (f / V) s 0 + inf < nth j s 0)%Qc).
    { apply Hspread; apply nth_In; lia. }
    exact (Qclt_not_le _ _ Hlt Hle). }
  split; [now apply Forall_forall|]. split.
  - apply nodup_bounded_perm.
    + apply NoDup_map_inj_in; [|exact Hnd].
      intros x y Hx Hy Hxy.
      destruct (Hsplit x Hx) as (_ & _ & Ex).
      destruct (Hsplit y Hy) as (_ & _ & Ey).
      rewrite Ex, Ey, Hxy, (Htok x Hx), (Htok y Hy). reflexivity.
    + now rewrite length_map.
    + apply Forall_forall. intros a Ha.
      apply in_map_iff in Ha as (f & <- & Hf). now apply Hsplit.
  - rewrite Hv. apply map_ext_in. intros f Hf.
    destruct (Hsplit f Hf) as (Hanc & _ & Hfeq).
    rewrite Hfeq at 1. rewrite (Htok f Hf).
    rewrite (Hval (f / V) 2) by lia. simpl. apply Qcplus_0_r.
Qed.

(** *** The full loop from a state in which every slot has finished *)

(** The hypotheses of sample [b] at step [t]: running score and tokens so
    far, slot by slot. *)
Definition hyp_list (t k : nat) (st : loop_state) (b : nat)
  : list (Qc * list nat) :=
  map (fun j => (nth j (nth b (ls_nll st) []) 0%Qc,
                 firstn t (column (ls_beam st) b j)))
      (seq 0 k).

Lemma hyp_list_length (t k : nat) (st : loop_state) (b : nat) :
  length (hyp_list t k st b) = k.
Proof. unfold hyp_list. now rewrite length_map, length_seq. Qed.

Lemma hyp_list_nth (t k : nat) (st : loop_state) (b j : nat)
      (d : Qc * list nat) :
  j < k ->
  nth j (hyp_list t k st b) d
  = (nth j (nth b (ls_nll st) []) 0%Qc, firstn t (column (ls_beam st) b j)).
Proof.
  intros Hj. unfold hyp_list.
  rewrite (nth_map_lt _ _ _ 0) by (now rewrite length_seq).
  now rewrite seq_nth.
Qed.

Lemma hyp_list_fst (t k : nat) (st : loop_state) (b : nat) :
  length (nth b (ls_nll st) []) = k ->
  map fst (hyp_list t k st b) = nth b (ls_nll st) [].
Proof.
  intros Hl. unfold hyp_list. rewrite map_map. simpl.
  rewrite <- Hl. apply map_nth_seq.
Qed.

Lemma firstn_column (t : nat) (beam : beam_t) (b j : nat) :
  firstn t (column beam b j) = column (firstn t beam) b j.
Proof. unfold column. apply firstn_map. Qed.

Lemma column_nth (beam : beam_t) (b j r : nat) :
  r < length beam ->
  nth r (column beam b j) 0 = nth j (nth b (nth r beam []) []) 0.
Proof. intros Hr. unfold column. now rewrite (nth_map_lt _ _ _ []). Qed.

Lemma column_length (beam : beam_t) (b j : nat) :
  length (column beam b j) = length beam.
Proof. unfold column. apply length_map. Qed.

Section FullLoopFacts.

Context `{TopK}.

Variable decs : list Decoder.
Variable vocab : Vocab.
Variables k max_len B : nat.
Variable suppress_unk : bool.

Let V := n_vocab vocab.

Hypothesis HB : 0 < B.
Hypothesis HV : 2 < V.
Hypothesis Hk : 0 < k.
Hypothesis HkV : k <= V.
Hypothesis Hdecs : decs <> [].
Hypothesis Hdok : Forall (decoder_ok V) decs.
Hypothesis Hunk : suppress_unk = true -> unk vocab < V.

Variable t0 : nat.
Variable st0 : loop_state.

Hypothesis Ht0 : 0 < t0.
Hypothesis Hspread : forall b, b < B -> spread_ok (nth b (ls_nll st0) []).
Hypothesis Hshape0 : shape2 B k (ls_nll st0).

(** A state of the full loop at step [t >= t0]: every slot still holds the
    end-of-sequence token, the hypotheses of [st0] are all there, in some
    order, and the rows written since [t0] hold that token only. *)
Record rel (t : nat) (s : loop_state) : Prop := {
  rel_inv : inv decs k max_len B t s;
  rel_fin : Forall (fun tok => tok = 2) (ls_idxs s);
  rel_hyps : forall b, b < B ->
      Permutation (hyp_list t0 k s b) (hyp_list t0 k st0 b);
  rel_eos : forall r b j, t0 <= r < t -> b < B -> j < k ->
      nth j (nth b (nth r (ls_beam s) []) []) 0 = 2
}.

Lemma width_k (t : nat) : 0 < t -> width k t = k.
Proof. intros Ht. unfold width. destruct (Nat.eqb_spec t 0); [lia|reflexivity]. Qed.

Lemma rel_spread (t : nat) (s : loop_state) (b : nat) :
  rel t s -> t0 <= t -> b < B -> spread_ok (nth b (ls_nll s) []).
Proof.
  intros Hrel Ht Hb.
  pose proof (inv_nll _ _ _ _ _ _ (rel_inv _ _ Hrel)) as Hn.
  rewrite width_k in Hn by lia.
  pose proof (Permutation_map fst (rel_hyps _ _ Hrel b Hb)) as Hp.
  rewrite !hyp_list_fst in Hp
    by (apply (shape2_row B k); assumption).
  intros x y Hx Hy. apply (Hspread b Hb).
  - now apply (Permutation_in _ Hp).
  - now apply (Permutation_in _ Hp).
Qed.

Lemma all_fin_positions (t : nat) (s : loop_state) (i : nat) :
  rel t s -> 0 < t -> i < B * k -> In i (nonzero_eq 2 (ls_idxs s)).
Proof.
  intros Hrel Ht Hi. apply nonzero_eq_spec.
  pose proof (inv_idxs _ _ _ _ _ _ (rel_inv _ _ Hrel)) as Hl.
  rewrite width_k in Hl by exact Ht.
  split; [lia|].
  pose proof (rel_fin _ _ Hrel) as Hf. rewrite Forall_forall in Hf.
  apply Hf, nth_In. lia.
Qed.

Lemma rel_step (t : nat) (s : loop_state) :
  rel t s -> t0 <= t -> t < max_len ->
  exists s',
    step_no_break decs vocab k suppress_unk B t s = Ok s'
    /\ rel (S t) s'.
Proof.
  intros Hrel Ht Hlt.
  pose proof (rel_inv _ _ Hrel) as Hinv.
  assert (Htpos : 0 < t) by lia.
  destruct (step_no_break_ok decs vocab k max_len B suppress_unk HB HV Hk HkV
              Hdecs Hdok Hunk t s Hinv Hlt)
    as (ctx_dicts & h_ts & log_p & tops & Hlp & Htops & Hstep & Hinv').
  fold V in Hlp, Hstep, Hinv'.
  rewrite (width_k t Htpos) in Hlp, Htops.
  set (fin := nonzero_eq 2 (ls_idxs s)) in *.
  assert (HV0 : 0 < V) by lia.
  assert (Hfin : forall i, i < B * k -> In i fin)
    by (intros i Hi; now apply (all_fin_positions t)).
  assert (Hlp' : step_log_p fin log_p = pinned fin log_p).
  { unfold step_log_p. destruct (Nat.eqb_spec (length fin) 0) as [Hz|_];
      [|reflexivity].
    assert (Hin : In 0 fin) by (apply Hfin; nia).
    destruct fin; [contradiction|discriminate]. }
  rewrite Hlp' in Htops.
  pose proof (inv_nll _ _ _ _ _ _ Hinv) as Hn. rewrite width_k in Hn by exact Htpos.
  assert (Hpin : shape2 (B * k) V (pinned fin log_p))
    by (now apply pinned_shape).
  pose proof (scores_of_shape B V k _ _ Hn Hpin) as Hsc.
  pose proof (flat_shape V k B k _ tops Hsc Htops) as Hflat.
  (* what topk selected, sample by sample *)
  assert (Hsel : forall b, b < B ->
            Forall (fun f => f mod V = 2) (nth b (map snd tops) [])
            /\ Permutation (map (fun f => f / V) (nth b (map snd tops) []))
                           (seq 0 k)
            /\ nth b (map fst tops) []
               = map (fun f => nth (f / V) (nth b (ls_nll s) []) 0%Qc)
                     (nth b (map snd tops) [])).
  { intros b Hb.
    pose proof (tops_kbest V k B k _ tops HV0 Hsc Htops b Hb) as Hkb.
    rewrite (flat_nth tops b).
    replace (nth b (map fst tops) []) with (fst (nth b tops ([], [])))
      by (symmetry; apply (map_nth fst tops ([], []))).
    apply (pinned_row_kbest V k (nth b (ls_nll s) [])
                            (nth b (scores_of k B (ls_nll s)
                                              (pinned fin log_p)) [])).
    - exact HV.
    - now apply (shape2_row B k).
    - now apply (shape2_row B (k * V)).
    - intros j v Hj Hv.
      rewrite (scores_of_nth B V k _ _ b j v Hn Hpin Hb Hj Hv).
      f_equal. apply (pinned_row_fin (B * k) V); try assumption.
      + apply Hfin. nia.
      + nia.
    - now apply (rel_spread t).
    - exact Hkb. }
  exists (selected V k B t s ctx_dicts h_ts tops).
  split; [exact Hstep|].
  assert (Hanc : forall b j, b < B -> j < k ->
            nth j (nth b (map snd tops) []) 0 / V < k).
  { intros b j Hb Hj.
    pose proof (flat_bound V k B k _ tops HV0 Hsc Htops b j Hb Hj).
    apply Nat.Div0.div_lt_upper_bound. lia. }
  assert (Hrowlen : forall b, b < B -> length (nth b (map snd tops) []) = k)
    by (intros b Hb; now apply (shape2_row B k)).
  assert (Htok2 : forall b j, b < B -> j < k ->
            nth j (nth b (map snd tops) []) 0 mod V = 2).
  { intros b j Hb Hj. destruct (Hsel b Hb) as (Hall & _).
    rewrite Forall_forall in Hall. apply Hall, nth_In.
    now rewrite Hrowlen. }
  destruct (inv_beam _ _ _ _ _ _ Hinv) as [Hbl Hbr].
  constructor.
  - exact Hinv'.
  - apply (Forall_of_nth _ _ 0). intros i Hi.
    rewrite (inv_idxs _ _ _ _ _ _ Hinv') in Hi. unfold width in Hi. simpl in Hi.
    rewrite (selected_idxs V k B k t s ctx_dicts h_ts _ tops HV0 Hsc Htops
                           i Hi).
    apply Htok2.
    + apply Nat.Div0.div_lt_upper_bound. lia.
    + apply Nat.mod_upper_bound. lia.
  - intros b Hb.
    rewrite <- (rel_hyps _ _ Hrel b Hb).
    destruct (Hsel b Hb) as (_ & Hperm & Hvals).
    assert (Heq : hyp_list t0 k (selected V k B t s ctx_dicts h_ts tops) b
                  = map (fun i => nth i (hyp_list t0 k s b) (0%Qc, []))
                        (map (fun f => f / V) (nth b (map snd tops) []))).
    { apply (nth_ext _ _ (0%Qc, []) (0%Qc, [])).
      - now rewrite hyp_list_length, !length_map, Hrowlen.
      - intros j Hj. rewrite hyp_list_length in Hj.
        rewrite hyp_list_nth by exact Hj.
        rewrite (nth_map_lt _ _ _ 0) by (now rewrite length_map, Hrowlen).
        rewrite (nth_map_lt _ _ _ 0) by (now rewrite Hrowlen).
        rewrite hyp_list_nth by (now apply Hanc).
        f_equal.
        + simpl ls_nll. rewrite Hvals.
          now rewrite (nth_map_lt _ _ _ 0) by (now rewrite Hrowlen).
        + rewrite !firstn_column.
          apply (nth_ext _ _ 0 0).
          * rewrite !column_length, !length_firstn.
            destruct (inv_beam _ _ _ _ _ _ Hinv') as [Hbl' _].
            now rewrite Hbl', Hbl.
          * intros r Hr. rewrite column_length, length_firstn in Hr.
            rewrite !column_nth by (rewrite length_firstn; lia).
            rewrite !nth_firstn.
            destruct (Nat.ltb_spec r t0) as [Hrt|?]; [|lia].
            apply (selected_beam_prefix V k B k t s ctx_dicts h_ts _ tops
                                        HV0 Hsc Htops r b j);
              try assumption; try lia.
            apply Forall_firstn_of. exact Hbr. }
    rewrite Heq. apply map_nth_perm. now rewrite hyp_list_length.
  - intros r b j Hr Hb Hj.
    destruct (Nat.eq_dec r t) as [->|Hne].
    + rewrite (selected_beam_row V k B t s ctx_dicts h_ts tops HV0 [])
        by lia.
      destruct Hflat as [Hfl _].
      rewrite nth2_map2 by (rewrite ?Hrowlen; lia).
      now apply Htok2.
    + rewrite (selected_beam_prefix V k B k t s ctx_dicts h_ts _ tops
                                    HV0 Hsc Htops r b j);
        try assumption; try lia.
      * apply (rel_eos _ _ Hrel); [lia|exact Hb|now apply Hanc].
      * apply Forall_firstn_of. exact Hbr.
Qed.

Lemma rel_full_loop (n : nat) :
  forall t s,
    rel t s -> t0 <= t -> t + n = max_len ->
    exists s_f,
      full_loop decs vocab k suppress_unk B n t s = Ok s_f
      /\ rel max_len s_f.
Proof.
  induction n as [|n IH]; intros t s Hrel Ht Hn; simpl.
  - exists s. split; [reflexivity|].
    replace max_len with t by lia. exact Hrel.
  - destruct (rel_step t s Hrel Ht ltac:(lia)) as (s' & -> & Hrel').
    simpl. apply (IH (S t) s' Hrel'); lia.
Qed.

End FullLoopFacts.

(** *** The best hypothesis, read off the hypotheses of a sample *)

Definition penalty `{FloatPow} (lp_alpha l : Qc) : Qc :=
  if Qcltb 0%Qc lp_alpha
  then (fpow (qc 5 + l) lp_alpha / fpow (qc 6) lp_alpha)%Qc
  else l.

(** The normalised score of a hypothesis: its running score over the penalty
    of its content length. *)
Definition prefix_norm `{FloatPow} (lp_alpha : Qc) (p : Qc * list nat) : Qc :=
  (fst p
   / penalty lp_alpha
             (float (Nat.max 1 (length (filter (fun x => 2 <? x) (snd p))))))%Qc.

Definition best_in `{FloatPow} (lp_alpha : Qc) (L : list (Qc * list nat))
           (p : Qc * list nat) : Prop :=
  In p L
  /\ forall q, In q L -> (prefix_norm lp_alpha q <= prefix_norm lp_alpha p)%Qc.

Definition sent_of_prefix (vocab : Vocab) (c : list nat) : string :=
  String.concat " "%string (map (word vocab) (take_until 2 c)).

Lemma length_penalty_map `{FloatPow} (lp_alpha : Qc) (lp : tensor2) :
  length_penalty lp_alpha lp = map (map (penalty lp_alpha)) lp.
Proof.
  unfold length_penalty, penalty. destruct (Qcltb 0 lp_alpha); [reflexivity|].
  symmetry. rewrite <- (map_id lp) at 2. apply map_ext. intros row.
  apply map_id.
Qed.

Lemma take_until_app (e : nat) (c r : list nat) :
  In e c -> take_until e (c ++ r) = take_until e c.
Proof.
  induction c as [|x c IH]; simpl; intros Hin; [contradiction|].
  destruct (Nat.eqb_spec x e) as [_|Hne]; [reflexivity|].
  destruct Hin as [?|Hin]; [congruence|]. now rewrite IH.
Qed.

Lemma firstn_upd_ge {A : Type} (n i : nat) (v : A) (l : list A) :
  n <= i -> firstn n (upd i v l) = firstn n l.
Proof.
  revert n i. induction l as [|a l IH]; intros [|n] [|i] Hle; simpl;
    first [reflexivity | lia | f_equal; apply IH; lia].
Qed.

Lemma filter_none {A : Type} (f : A -> bool) (l : list A) :
  (forall x, In x l -> f x = false) -> filter f l = [].
Proof.
  induction l as [|a l IH]; simpl; intros Hall; [reflexivity|].
  rewrite (Hall a (or_introl eq_refl)). apply IH.
  intros x Hx. apply Hall. now right.
Qed.

Lemma zero_nth3 (x : beam_t) (r b j : nat) :
  Forall (Forall (Forall (fun v => v = 0))) x ->
  nth j (nth b (nth r x []) []) 0 = 0.
Proof.
  intros Hz.
  destruct (nth_in_or_default r x []) as [Hr| ->];
    [|destruct b, j; reflexivity].
  rewrite Forall_forall in Hz. specialize (Hz _ Hr).
  destruct (nth_in_or_default b (nth r x []) []) as [Hb| ->];
    [|destruct j; reflexivity].
  rewrite Forall_forall in Hz. specialize (Hz _ Hb).
  destruct (nth_in_or_default j (nth b (nth r x []) []) 0) as [Hj| ->];
    [|reflexivity].
  rewrite Forall_forall in Hz. now apply Hz.
Qed.

Lemma force_eos_entry (e L B k : nat) (beam : beam_t) (r b j : nat) :
  shape3 L B k beam -> r < L -> b < B -> j < k ->
  nth j (nth b (nth r (force_eos e L beam) []) []) 0
  = if r =? L - 1 then e else nth j (nth b (nth r beam []) []) 0.
Proof.
  intros [Hl Hrows] Hr Hb Hj. unfold force_eos.
  destruct (Nat.eqb_spec r (L - 1)) as [->|Hne].
  - rewrite nth_upd_eq by lia.
    assert (Hrow : shape2 B k (nth (L - 1) beam [])).
    { rewrite Forall_forall in Hrows. apply Hrows, nth_In. lia. }
    rewrite nth2_map2; [reflexivity|destruct Hrow; lia|].
    now rewrite (shape2_row B k _ b Hrow Hb).
  - rewrite nth_upd_neq by lia. reflexivity.
Qed.

Section FinalFacts.

Context `{TopK} `{FloatPow}.

Variable vocab : Vocab.
Variables k max_len B : nat.
Variable lp_alpha : Qc.
Variable t0 : nat.

Hypothesis Hk : 0 < k.
Hypothesis Ht0 : t0 < max_len.
Hypothesis Heos : eos vocab = 2.

(** Past row [t0] the beam of [s] holds no content token. *)
Definition no_content_after (s : loop_state) : Prop :=
  forall r b j, t0 <= r -> nth j (nth b (nth r (ls_beam s) []) []) 0 <= 2.

Lemma forced_column_prefix (s : loop_state) (b j : nat) :
  firstn t0 (column (force_eos (eos vocab) max_len (ls_beam s)) b j)
  = firstn t0 (column (ls_beam s) b j).
Proof.
  rewrite !firstn_column. unfold force_eos.
  rewrite firstn_upd_ge by lia. reflexivity.
Qed.

Lemma forced_column_content (s : loop_state) (b j : nat) :
  post k max_len B s -> no_content_after s -> b < B -> j < k ->
  filter (fun x => 2 <? x)
         (column (force_eos (eos vocab) max_len (ls_beam s)) b j)
  = filter (fun x => 2 <? x) (firstn t0 (column (ls_beam s) b j)).
Proof.
  intros (_ & Hb3 & _) Hnc Hb Hj.
  set (col := column (force_eos (eos vocab) max_len (ls_beam s)) b j).
  rewrite <- (firstn_skipn t0 col), filter_app.
  unfold col at 1. rewrite forced_column_prefix.
  assert (Hrest : filter (fun x => 2 <? x) (skipn t0 col) = []).
  { apply filter_none.
    intros x Hx. destruct (In_nth _ _ 0 Hx) as (i & Hi & <-).
    rewrite length_skipn in Hi. unfold col in Hi.
    rewrite column_length in Hi.
    pose proof (force_eos_shape (eos vocab) max_len B k _ Hb3) as [Hfl _].
    rewrite nth_skipn. unfold col. rewrite column_nth by lia.
    rewrite (force_eos_entry _ max_len B k _ _ b j Hb3) by lia.
    apply Nat.ltb_ge.
    destruct (t0 + i =? max_len - 1); [rewrite Heos; lia|].
    apply Hnc. lia. }
  rewrite Hrest. apply app_nil_r.
Qed.

(** The scores line 169 leaves in [nll]. *)
Definition normalised (s : loop_state) : tensor2 :=
  zip_with (zip_with Qcdiv) (ls_nll s)
           (divisors lp_alpha B k
                     (force_eos (eos vocab) max_len (ls_beam s))).

Lemma normalised_nth (s : loop_state) (b i : nat) :
  post k max_len B s -> no_content_after s -> b < B -> i < k ->
  nth i (nth b (normalised s) []) 0%Qc
  = prefix_norm lp_alpha (nth i (hyp_list t0 k s b) (0%Qc, [])).
Proof.
  intros Hpost Hnc Hb Hi. pose proof Hpost as (Hn & Hb3 & Hview).
  set (beam := force_eos (eos vocab) max_len (ls_beam s)).
  assert (Hdiv : shape2 B k (divisors lp_alpha B k beam)).
  { unfold divisors. apply length_penalty_shape, float_shape, lengths_shape. }
  unfold normalised. fold beam.
  rewrite (nth_zip_with _ _ _ b [] [] [])
    by (destruct Hn, Hdiv; lia).
  rewrite (nth_zip_with _ _ _ i 0%Qc 0%Qc 0%Qc).
  2:{ now rewrite (shape2_row B k _ b Hn Hb). }
  2:{ now rewrite (shape2_row B k _ b Hdiv Hb). }
  rewrite hyp_list_nth by exact Hi. unfold prefix_norm. cbn [fst snd].
  f_equal. unfold divisors. rewrite length_penalty_map.
  pose proof (lengths_shape B k beam) as Hls.
  rewrite (nth_map_lt _ _ _ [])
    by (rewrite length_map; destruct Hls; lia).
  rewrite (nth_map_lt _ _ _ 0%Qc).
  2:{ rewrite (nth_map_lt _ _ _ []) by (destruct Hls; lia).
      now rewrite length_map, (shape2_row B k _ b Hls Hb). }
  f_equal.
  rewrite (nth_map_lt _ _ _ []) by (destruct Hls; lia).
  rewrite (nth_map_lt _ _ _ 0)
    by (now rewrite (shape2_row B k _ b Hls Hb)).
  rewrite (lengths_nth B k beam b i Hb Hi). unfold beam.
  now rewrite (forced_column_content s b i).
Qed.

Lemma finalize_best (s : loop_state) :
  post k max_len B s -> no_content_after s ->
  exists hyps,
    finalize vocab k max_len lp_alpha B s
    = Ok (force_eos (eos vocab) max_len (ls_beam s), normalised s, hyps)
    /\ length hyps = B
    /\ forall b, b < B ->
         exists j,
           j < k
           /\ nth b hyps []
              = column (force_eos (eos vocab) max_len (ls_beam s)) b j
           /\ best_in lp_alpha (hyp_list t0 k s b)
                      (nth j (hyp_list t0 k s b) (0%Qc, [])).
Proof.
  intros Hpost Hnc.
  destruct (finalize_ok vocab k max_len B lp_alpha Hk ltac:(lia) s Hpost)
    as (tops & Htops & Hfin & Hlen & Hnorm).
  fold (normalised s) in Htops, Hfin, Hnorm.
  exists (best_hyps B (force_eos (eos vocab) max_len (ls_beam s)) tops).
  split; [exact Hfin|]. split; [exact Hlen|].
  intros b Hb.
  assert (Hltops : length tops = B).
  { destruct Hnorm as [Hl _]. rewrite <- Hl. symmetry.
    eapply Forall2_length; eauto. }
  assert (Hkb : kbest 1 (nth b (normalised s) []) (nth b tops ([], []))).
  { apply Forall2_nth; [exact Htops|]. destruct Hnorm; lia. }
  destruct Hkb as (_ & Hl1 & _ & Hr1 & Hdom).
  destruct (snd (nth b tops ([], []))) as [|j [|j' rest]] eqn:Esel;
    simpl in Hl1; try lia.
  assert (Hrowlen : length (nth b (normalised s) []) = k)
    by (now apply (shape2_row B k)).
  assert (Hj : j < k).
  { rewrite <- Hrowlen. rewrite Forall_forall in Hr1. apply Hr1. now left. }
  exists j. split; [exact Hj|]. split.
  { unfold best_hyps.
    rewrite (nth_map_lt _ _ _ (0, 0))
      by (rewrite length_combine, length_seq, length_map; lia).
    rewrite combine_nth by (now rewrite length_seq, length_map).
    simpl. rewrite seq_nth by exact Hb. simpl.
    rewrite (nth_map_lt _ _ _ ([], [])) by lia.
    now rewrite Esel. }
  split.
  - apply nth_In. now rewrite hyp_list_length.
  - intros q Hq. destruct (In_nth _ _ (0%Qc, []) Hq) as (i & Hi & <-).
    rewrite hyp_list_length in Hi.
    rewrite <- !normalised_nth by assumption.
    destruct (Nat.eq_dec i j) as [->|Hne]; [apply Qcle_refl|].
    apply Hdom; [now left|now rewrite Hrowlen|].
    intros [E|[]]. congruence.
Qed.

Lemma forced_sentence (s : loop_state) (b j : nat) :
  In 2 (firstn t0 (column (ls_beam s) b j)) ->
  idxs_to_sent vocab (column (force_eos (eos vocab) max_len (ls_beam s)) b j)
  = sent_of_prefix vocab (firstn t0 (column (ls_beam s) b j)).
Proof.
  intros Hin. unfold idxs_to_sent, sent_of_prefix.
  set (col := column (force_eos (eos vocab) max_len (ls_beam s)) b j).
  assert (Hpre : firstn t0 col = firstn t0 (column (ls_beam s) b j))
    by apply forced_column_prefix.
  rewrite Heos, <- (firstn_skipn t0 col), Hpre.
  now rewrite take_until_app.
Qed.

End FinalFacts.

(** *** The two loops compared *)

Section EarlyExit.

Context `{TopK} `{FloatPow}.

Variable decs : list Decoder.
Variable vocab : Vocab.
Variables k max_len B : nat.
Variable suppress_unk : bool.
Variable lp_alpha : Qc.

Let V := n_vocab vocab.

Hypothesis HB : 0 < B.
Hypothesis HV : 2 < V.
Hypothesis Hk : 0 < k.
Hypothesis HkV : k <= V.
Hypothesis Hdecs : decs <> [].
Hypothesis Hdok : Forall (decoder_ok V) decs.
Hypothesis Hunk : suppress_unk = true -> unk vocab < V.
Hypothesis Heos : eos vocab = 2.

(** Within every sample the running scores differ by less than 1000. *)
Definition spread_all (s : loop_state) : Prop :=
  forall b, b < B -> spread_ok (nth b (ls_nll s) []).

(** Within every sample no two slots have the same normalised score. *)
Definition distinct_scores (s : loop_state) : Prop :=
  forall b j j', b < B -> j < k -> j' < k -> j <> j' ->
    nth j (nth b (normalised vocab k max_len B lp_alpha s) []) 0%Qc
    <> nth j' (nth b (normalised vocab k max_len B lp_alpha s) []) 0%Qc.

(** The decoded sentences of a batch, from the result of [finalize]. *)
Definition sentences (r : res (beam_t * tensor2 * list (list nat)))
  : res (list string) :=
  match r with
  | Ok (_, _, hyps) => Ok (list_of_idxs_to_sents vocab hyps)
  | Err e => Err e
  end.

Lemma all_finished_tokens (t : nat) (s : loop_state) :
  inv decs k max_len B t s -> 0 < t -> all_finished k B s ->
  Forall (fun tok => tok = 2) (ls_idxs s).
Proof.
  intros Hinv Ht Hall. unfold all_finished, nonzero_eq in Hall.
  pose proof (inv_idxs _ _ _ _ _ _ Hinv) as Hl.
  unfold width in Hl. destruct (Nat.eqb_spec t 0) as [?|_]; [lia|].
  assert (Hf : forallb (fun i => nth i (ls_idxs s) 0 =? 2)
                       (seq 0 (length (ls_idxs s))) = true).
  { apply filter_length_forallb. rewrite Hall, length_seq. lia. }
  rewrite forallb_forall in Hf.
  apply (Forall_of_nth _ _ 0). intros i Hi.
  apply Nat.eqb_eq, Hf, in_seq. lia.
Qed.

Lemma inv_no_content (t : nat) (s : loop_state) :
  inv decs k max_len B t s -> no_content_after t s.
Proof.
  intros Hinv r b j Hr.
  replace r with (t + (r - t)) by lia. rewrite <- nth_skipn.
  rewrite (zero_nth3 _ _ _ _ (inv_zero _ _ _ _ _ _ Hinv)). lia.
Qed.

Lemma finished_prefix (t : nat) (s : loop_state) (b j : nat) :
  inv decs k max_len B t s -> 0 < t -> t <= max_len ->
  Forall (fun tok => tok = 2) (ls_idxs s) ->
  b < B -> j < k ->
  In 2 (firstn t (column (ls_beam s) b j)).
Proof.
  intros Hinv Ht Hle Hfin Hb Hj.
  destruct (inv_beam _ _ _ _ _ _ Hinv) as [Hbl Hbr].
  assert (Hrow : shape2 B k (nth (t - 1) (ls_beam s) [])).
  { rewrite Forall_forall in Hbr. apply Hbr, nth_In. lia. }
  assert (Hval : nth (t - 1) (firstn t (column (ls_beam s) b j)) 0 = 2).
  { rewrite nth_firstn. destruct (Nat.ltb_spec (t - 1) t) as [_|?]; [|lia].
    rewrite column_nth by lia.
    rewrite <- (nth_concat_uniform k _ b j 0); [|apply Hrow|exact Hj].
    rewrite <- (inv_link _ _ _ _ _ _ Hinv Ht).
    rewrite Forall_forall in Hfin. apply Hfin, nth_In.
    rewrite (inv_idxs _ _ _ _ _ _ Hinv). unfold width.
    destruct (Nat.eqb_spec t 0); [lia|nia]. }
  rewrite <- Hval. apply nth_In.
  rewrite length_firstn, column_length. lia.
Qed.

Lemma early_exit_core (t0 : nat) (st0 : loop_state) (n : nat) :
  inv decs k max_len B t0 st0 -> 0 < t0 -> t0 + n = max_len -> 0 < n ->
  all_finished k B st0 -> spread_all st0 -> distinct_scores st0 ->
  exists s_f sents,
    full_loop decs vocab k suppress_unk B n t0 st0 = Ok s_f
    /\ sentences (finalize vocab k max_len lp_alpha B st0) = Ok sents
    /\ sentences (finalize vocab k max_len lp_alpha B s_f) = Ok sents.
Proof.
  intros Hinv Ht0 Hn Hnpos Hall Hspread Hdist.
  pose proof (all_finished_tokens t0 st0 Hinv Ht0 Hall) as Hfin.
  assert (Hshape0 : shape2 B k (ls_nll st0)).
  { pose proof (inv_nll _ _ _ _ _ _ Hinv) as Hs. unfold width in Hs.
    destruct (Nat.eqb_spec t0 0); [lia|exact Hs]. }
  assert (Hrel0 : rel decs k max_len B t0 st0 t0 st0).
  { constructor; [exact Hinv|exact Hfin|reflexivity|intros; lia]. }
  destruct (rel_full_loop decs vocab k max_len B suppress_unk HB HV Hk HkV
              Hdecs Hdok Hunk t0 st0 Ht0 Hspread Hshape0 n t0 st0 Hrel0
              (le_n _) Hn) as (s_f & Hfull & Hrelf).
  pose proof (rel_inv _ _ _ _ _ _ _ _ Hrelf) as Hinvf.
  assert (Hpost0 : post k max_len B st0).
  { apply (inv_post decs vocab k max_len B suppress_unk HB HV Hk HkV Hunk
                    t0 st0 Hinv). now left. }
  assert (Hpostf : post k max_len B s_f).
  { apply (inv_post decs vocab k max_len B suppress_unk HB HV Hk HkV Hunk
                    max_len s_f Hinvf). left. lia. }
  assert (Hnc0 : no_content_after t0 st0) by (now apply inv_no_content).
  assert (Hncf : no_content_after t0 s_f).
  { intros r b j Hr.
    destruct (Nat.lt_ge_cases r max_len) as [Hlt|Hge].
    - destruct (Nat.lt_ge_cases b B) as [Hb|Hb].
      + destruct (Nat.lt_ge_cases j k) as [Hj|Hj].
        * rewrite (rel_eos _ _ _ _ _ _ _ _ Hrelf r b j); lia.
        * rewrite nth_overflow; [lia|].
          destruct (inv_beam _ _ _ _ _ _ Hinvf) as [Hbl Hbr].
          rewrite Forall_forall in Hbr.
          rewrite (shape2_row B k (nth r (ls_beam s_f) []) b); try lia.
          apply Hbr, nth_In. lia.
      + destruct (inv_beam _ _ _ _ _ _ Hinvf) as [Hbl Hbr].
        rewrite Forall_forall in Hbr.
        assert (Hrow : shape2 B k (nth r (ls_beam s_f) []))
          by (apply Hbr, nth_In; lia).
        rewrite (nth_overflow (nth r (ls_beam s_f) []))
          by (destruct Hrow; lia).
        destruct j; simpl; lia.
    - apply (inv_no_content max_len s_f Hinvf). exact Hge. }
  assert (Ht0lt : t0 < max_len) by lia.
  destruct (finalize_best vocab k max_len B lp_alpha t0 Hk Ht0lt Heos st0
              Hpost0 Hnc0) as (hyps0 & Hfz0 & Hl0 & Hbest0).
  destruct (finalize_best vocab k max_len B lp_alpha t0 Hk Ht0lt Heos s_f
              Hpostf Hncf) as (hypsf & Hfzf & Hlf & Hbestf).
  exists s_f, (list_of_idxs_to_sents vocab hyps0).
  split; [exact Hfull|]. rewrite Hfz0, Hfzf. simpl.
  split; [reflexivity|]. f_equal.
  unfold list_of_idxs_to_sents.
  apply (nth_ext _ _ ""%string ""%string).
  { now rewrite !length_map, Hl0, Hlf. }
  intros b Hb. rewrite length_map, Hlf in Hb.
  rewrite !(nth_map_lt _ _ _ []) by lia.
  destruct (Hbest0 b Hb) as (j0 & Hj0 & Hh0 & Hin0 & Hmax0).
  destruct (Hbestf b Hb) as (jf & Hjf & Hhf & Hinf & Hmaxf).
  rewrite Hh0, Hhf.
  (* the best hypothesis of the full loop is one of the early ones *)
  pose proof (rel_hyps _ _ _ _ _ _ _ _ Hrelf b Hb) as Hperm.
  assert (Hin : In (nth jf (hyp_list t0 k s_f b) (0%Qc, []))
                   (hyp_list t0 k st0 b))
    by (apply (Permutation_in _ Hperm); exact Hinf).
  destruct (In_nth _ _ (0%Qc, []) Hin) as (j' & Hj' & Heq).
  rewrite hyp_list_length in Hj'.
  assert (Hsame : j' = j0).
  { destruct (Nat.eq_dec j' j0) as [E|Hne]; [exact E|]. exfalso.
    apply (Hdist b j' j0 Hb Hj' Hj0 Hne).
    rewrite !(normalised_nth vocab k max_len B lp_alpha t0 Hk Ht0lt Heos)
      by assumption.
    apply Qcle_antisym.
    - apply Hmax0. apply nth_In. now rewrite hyp_list_length.
    - rewrite Heq. apply Hmaxf.
      apply (Permutation_in _ (Permutation_sym Hperm)).
      apply nth_In. now rewrite hyp_list_length. }
  subst j'.
  rewrite !hyp_list_nth in Heq by assumption.
  injection Heq as _ Hcols.
  rewrite (forced_sentence vocab k max_len t0 Hk Ht0lt Heos st0 b j0).
  2:{ apply (finished_prefix t0 st0 b j0 Hinv Ht0); auto; lia. }
  rewrite (forced_sentence vocab k max_len t0 Hk Ht0lt Heos s_f b jf).
  2:{ rewrite <- Hcols.
      apply (finished_prefix t0 st0 b j0 Hinv Ht0); auto; lia. }
  now rewrite Hcols.
Qed.

End EarlyExit.

(** C5, as the code has it.  When every slot of the batch holds the
    end-of-sequence token the step breaks, leaving beam and scores as they
    are.  If the loop was left by that break (not at step 0), and at that
    point the running scores of every sample differ by less than 1000 and no
    two slots of a sample have the same normalised score, then the loop
    without the break also completes, and both give the same sentences.
    (The vocabulary's end-of-sequence id is the 2 the code tests for.) *)
Theorem early_exit_refines `{TopK} `{FloatPow} (decs : list Decoder)
        (vocab : Vocab) (k max_len B : nat) (suppress_unk : bool)
        (lp_alpha : Qc) :
  0 < B -> 2 < n_vocab vocab -> 0 < k -> k <= n_vocab vocab ->
  decs <> [] -> Forall (decoder_ok (n_vocab vocab)) decs ->
  (suppress_unk = true -> unk vocab < n_vocab vocab) ->
  eos vocab = 2 ->
  (forall t st,
      inv decs k max_len B t st -> t < max_len -> all_finished k B st ->
      exists st_b,
        step decs vocab k suppress_unk B t st = Ok (Break st_b)
        /\ ls_beam st_b = ls_beam st
        /\ ls_nll st_b = ls_nll st)
  /\ (forall n t st st_b,
         inv decs k max_len B t st -> t + n = max_len ->
         (t = 0 -> ~ all_finished k B st) ->
         step_loop decs vocab k suppress_unk B n t st = Ok (Break st_b) ->
         spread_all B st_b ->
         distinct_scores vocab k max_len B lp_alpha st_b ->
         exists s_f sents,
           full_loop decs vocab k suppress_unk B n t st = Ok s_f
           /\ sentences vocab (finalize vocab k max_len lp_alpha B st_b)
              = Ok sents
           /\ sentences vocab (finalize vocab k max_len lp_alpha B s_f)
              = Ok sents).
Proof.
  intros HB HV Hk HkV Hdecs Hdok Hunk Heos. split.
  - intros t st Hinv Ht Hall.
    destruct (step_ok decs vocab k max_len B suppress_unk HB HV Hk HkV
                Hdecs Hdok Hunk t st Hinv Ht)
      as [(_ & ctx_dicts & h_ts & Hstep)|(Hnall & _)]; [|contradiction].
    eexists. split; [exact Hstep|]. split; reflexivity.
  - induction n as [|n IH]; intros t st st_b Hinv Hn Hfirst Hloop Hspread Hdist.
    + simpl in Hloop. discriminate.
    + simpl in Hloop.
      destruct (step_ok decs vocab k max_len B suppress_unk HB HV Hk HkV
                  Hdecs Hdok Hunk t st Hinv ltac:(lia))
        as [(Hall & ctx_dicts & h_ts & Hstep)
           |(Hnall & st' & Hstep & Hnb & Hinv')].
      * rewrite Hstep in Hloop. simpl in Hloop.
        injection Hloop as <-.
        assert (Ht : 0 < t).
        { destruct t; [exfalso; now apply Hfirst|lia]. }
        destruct (early_exit_core decs vocab k max_len B suppress_unk
                    lp_alpha HB HV Hk HkV Hdecs Hdok Hunk Heos t st (S n)
                    Hinv Ht Hn ltac:(lia) Hall Hspread Hdist)
          as (s_f & sents & Hfull & Hs0 & Hsf).
        exists s_f, sents. split; [exact Hfull|]. split; [exact Hs0|exact Hsf].
      * rewrite Hstep in Hloop. simpl in Hloop.
        destruct (IH (S t) st' st_b Hinv' ltac:(lia) ltac:(lia) Hloop
                     Hspread Hdist) as (s_f & sents & Hfull & Hs0 & Hsf).
        exists s_f, sents. split; [|split; assumption].
        simpl. rewrite Hnb. simpl. exact Hfull.
Qed.

(** *** A batch whose result the early exit changes *)

Module ExitExample.

(** Two hypotheses end at step 3: one made of padding (score -600, content
    length clamped to 1), one of three a's (score -1700, content length 3,
    normalised -566.7). *)
Definition dist (step prev : nat) : list Qc :=
  match step, prev with
  | 0, _ => Toy.row6 (-200) (-5000) (-5000) (-5000) (-500) (-5000)
  | 1, 0 => Toy.row6 (-200) (-5000) (-5000) (-5000) (-5000) (-5000)
  | 1, _ => Toy.row6 (-5000) (-5000) (-5000) (-5000) (-500) (-5000)
  | 2, 0 => Toy.row6 (-200) (-5000) (-5000) (-5000) (-5000) (-5000)
  | 2, _ => Toy.row6 (-5000) (-5000) (-5000) (-5000) (-500) (-5000)
  | 3, 0 => Toy.row6 (-5000) (-5000) 0 (-5000) (-5000) (-5000)
  | 3, _ => Toy.row6 (-5000) (-5000) (-200) (-5000) (-5000) (-5000)
  | _, _ => Toy.row6 (-1) (-1) (-1) (-1) (-1) (-1)
  end.

Definition decoder : Decoder := Toy.table_decoder 6 dist.
Definition model : Model := Toy.table_model 6 dist.
Definition batch : Batch := Toy.batch_of [[4]].

(** One sample, beam width 2, seven steps. *)
Definition st0 : loop_state :=
  init_state [decoder] 1 (fresh_storage 7 1 2) [encode model batch None]
             (get_bos model 1).

(** Two hypotheses, a and b, that both end at step 1. *)
Definition dist_ok (step prev : nat) : list Qc :=
  match prev with
  | 1 => Toy.row6 (-9) (-9) (-9) (-9) (-1) (-2)
  | _ => Toy.row6 (-9) (-9) (-1) (-9) (-9) (-9)
  end.

Definition decoder_ok : Decoder := Toy.table_decoder 6 dist_ok.
Definition model_ok : Model := Toy.table_model 6 dist_ok.

Definition st0_ok : loop_state :=
  init_state [decoder_ok] 1 (fresh_storage 4 1 2)
             [encode model_ok batch None] (get_bos model_ok 1).

End ExitExample.

(** C5 fails as stated: at step 4 both slots hold the end-of-sequence token
    and the loop breaks; the three a's win on normalised score.  Without the
    break, step 4 ranks the padding hypothesis's pinned continuations (-600
    and -1600) above the three a's (-1700), which is lost, and the padding
    hypothesis is returned. *)
Lemma early_exit_changes_sentences :
  exists st_b s_f,
    step_loop [ExitExample.decoder] Toy.vocab6 2 false 1 7 0 ExitExample.st0
    = Ok (Break st_b)
    /\ map (map (fun q => Qnum (this q))) (ls_nll st_b)
       = [[(-600)%Z; (-1700)%Z]]
    /\ full_loop [ExitExample.decoder] Toy.vocab6 2 false 1 7 0 ExitExample.st0
       = Ok s_f
    /\ sentences Toy.vocab6 (finalize Toy.vocab6 2 7 0%Qc 1 st_b)
       = Ok ["a a a"%string]
    /\ sentences Toy.vocab6 (finalize Toy.vocab6 2 7 0%Qc 1 s_f)
       = Ok ["? ? ?"%string].
Proof.
  eexists. eexists.
  split; [vm_compute; reflexivity|].
  split; [reflexivity|].
  split; [vm_compute; reflexivity|].
  split; vm_compute; reflexivity.
Qed.

Lemma exit_example_inv0 :
  inv [ExitExample.decoder_ok] 2 4 1 0 ExitExample.st0_ok.
Proof.
  apply (init_inv [ExitExample.model_ok] [ExitExample.decoder_ok] Toy.vocab6
                  None 2 4 1 false (fresh_storage 4 1 2) ExitExample.batch
                  ExitExample.model_ok).
  - apply table_call_ok; simpl; lia.
  - apply fresh_storage_ok.
  - apply table_batch_ok. simpl. lia.
  - now left.
Qed.

Lemma early_exit_refines_witness :
  exists st_b,
    step_loop [ExitExample.decoder_ok] Toy.vocab6 2 false 1 4 0
              ExitExample.st0_ok = Ok (Break st_b)
    /\ ~ all_finished 2 1 ExitExample.st0_ok
    /\ spread_all 1 st_b
    /\ distinct_scores Toy.vocab6 2 4 1 0%Qc st_b
    /\ exists s_f sents,
         full_loop [ExitExample.decoder_ok] Toy.vocab6 2 false 1 4 0
                   ExitExample.st0_ok = Ok s_f
         /\ sentences Toy.vocab6 (finalize Toy.vocab6 2 4 0%Qc 1 st_b)
            = Ok sents
         /\ sentences Toy.vocab6 (finalize Toy.vocab6 2 4 0%Qc 1 s_f)
            = Ok sents.
Proof.
  eexists.
  split; [vm_compute; reflexivity|].
  match goal with
  | |- _ /\ spread_all 1 ?s /\ _ => set (st_b := s)
  end.
  assert (Hloop : step_loop [ExitExample.decoder_ok] Toy.vocab6 2 false 1 4 0
                            ExitExample.st0_ok = Ok (Break st_b))
    by (vm_compute; reflexivity).
  assert (Hfirst : ~ all_finished 2 1 ExitExample.st0_ok)
    by (vm_compute; discriminate).
  assert (Hspread : spread_all 1 st_b).
  { intros b Hb. destruct b as [|b]; [|lia].
    intros x y Hx Hy. simpl in Hx, Hy.
    destruct Hx as [<-|[<-|[]]]; destruct Hy as [<-|[<-|[]]];
      vm_compute; reflexivity. }
  assert (Hdist : distinct_scores Toy.vocab6 2 4 1 0%Qc st_b).
  { intros b j j' Hb Hj Hj' Hne. destruct b as [|b]; [|lia].
    destruct j as [|[|j]]; destruct j' as [|[|j']]; try lia;
      vm_compute; intros E; discriminate E. }
  split; [exact Hfirst|]. split; [exact Hspread|]. split; [exact Hdist|].
  assert (HB : 0 < 1) by lia.
  assert (HV : 2 < n_vocab Toy.vocab6) by (simpl; lia).
  assert (Hk : 0 < 2) by lia.
  assert (HkV : 2 <= n_vocab Toy.vocab6) by (simpl; lia).
  assert (Hdecs : [ExitExample.decoder_ok] <> []) by discriminate.
  assert (Hdok : Forall (decoder_ok (n_vocab Toy.vocab6))
                        [ExitExample.decoder_ok]).
  { constructor; [apply table_decoder_ok|constructor]. }
  assert (Hunk : false = true -> unk Toy.vocab6 < n_vocab Toy.vocab6)
    by discriminate.
  destruct (early_exit_refines [ExitExample.decoder_ok] Toy.vocab6 2 4 1 false
              0%Qc HB HV Hk HkV Hdecs Hdok Hunk eq_refl) as [_ Hrefine].
  apply (Hrefine 4 0 ExitExample.st0_ok st_b exit_example_inv0 eq_refl
                 (fun _ => Hfirst) Hloop Hspread Hdist).
Defined.

(** * Further properties of [search.py] *)

(** ** The context tiler: composition, identity, failure *)

Lemma get_of_gathered {A : Type} (l l1 : list A) (i1 : list nat) (j : nat) :
  Forall2 (fun i a => get l i = Ok a) i1 l1 -> j < length i1 ->
  get l1 j = get l (nth j i1 0) /\ is_ok (get l1 j) = true.
Proof.
  intros H. revert j. induction H as [|i a i1 l1 Hi _ IH]; intros j Hj.
  - simpl in Hj. lia.
  - destruct j as [|j]; simpl.
    + rewrite Hi. unfold get. simpl. split; reflexivity.
    + simpl in Hj. destruct (IH j ltac:(lia)) as [E1 E2].
      unfold get in *. simpl. auto.
Qed.

Lemma gather_compose {A : Type} (l l1 : list A) (i1 i2 : list nat) :
  gather l i1 = Ok l1 -> Forall (fun j => j < length i1) i2 ->
  gather l1 i2 = gather l (map (fun j => nth j i1 0) i2)
  /\ is_ok (gather l1 i2) = true.
Proof.
  intros H1 H2. apply mapM_ok_inv in H1.
  unfold gather. induction H2 as [|j i2 Hj _ IH]; simpl; [auto|].
  destruct (get_of_gathered l l1 i1 j H1 Hj) as [E1 E2].
  rewrite <- E1. destruct (get l1 j) as [a|e]; simpl in *; [|discriminate].
  destruct IH as [E3 E4]. rewrite <- E3.
  destruct (mapM (get l1) i2); simpl in *; [auto|discriminate].
Qed.

Lemma index_axis1_compose {A : Type} (x x1 : list (list A)) (i1 i2 : list nat) :
  index_axis1 x i1 = Ok x1 -> Forall (fun j => j < length i1) i2 ->
  index_axis1 x1 i2 = index_axis1 x (map (fun j => nth j i1 0) i2)
  /\ is_ok (index_axis1 x1 i2) = true.
Proof.
  intros H1 H2. apply mapM_ok_inv in H1. unfold index_axis1.
  induction H1 as [|row row1 x x1 Hrow _ IH]; simpl; [auto|].
  destruct (gather_compose row row1 i1 i2 Hrow H2) as [E1 E2].
  rewrite <- E1. destruct (gather row1 i2); simpl in *; [|discriminate].
  destruct IH as [E3 E4]. rewrite <- E3.
  destruct (mapM _ x1); simpl in *; [auto|discriminate].
Qed.

Lemma tile_entry_compose (e e1 : string * (tensor3 * option mask_t))
      (i1 i2 : list nat) :
  tile_entry i1 e = Ok e1 -> Forall (fun j => j < length i1) i2 ->
  tile_entry i2 e1 = tile_entry (map (fun j => nth j i1 0) i2) e
  /\ is_ok (tile_entry i2 e1) = true.
Proof.
  destruct e as [key [t mask]]. intros H1 H2. simpl in H1.
  apply bind_ok_inv in H1 as (t1 & Ht & H1).
  apply bind_ok_inv in H1 as (mask1 & Hm & H1).
  injection H1 as <-. simpl.
  destruct (index_axis1_compose t t1 i1 i2 Ht H2) as [E1 E2].
  rewrite <- E1. destruct (index_axis1 t1 i2) as [t2|]; simpl in *;
    [|discriminate].
  destruct mask as [m|].
  - apply bind_ok_inv in Hm as (m1 & Hm1 & Hm). injection Hm as <-.
    destruct (index_axis1_compose m m1 i1 i2 Hm1 H2) as [E3 E4].
    rewrite <- E3. destruct (index_axis1 m1 i2); simpl in *;
      [auto|discriminate].
  - injection Hm as <-. simpl. auto.
Qed.

(** X1.  Tiling twice is tiling once with the composed indices: if
    [tile_ctx_dict(cd, i1)] succeeds and every index of [i2] is a position of
    [i1], then [tile_ctx_dict(tile_ctx_dict(cd, i1), i2)] succeeds and equals
    [tile_ctx_dict(cd, [i1[j] for j in i2])].  The step loop re-tiles the
    contexts of the previous step at line 112. *)
Theorem tile_ctx_dict_compose (cd cd1 : ctx_dict) (i1 i2 : list nat) :
  tile_ctx_dict cd i1 = Ok cd1 ->
  Forall (fun j => j < length i1) i2 ->
  exists cd2,
    tile_ctx_dict cd1 i2 = Ok cd2
    /\ tile_ctx_dict cd (map (fun j => nth j i1 0) i2) = Ok cd2.
Proof.
  intros H1 H2. apply mapM_ok_inv in H1.
  assert (E : tile_ctx_dict cd1 i2
              = tile_ctx_dict cd (map (fun j => nth j i1 0) i2)
              /\ is_ok (tile_ctx_dict cd1 i2) = true).
  { unfold tile_ctx_dict.
    induction H1 as [|e e1 cd cd1 He _ IH]; simpl; [auto|].
    destruct (tile_entry_compose e e1 i1 i2 He H2) as [E1 E2].
    rewrite <- E1. destruct (tile_entry i2 e1); simpl in *; [|discriminate].
    destruct IH as [E3 E4]. rewrite <- E3.
    destruct (mapM _ cd1); simpl in *; [auto|discriminate]. }
  destruct E as [E1 E2]. rewrite <- E1.
  destruct (tile_ctx_dict cd1 i2) as [cd2|]; [eauto|discriminate].
Qed.

Lemma gather_seq {A : Type} (l : list A) : gather l (seq 0 (length l)) = Ok l.
Proof.
  unfold gather.
  assert (G : forall (pre : list A),
             mapM (get (pre ++ l)) (seq (length pre) (length l)) = Ok l).
  { induction l as [|a l IH]; intros pre; simpl; [reflexivity|].
    unfold get at 1. rewrite nth_error_app2 by lia.
    rewrite Nat.sub_diag. simpl.
    specialize (IH (pre ++ [a])).
    rewrite <- app_assoc, length_app in IH. simpl in IH.
    rewrite Nat.add_1_r in IH. rewrite IH. reflexivity. }
  exact (G []).
Qed.

Lemma index_axis1_seq {A : Type} (n : nat) (x : list (list A)) :
  Forall (fun row => length row = n) x -> index_axis1 x (seq 0 n) = Ok x.
Proof.
  unfold index_axis1. induction 1 as [|row x Hrow _ IH]; simpl; [reflexivity|].
  rewrite <- Hrow at 1. rewrite gather_seq. simpl. rewrite IH. reflexivity.
Qed.

(** X2.  Tiling with the identity indices [range(N)] (the [tile] a batch
    starts with, line 94) returns a dictionary equal to its input, given
    that every tensor and mask has [N] samples. *)
Theorem tile_ctx_dict_identity (N : nat) (cd : ctx_dict) :
  ctx_width N cd -> tile_ctx_dict cd (seq 0 N) = Ok cd.
Proof.
  unfold tile_ctx_dict, ctx_width.
  induction 1 as [|[key [t mask]] cd [Ht Hm] _ IH]; simpl; [reflexivity|].
  simpl in Ht, Hm. rewrite (index_axis1_seq N t Ht). simpl.
  destruct mask as [m|].
  - rewrite (index_axis1_seq N m Hm). simpl. rewrite IH. reflexivity.
  - simpl. rewrite IH. reflexivity.
Qed.

Lemma gather_ok_range {A : Type} (l out : list A) (idxs : list nat) :
  gather l idxs = Ok out -> Forall (fun i => i < length l) idxs.
Proof.
  intros H. apply mapM_ok_inv in H.
  induction H as [|i a idxs out Hi _ IH]; constructor; [|exact IH].
  unfold get in Hi. destruct (nth_error l i) eqn:E; [|discriminate].
  apply nth_error_Some. congruence.
Qed.

Lemma index_axis1_ok_range {A : Type} (x out : list (list A))
      (idxs : list nat) :
  index_axis1 x idxs = Ok out -> in_range idxs x.
Proof.
  intros H. apply mapM_ok_inv in H. unfold in_range.
  induction H as [|row r x out Hrow _ IH]; constructor; [|exact IH].
  now apply gather_ok_range in Hrow.
Qed.

(** X3.  [tile_ctx_dict] succeeds exactly when every index is a sample
    position of every tensor and mask of the dictionary: an index outside
    one of them makes the whole call fail, it is neither clamped nor wrapped
    and no partial dictionary is returned. *)
Theorem tile_ctx_dict_succeeds_iff (cd : ctx_dict) (idxs : list nat) :
  (exists out, tile_ctx_dict cd idxs = Ok out)
  <-> Forall (entry_in_range idxs) cd.
Proof.
  split.
  - intros (out & H). apply mapM_ok_inv in H.
    induction H as [|[key [t mask]] e' cd out He _ IH]; constructor;
      [|exact IH].
    simpl in He.
    apply bind_ok_inv in He as (t1 & Ht & He).
    apply bind_ok_inv in He as (mask1 & Hm & _).
    split; simpl.
    + now apply index_axis1_ok_range in Ht.
    + destruct mask as [m|]; [|exact I].
      apply bind_ok_inv in Hm as (m1 & Hm1 & _).
      now apply index_axis1_ok_range in Hm1.
  - intros H. eexists. now apply tile_ctx_dict_ok.
Qed.
(** ** One step of the loop, slot by slot *)

Section StepFacts.

Context `{TopK}.

Variable decs : list Decoder.
Variable vocab : Vocab.
Variables k max_len B : nat.
Variable suppress_unk : bool.

Let V := n_vocab vocab.

Hypothesis HB : 0 < B.
Hypothesis HV : 2 < V.
Hypothesis Hk : 0 < k.
Hypothesis HkV : k <= V.
Hypothesis Hdecs : decs <> [].
Hypothesis Hdok : Forall (decoder_ok V) decs.
Hypothesis Hunk : suppress_unk = true -> unk vocab < V.

(** A step that does not break: what it prepares, what it selects. *)
Lemma step_continue_selected (t : nat) (st : loop_state) :
  inv decs k max_len B t st -> t < max_len -> ~ all_finished k B st ->
  exists ctx_dicts h_ts raw tops,
    step_prepare decs vocab suppress_unk st
    = Ok (ctx_dicts, h_ts, raw, nonzero_eq 2 (ls_idxs st))
    /\ shape2 (B * width k t) V raw
    /\ shape2 (B * width k t) V (step_log_p (nonzero_eq 2 (ls_idxs st)) raw)
    /\ Forall2 (kbest k)
         (scores_of (width k t) B (ls_nll st)
                    (step_log_p (nonzero_eq 2 (ls_idxs st)) raw)) tops
    /\ step decs vocab k suppress_unk B t st
       = Ok (Continue (selected V k B t st ctx_dicts h_ts tops))
    /\ inv decs k max_len B (S t) (selected V k B t st ctx_dicts h_ts tops).
Proof.
  intros Hinv Ht Hnall.
  destruct (step_common decs vocab k max_len B suppress_unk HB HV Hk HkV
              Hdecs Hdok Hunk t st Hinv Ht)
    as (ctx_dicts & h_ts & raw & tops & Hprep & Hlp & Hpin & Htops & Hsel
        & Hinv').
  set (fin := nonzero_eq 2 (ls_idxs st)) in *.
  fold V in Hlp, Hpin, Hsel, Hinv'.
  exists ctx_dicts, h_ts, raw, tops.
  split; [exact Hprep|]. split; [exact Hlp|]. split.
  { unfold step_log_p. destruct (length fin =? 0); [exact Hlp|].
    now apply pinned_shape. }
  split; [exact Htops|]. split; [|exact Hinv'].
  unfold step. rewrite Hprep. simpl. fold fin.
  unfold step_log_p in Hsel. unfold all_finished in Hnall. fold fin in Hnall.
  destruct (Nat.eqb_spec (length fin) 0) as [Hz|Hnz]; simpl.
  - unfold V in Hsel. now rewrite Hsel.
  - destruct (Nat.eqb_spec (length fin) (B * k)) as [?|_]; [contradiction|].
    unfold V in Hpin, Hsel.
    rewrite Hpin by (intros E; rewrite E in Hnz; simpl in Hnz; lia).
    simpl. now rewrite Hsel.
Qed.

End StepFacts.

Lemma div_mod_slot (b j k : nat) :
  j < k -> (b * k + j) / k = b /\ (b * k + j) mod k = j.
Proof.
  intros Hj. split.
  - rewrite Nat.div_add_l by lia. rewrite Nat.div_small by exact Hj. lia.
  - rewrite Nat.add_comm, Nat.Div0.mod_add. now apply Nat.mod_small.
Qed.

(** The new slot [(b, j)] in terms of its flat index [f]: ancestor [f / V],
    token [f mod V], tile entry and score. *)
Lemma selected_slot (V k B K t : nat) (st : loop_state)
      (ctx_dicts : list ctx_dict) (h_ts : list tensor2) (log_p : tensor2)
      (tops : list (list Qc * list nat)) (b j : nat) :
  0 < V -> K = width k t ->
  shape2 B K (ls_nll st) -> shape2 (B * K) V log_p ->
  Forall2 (kbest k) (scores_of K B (ls_nll st) log_p) tops ->
  b < B -> j < k ->
  let st' := selected V k B t st ctx_dicts h_ts tops in
  let f := nth j (nth b (map snd tops) []) 0 in
  f / V < K /\ f mod V < V
  /\ In f (snd (nth b tops ([], [])))
  /\ nth (b * k + j) (ls_idxs st') 0 = f mod V
  /\ nth (b * k + j) (ls_tile st') 0 = b * K + f / V
  /\ nth j (nth b (ls_nll st') []) 0%Qc
     = (nth (f / V) (nth b (ls_nll st) []) 0
        + nth (f mod V) (nth (b * K + f / V) log_p []) 0)%Qc.
Proof.
  intros HV HK Hnll Hlp Htops Hb Hj st' f.
  pose proof (scores_of_shape B V K _ _ Hnll Hlp) as Hsc.
  pose proof (flat_bound V k B K _ tops HV Hsc Htops b j Hb Hj) as Hf.
  fold f in Hf.
  assert (Hanc : f / V < K) by (apply Nat.Div0.div_lt_upper_bound; lia).
  assert (Htok : f mod V < V) by (apply Nat.mod_upper_bound; lia).
  assert (Hfeq : f = f / V * V + f mod V).
  { pose proof (Nat.div_mod_eq f V). lia. }
  assert (Hbj : b * k + j < B * k) by nia.
  destruct (div_mod_slot b j k Hj) as [Hdiv Hmod].
  split; [exact Hanc|]. split; [exact Htok|]. split.
  { unfold f. rewrite (flat_nth tops b). apply nth_In.
    destruct (tops_kbest V k B K _ tops HV Hsc Htops b Hb) as (_ & Hl & _).
    lia. }
  split.
  { unfold st'.
    rewrite (selected_idxs V k B K t st ctx_dicts h_ts _ tops HV Hsc Htops
                           _ Hbj).
    rewrite Hdiv, Hmod. reflexivity. }
  split.
  { unfold st'.
    rewrite (selected_tile V k B K t st ctx_dicts h_ts _ tops HV Hsc Htops
                           _ Hbj).
    rewrite Hdiv, Hmod. fold f. subst K. unfold width.
    destruct (t =? 0); lia. }
  unfold st'.
  rewrite (selected_nll V k B K t st ctx_dicts h_ts _ tops HV Hsc Htops
                        b j Hb Hj).
  fold f. rewrite Hfeq at 1.
  apply (scores_of_nth B V K _ _ b (f / V) (f mod V) Hnll Hlp Hb Hanc Htok).
Qed.

(** A candidate [(a, v)] of sample [b] that no new slot holds scores no more
    than any new slot. *)
Lemma selected_optimal (V k B K t : nat) (st : loop_state)
      (ctx_dicts : list ctx_dict) (h_ts : list tensor2) (log_p : tensor2)
      (tops : list (list Qc * list nat)) (b j a v : nat) :
  0 < V -> K = width k t ->
  shape2 B K (ls_nll st) -> shape2 (B * K) V log_p ->
  Forall2 (kbest k) (scores_of K B (ls_nll st) log_p) tops ->
  b < B -> j < k -> a < K -> v < V ->
  let st' := selected V k B t st ctx_dicts h_ts tops in
  (forall j', j' < k ->
     ~ (nth (b * k + j') (ls_tile st') 0 = b * K + a
        /\ nth (b * k + j') (ls_idxs st') 0 = v)) ->
  (nth a (nth b (ls_nll st) []) 0 + nth v (nth (b * K + a) log_p []) 0
   <= nth j (nth b (ls_nll st') []) 0)%Qc.
Proof.
  intros HV HK Hnll Hlp Htops Hb Hj Ha Hv st' Hnot.
  pose proof (scores_of_shape B V K _ _ Hnll Hlp) as Hsc.
  destruct (tops_kbest V k B K _ tops HV Hsc Htops b Hb)
    as (_ & Hl & _ & _ & Hbest).
  destruct (selected_slot V k B K t st ctx_dicts h_ts log_p tops b j
              HV HK Hnll Hlp Htops Hb Hj) as (_ & _ & Hin & _ & _ & Hscore).
  fold st' in Hscore. rewrite Hscore.
  set (f := nth j (nth b (map snd tops) []) 0) in *.
  assert (Hfeq : f = f / V * V + f mod V).
  { pose proof (Nat.div_mod_eq f V). lia. }
  assert (Hanc : f / V < K).
  { pose proof (flat_bound V k B K _ tops HV Hsc Htops b j Hb Hj) as Hf.
    fold f in Hf. apply Nat.Div0.div_lt_upper_bound; lia. }
  assert (Htok : f mod V < V) by (apply Nat.mod_upper_bound; lia).
  rewrite <- (scores_of_nth B V K _ _ b a v Hnll Hlp Hb Ha Hv).
  rewrite <- (scores_of_nth B V K _ _ b (f / V) (f mod V) Hnll Hlp Hb Hanc
                            Htok).
  rewrite <- Hfeq.
  apply Hbest.
  - exact Hin.
  - rewrite (shape2_row B (K * V) _ b Hsc Hb). nia.
  - intros Hin'. apply (In_nth _ _ 0) in Hin' as (j' & Hj' & Hnth).
    rewrite Hl in Hj'.
    destruct (selected_slot V k B K t st ctx_dicts h_ts log_p tops b j'
                HV HK Hnll Hlp Htops Hb Hj') as (_ & _ & _ & Hi & Ht & _).
    rewrite (flat_nth tops b) in Hi, Ht. rewrite Hnth in Hi, Ht.
    apply (Hnot j' Hj'). unfold st'. split.
    + rewrite Ht. f_equal.
      rewrite Nat.div_add_l by lia. rewrite (Nat.div_small v V Hv). lia.
    + rewrite Hi. rewrite Nat.add_comm, Nat.Div0.mod_add.
      now apply Nat.mod_small.
Qed.

(** X4.  A step that does not break keeps, for every sample, [k] candidates
    of highest cumulative score: the score of a new slot is its ancestor's
    score plus the log-probability of its token (after suppression and
    pinning), its tile entry is the ancestor's row, and every continuation
    (ancestor, token) that no new slot of the sample holds scores no more
    than any of the new slots. *)
Theorem step_keeps_k_best `{TopK} (decs : list Decoder) (vocab : Vocab)
        (k max_len B : nat) (suppress_unk : bool) (t : nat) (st : loop_state) :
  let V := n_vocab vocab in
  let K := width k t in
  0 < B -> 2 < V -> 0 < k -> k <= V -> decs <> [] ->
  Forall (decoder_ok V) decs ->
  (suppress_unk = true -> unk vocab < V) ->
  inv decs k max_len B t st -> t < max_len ->
  ~ all_finished k B st ->
  exists ctx_dicts h_ts raw st',
    let log_p := step_log_p (nonzero_eq 2 (ls_idxs st)) raw in
    step_prepare decs vocab suppress_unk st
    = Ok (ctx_dicts, h_ts, raw, nonzero_eq 2 (ls_idxs st))
    /\ step decs vocab k suppress_unk B t st = Ok (Continue st')
    /\ forall b j, b < B -> j < k ->
         exists a,
           a < K
           /\ nth (b * k + j) (ls_tile st') 0 = b * K + a
           /\ nth (b * k + j) (ls_idxs st') 0 < V
           /\ nth j (nth b (ls_nll st') []) 0%Qc
              = (nth a (nth b (ls_nll st) []) 0
                 + nth (nth (b * k + j) (ls_idxs st') 0%nat)
                       (nth (b * K + a) log_p []) 0)%Qc
           /\ forall a' v', a' < K -> v' < V ->
                (forall j', j' < k ->
                   ~ (nth (b * k + j') (ls_tile st') 0 = b * K + a'
                      /\ nth (b * k + j') (ls_idxs st') 0 = v')) ->
                (nth a' (nth b (ls_nll st) []) 0
                 + nth v' (nth (b * K + a') log_p []) 0
                 <= nth j (nth b (ls_nll st') []) 0)%Qc.
Proof.
  intros V K HB HV Hk HkV Hdecs Hdok Hunk Hinv Ht Hnall.
  destruct (step_continue_selected decs vocab k max_len B suppress_unk
              HB HV Hk HkV Hdecs Hdok Hunk t st Hinv Ht Hnall)
    as (ctx_dicts & h_ts & raw & tops & Hprep & _ & Hlp & Htops & Hstep & _).
  fold V in Hlp, Hstep. fold K in Hlp, Htops.
  exists ctx_dicts, h_ts, raw, (selected V k B t st ctx_dicts h_ts tops).
  cbv zeta. split; [exact Hprep|]. split; [exact Hstep|].
  intros b j Hb Hj.
  assert (HV0 : 0 < V) by lia.
  pose proof (inv_nll _ _ _ _ _ _ Hinv) as Hnll. fold K in Hnll.
  destruct (selected_slot V k B K t st ctx_dicts h_ts _ tops b j
              HV0 eq_refl Hnll Hlp Htops Hb Hj)
    as (Hanc & Htok & _ & Hi & Htile & Hscore).
  exists (nth j (nth b (map snd tops) []) 0 / V).
  split; [exact Hanc|]. split; [exact Htile|].
  rewrite Hi. split; [exact Htok|]. split; [exact Hscore|].
  intros a' v' Ha' Hv' Hnot.
  now apply (selected_optimal V k B K t st ctx_dicts h_ts _ tops b j a' v').
Qed.
(** ** The prepared log-probabilities: suppression, ensemble sum, sign *)

Lemma fold_add2_err (ts : list tensor2) (e : exn) :
  fold_left (fun acc x => a <- acc ;; add2 a x) ts (Err e) = Err e.
Proof. induction ts as [|x ts IH]; simpl; [reflexivity|exact IH]. Qed.

(** What [step_prepare] returns, read back from its definition. *)
Lemma step_prepare_inv (decs : list Decoder) (vocab : Vocab)
      (suppress_unk : bool) (st : loop_state) ctx_dicts h_ts raw fin :
  step_prepare decs vocab suppress_unk st = Ok (ctx_dicts, h_ts, raw, fin) ->
  exists outs summed,
    Forall (fun o => exists d cd e h, In d decs /\ o = f_next d cd e h) outs
    /\ sum_tensors (map fst outs) = Ok summed
    /\ (if suppress_unk then fill_col (unk vocab) inf summed else Ok summed)
       = Ok raw.
Proof.
  unfold step_prepare. intros Hp.
  apply bind_ok_inv in Hp as (cds & Hcds & Hp).
  apply bind_ok_inv in Hp as (outs & Houts & Hp).
  apply bind_ok_inv in Hp as (summed & Hsum & Hp).
  apply bind_ok_inv in Hp as (raw' & Hfill & Hp).
  injection Hp as <- <- <- <-.
  exists outs, summed. split; [|split; assumption].
  apply mapM_ok_inv in Houts.
  rewrite Forall_forall. intros o Ho.
  destruct (Forall2_In_l _ _ _ _ (Forall2_flip Houts) Ho)
    as ([[d cd] h] & Hx & Hfx).
  simpl in Hfx. apply bind_ok_inv in Hfx as (h' & _ & Hfx).
  injection Hfx as <-.
  apply in_combine_l in Hx. apply in_combine_l in Hx.
  eauto 6.
Qed.

Lemma fill_col_entry (c : nat) (v : Qc) (m m' : tensor2) :
  fill_col c v m = Ok m' ->
  Forall2 (fun row row' => c < length row /\ row' = upd c v row) m m'.
Proof.
  intros H. apply mapM_ok_inv in H.
  induction H as [|row row' m m' Hrow _ IH]; constructor; [|exact IH].
  destruct (Nat.ltb_spec c (length row)); [|discriminate].
  injection Hrow as <-. auto.
Qed.

(** With [suppress_unk], column [<unk>] of the prepared tensor is [inf]. *)
Lemma step_prepare_unk (decs : list Decoder) (vocab : Vocab)
      (st : loop_state) ctx_dicts h_ts raw fin :
  step_prepare decs vocab true st = Ok (ctx_dicts, h_ts, raw, fin) ->
  Forall (fun row => nth (unk vocab) row 0%Qc = inf) raw.
Proof.
  intros Hp.
  apply step_prepare_inv in Hp as (outs & summed & _ & _ & Hfill).
  apply fill_col_entry in Hfill.
  induction Hfill as [|row row' m m' [Hc ->] _ IH]; constructor; [|exact IH].
  now apply nth_upd_eq.
Qed.

(** X8.  With [suppress_unk] set (and [<unk>] not the token 2 that pinning
    favours), a step never extends a hypothesis by [<unk>] at its
    log-probability: every new slot whose token is [<unk>] has its
    ancestor's score plus [inf = -1000]. *)
Theorem suppressed_unk_costs_inf `{TopK} (decs : list Decoder)
        (vocab : Vocab) (k max_len B : nat) (t : nat) (st : loop_state) :
  let V := n_vocab vocab in
  let K := width k t in
  0 < B -> 2 < V -> 0 < k -> k <= V -> decs <> [] ->
  Forall (decoder_ok V) decs ->
  unk vocab < V -> unk vocab <> 2 ->
  inv decs k max_len B t st -> t < max_len ->
  ~ all_finished k B st ->
  exists st',
    step decs vocab k true B t st = Ok (Continue st')
    /\ forall b j, b < B -> j < k ->
         nth (b * k + j) (ls_idxs st') 0 = unk vocab ->
         exists a,
           a < K
           /\ nth (b * k + j) (ls_tile st') 0 = b * K + a
           /\ nth j (nth b (ls_nll st') []) 0%Qc
              = (nth a (nth b (ls_nll st) []) 0 + inf)%Qc.
Proof.
  intros V K HB HV Hk HkV Hdecs Hdok Hunk Hne Hinv Ht Hnall.
  destruct (step_continue_selected decs vocab k max_len B true
              HB HV Hk HkV Hdecs Hdok (fun _ => Hunk) t st Hinv Ht Hnall)
    as (ctx_dicts & h_ts & raw & tops & Hprep & Hraw & Hlp & Htops & Hstep
        & _).
  fold V in Hraw, Hlp, Hstep. fold K in Hraw, Hlp, Htops.
  exists (selected V k B t st ctx_dicts h_ts tops).
  split; [exact Hstep|].
  intros b j Hb Hj Htok.
  assert (HV0 : 0 < V) by lia.
  pose proof (inv_nll _ _ _ _ _ _ Hinv) as Hnll. fold K in Hnll.
  destruct (selected_slot V k B K t st ctx_dicts h_ts _ tops b j
              HV0 eq_refl Hnll Hlp Htops Hb Hj)
    as (Hanc & _ & _ & Hi & Htile & Hscore).
  set (f := nth j (nth b (map snd tops) []) 0) in *.
  exists (f / V). split; [exact Hanc|]. split; [exact Htile|].
  rewrite Hscore. f_equal.
  rewrite Hi in Htok. rewrite Htok.
  set (fin := nonzero_eq 2 (ls_idxs st)).
  assert (Hrow : b * K + f / V < B * K) by nia.
  pose proof (step_prepare_unk _ _ _ _ _ _ _ Hprep) as Hcol.
  unfold step_log_p. destruct (length fin =? 0).
  - rewrite Forall_forall in Hcol. apply Hcol. apply nth_In.
    destruct Hraw as [-> _]. exact Hrow.
  - destruct (in_dec Nat.eq_dec (b * K + f / V) fin) as [Hin|Hnin].
    + rewrite (pinned_row_fin (B * K) V fin raw _ (unk vocab) Hraw Hin Hrow
                              Hunk).
      destruct (Nat.eqb_spec (unk vocab) 2); [contradiction|reflexivity].
    + rewrite (pinned_row_other fin raw _ Hnin).
      rewrite Forall_forall in Hcol. apply Hcol. apply nth_In.
      destruct Hraw as [-> _]. exact Hrow.
Qed.

(** Entry [(i, j)] of the tensors [ts] added to [s] one after the other, in
    the order of the list. *)
Definition entry_acc (s : Qc) (ts : list tensor2) (i j : nat) : Qc :=
  fold_left (fun s x => (s + nth j (nth i x []) 0)%Qc) ts s.

Lemma fold_add2_nth (r c : nat) (ts : list tensor2) :
  Forall (shape2 r c) ts ->
  forall acc, shape2 r c acc ->
  exists m,
    fold_left (fun acc x => a <- acc ;; add2 a x) ts (Ok acc) = Ok m
    /\ shape2 r c m
    /\ forall i j, i < r -> j < c ->
         nth j (nth i m []) 0%Qc
         = entry_acc (nth j (nth i acc []) 0%Qc) ts i j.
Proof.
  induction 1 as [|x ts Hx _ IH]; intros acc Hacc; simpl.
  - exists acc. split; [reflexivity|]. split; [exact Hacc|].
    intros i j _ _. reflexivity.
  - rewrite (add2_ok r c acc x Hacc Hx).
    destruct (IH _ (zip2_shape Qcplus r c acc x Hacc Hx))
      as (m & Hm & Hsh & Hnth).
    exists m. split; [exact Hm|]. split; [exact Hsh|].
    intros i j Hi Hj. rewrite (Hnth i j Hi Hj).
    destruct Hacc as [Hla Hra]. destruct Hx as [Hlx Hrx].
    rewrite (nth_zip_with (zip_with Qcplus) acc x i [] [] [])
      by lia.
    rewrite (nth_zip_with Qcplus _ _ j 0%Qc 0%Qc 0%Qc).
    + reflexivity.
    + rewrite Forall_forall in Hra. rewrite (Hra (nth i acc [])); [lia|].
      apply nth_In. lia.
    + rewrite Forall_forall in Hrx. rewrite (Hrx (nth i x [])); [lia|].
      apply nth_In. lia.
Qed.

(** X9.  The ensemble's log-probabilities (line 122) are the entrywise sum
    of the models' outputs, not their mean: for outputs of one shape
    [sum(log_ps)] succeeds with that shape, and entry [(i, j)] is the first
    model's entry with the later models' entries added to it one after the
    other, in the order of the models. *)
Theorem ensemble_scores_sum (r c : nat) (t : tensor2) (ts : list tensor2) :
  Forall (shape2 r c) (t :: ts) ->
  exists m,
    sum_tensors (t :: ts) = Ok m
    /\ shape2 r c m
    /\ forall i j, i < r -> j < c ->
         nth j (nth i m []) 0%Qc
         = entry_acc (nth j (nth i t []) 0%Qc) ts i j.
Proof.
  intros Hsh. inversion Hsh as [|? ? Ht Hts]; subst.
  exact (fold_add2_nth r c ts Hts t Ht).
Qed.

(** A decoder whose [f_next] returns log-probabilities: no entry above 0. *)
Definition log_probs (d : Decoder) : Prop :=
  forall cd e h, Forall (Forall (fun x => (x <= 0)%Qc)) (fst (f_next d cd e h)).

Definition nonpos (m : tensor2) : Prop :=
  Forall (Forall (fun x => (x <= 0)%Qc)) m.

Lemma inf_nonpos : (inf <= 0)%Qc.
Proof. unfold Qcle, Qle. simpl. lia. Qed.

Lemma zip_plus_nonpos (a b : tensor2) :
  nonpos a -> nonpos b -> nonpos (zip_with (zip_with Qcplus) a b).
Proof.
  unfold nonpos, zip_with. intros Ha Hb.
  rewrite Forall_forall in *. intros row Hrow.
  apply in_map_iff in Hrow as ([ra rb] & <- & Hin).
  pose proof (Ha _ (in_combine_l _ _ _ _ Hin)) as Hra.
  pose proof (Hb _ (in_combine_r _ _ _ _ Hin)) as Hrb.
  simpl. rewrite Forall_forall in *. intros x Hx.
  apply in_map_iff in Hx as ([xa xb] & <- & Hin').
  pose proof (Hra _ (in_combine_l _ _ _ _ Hin')) as H1.
  pose proof (Hrb _ (in_combine_r _ _ _ _ Hin')) as H2.
  simpl. replace 0%Qc with (0 + 0)%Qc by ring.
  now apply Qcplus_le_compat.
Qed.

Lemma fold_add2_nonpos (ts : list tensor2) :
  Forall nonpos ts ->
  forall acc m, nonpos acc ->
    fold_left (fun acc x => a <- acc ;; add2 a x) ts (Ok acc) = Ok m ->
    nonpos m.
Proof.
  induction 1 as [|x ts Hx _ IH]; intros acc m Hacc Hm; simpl in Hm.
  - now injection Hm as <-.
  - unfold add2 in Hm. destruct (same_shape acc x).
    + apply (IH _ _ (zip_plus_nonpos acc x Hacc Hx) Hm).
    + rewrite fold_add2_err in Hm. discriminate.
Qed.

Lemma step_prepare_nonpos (decs : list Decoder) (vocab : Vocab)
      (suppress_unk : bool) (st : loop_state) ctx_dicts h_ts raw fin :
  Forall log_probs decs ->
  step_prepare decs vocab suppress_unk st = Ok (ctx_dicts, h_ts, raw, fin) ->
  nonpos raw.
Proof.
  intros Hlp Hp.
  apply step_prepare_inv in Hp as (outs & summed & Houts & Hsum & Hfill).
  assert (Hall : Forall nonpos (map fst outs)).
  { rewrite Forall_forall in *. intros x Hx.
    apply in_map_iff in Hx as (o & <- & Ho).
    destruct (Houts o Ho) as (d & cd & e & h & Hd & ->).
    apply (Hlp d Hd). }
  assert (Hs : nonpos summed).
  { unfold sum_tensors in Hsum.
    destruct (map fst outs) as [|x ts]; [discriminate|].
    inversion Hall; subst.
    eapply fold_add2_nonpos; eauto. }
  destruct suppress_unk.
  - apply fill_col_entry in Hfill. unfold nonpos in *.
    clear Hsum. induction Hfill as [|row row' m m' [_ ->] _ IH].
    + constructor.
    + inversion Hs; subst. constructor; [|now apply IH].
      apply Forall_upd; [exact inf_nonpos|assumption].
  - now injection Hfill as <-.
Qed.

Lemma pinned_nonpos (fin : list nat) (m : tensor2) :
  nonpos m -> nonpos (pinned fin m).
Proof.
  unfold nonpos, pinned. intros Hm.
  apply (Forall_of_nth _ _ []). intros i Hi. rewrite length_imap in Hi.
  rewrite (nth_imap _ m i [] []) by exact Hi.
  destruct (mem i fin).
  - apply (Forall_of_nth _ _ 0%Qc). intros c Hc. rewrite length_imap in Hc.
    rewrite (nth_imap _ _ c 0%Qc 0%Qc) by exact Hc.
    destruct (c =? 2); [apply Qcle_refl|exact inf_nonpos].
  - rewrite Forall_forall in Hm. apply Hm, nth_In, Hi.
Qed.

(** X14.  When every decoder returns log-probabilities (entries at most 0),
    cumulative scores never increase: after a step that does not break,
    every new slot scores no more than the slot it continues. *)
Theorem scores_never_increase `{TopK} (decs : list Decoder) (vocab : Vocab)
        (k max_len B : nat) (suppress_unk : bool) (t : nat) (st : loop_state) :
  let V := n_vocab vocab in
  let K := width k t in
  0 < B -> 2 < V -> 0 < k -> k <= V -> decs <> [] ->
  Forall (decoder_ok V) decs ->
  (suppress_unk = true -> unk vocab < V) ->
  Forall log_probs decs ->
  inv decs k max_len B t st -> t < max_len ->
  ~ all_finished k B st ->
  exists st',
    step decs vocab k suppress_unk B t st = Ok (Continue st')
    /\ forall b j, b < B -> j < k ->
         exists a,
           a < K
           /\ nth (b * k + j) (ls_tile st') 0 = b * K + a
           /\ (nth j (nth b (ls_nll st') []) 0
               <= nth a (nth b (ls_nll st) []) 0)%Qc.
Proof.
  intros V K HB HV Hk HkV Hdecs Hdok Hunk Hlogp Hinv Ht Hnall.
  destruct (step_continue_selected decs vocab k max_len B suppress_unk
              HB HV Hk HkV Hdecs Hdok Hunk t st Hinv Ht Hnall)
    as (ctx_dicts & h_ts & raw & tops & Hprep & Hraw & Hlp & Htops & Hstep
        & _).
  fold V in Hraw, Hlp, Hstep. fold K in Hraw, Hlp, Htops.
  exists (selected V k B t st ctx_dicts h_ts tops).
  split; [exact Hstep|].
  intros b j Hb Hj.
  assert (HV0 : 0 < V) by lia.
  pose proof (inv_nll _ _ _ _ _ _ Hinv) as Hnll. fold K in Hnll.
  destruct (selected_slot V k B K t st ctx_dicts h_ts _ tops b j
              HV0 eq_refl Hnll Hlp Htops Hb Hj)
    as (Hanc & Htok & _ & _ & Htile & Hscore).
  set (f := nth j (nth b (map snd tops) []) 0) in *.
  exists (f / V). split; [exact Hanc|]. split; [exact Htile|].
  rewrite Hscore.
  set (log_p := step_log_p (nonzero_eq 2 (ls_idxs st)) raw) in *.
  assert (Hnp : nonpos log_p).
  { pose proof (step_prepare_nonpos _ _ _ _ _ _ _ _ Hlogp Hprep) as Hr.
    unfold log_p, step_log_p. destruct (_ =? 0); [exact Hr|].
    now apply pinned_nonpos. }
  assert (Hle : (nth (f mod V) (nth (b * K + f / V) log_p []) 0 <= 0)%Qc).
  { unfold nonpos in Hnp. rewrite Forall_forall in Hnp.
    assert (Hrow : In (nth (b * K + f / V) log_p []) log_p).
    { apply nth_In. destruct Hlp as [-> _]. nia. }
    specialize (Hnp _ Hrow). rewrite Forall_forall in Hnp.
    apply Hnp, nth_In.
    rewrite (shape2_row (B * K) V log_p _ Hlp) by nia. exact Htok. }
  rewrite <- (Qcplus_0_r (nth (f / V) (nth b (ls_nll st) []) 0%Qc)) at 2.
  apply Qcplus_le_compat; [apply Qcle_refl|exact Hle].
Qed.
(** ** The loop as a whole: valid ids, distinct hypotheses, the result *)

Definition tokens_below (V : nat) (beam : beam_t) : Prop :=
  Forall (Forall (Forall (fun x => x < V))) beam.

Lemma nth_Forall_default {A : Type} (P : A -> Prop) (l : list A) (d : A)
      (i : nat) :
  Forall P l -> P d -> P (nth i l d).
Proof.
  intros Hl Hd. destruct (Nat.lt_ge_cases i (length l)) as [Hi|Hi].
  - rewrite Forall_forall in Hl. now apply Hl, nth_In.
  - now rewrite nth_overflow.
Qed.

Lemma reordered_tokens_below (V t : nat) (pdxs : list (list nat))
      (beam : beam_t) :
  0 < V -> tokens_below V beam -> tokens_below V (reordered t pdxs beam).
Proof.
  intros HV Hb. unfold tokens_below, reordered. apply Forall_app. split.
  - rewrite Forall_forall. intros row Hrow.
    apply in_map_iff in Hrow as (row0 & <- & Hin).
    assert (Hrow0 : Forall (Forall (fun x => x < V)) row0).
    { unfold tokens_below in Hb. rewrite Forall_forall in Hb.
      apply Hb. eapply In_firstn; eauto. }
    unfold zip_with. rewrite Forall_forall. intros slots Hs.
    apply in_map_iff in Hs as ([sl p] & <- & Hin').
    simpl. rewrite Forall_forall. intros x Hx.
    apply in_map_iff in Hx as (i & <- & _).
    apply nth_Forall_default; [|exact HV].
    rewrite Forall_forall in Hrow0. apply Hrow0.
    eapply in_combine_l; eauto.
  - now apply Forall_skipn_of.
Qed.

Lemma selected_tokens_below (V k B t : nat) (st : loop_state)
      (ctx_dicts : list ctx_dict) (h_ts : list tensor2)
      (tops : list (list Qc * list nat)) :
  0 < V -> tokens_below V (ls_beam st) ->
  tokens_below V (ls_beam (selected V k B t st ctx_dicts h_ts tops)).
Proof.
  intros HV Hb. unfold selected. cbn [ls_beam].
  assert (Hupd : tokens_below V
                   (upd t (map (map (fun f => f mod V)) (map snd tops))
                        (ls_beam st))).
  { apply Forall_upd; [|exact Hb].
    rewrite Forall_forall. intros row Hrow.
    apply in_map_iff in Hrow as (fl & <- & _).
    rewrite Forall_forall. intros x Hx.
    apply in_map_iff in Hx as (f & <- & _).
    apply Nat.mod_upper_bound. lia. }
  destruct (0 <? t); [|exact Hupd].
  now apply reordered_tokens_below.
Qed.

Lemma column_tokens_below (V : nat) (beam : beam_t) (b j : nat) :
  0 < V -> tokens_below V beam -> Forall (fun x => x < V) (column beam b j).
Proof.
  intros HV Hb. unfold column. rewrite Forall_forall. intros x Hx.
  apply in_map_iff in Hx as (row & <- & Hrow).
  unfold tokens_below in Hb. rewrite Forall_forall in Hb.
  apply nth_Forall_default; [|exact HV].
  apply nth_Forall_default; [|constructor].
  now apply Hb.
Qed.

Lemma force_eos_tokens_below (V e L : nat) (beam : beam_t) :
  e < V -> tokens_below V beam -> tokens_below V (force_eos e L beam).
Proof.
  intros He Hb. unfold force_eos. apply Forall_upd; [|exact Hb].
  rewrite Forall_forall. intros row Hrow.
  apply in_map_iff in Hrow as (r0 & <- & _).
  rewrite Forall_forall. intros x Hx.
  apply in_map_iff in Hx as (y & <- & _). exact He.
Qed.

Lemma kbest1_pick (k : nat) (row : list Qc) (vi : list Qc * list nat) :
  length row = k -> kbest 1 row vi ->
  hd 0 (snd vi) < k
  /\ forall j', j' < k ->
       (nth j' row 0 <= nth (hd 0%nat (snd vi)) row 0)%Qc.
Proof.
  intros Hlen (_ & Hl1 & _ & Hr1 & Hdom).
  destruct (snd vi) as [|j [|j' rest]] eqn:Esel; simpl in Hl1; try lia.
  simpl. rewrite Forall_forall in Hr1.
  assert (Hj : j < k) by (rewrite <- Hlen; apply Hr1; now left).
  split; [exact Hj|].
  intros j' Hj'.
  destruct (Nat.eq_dec j' j) as [->|Hne]; [apply Qcle_refl|].
  apply Hdom; [now left|now rewrite Hlen|].
  intros [E|[]]. congruence.
Qed.

Section ResultFacts.

Context `{TopK} `{FloatPow}.

Variable vocab : Vocab.
Variables k max_len B : nat.
Variable lp_alpha : Qc.

Hypothesis Hk : 0 < k.
Hypothesis Hlen : 0 < max_len.

(** Lines 159-172 on a state the loop can leave: the forced beam, the
    normalised scores, and for every sample a column of best normalised
    score. *)
Lemma finalize_pick (st : loop_state) :
  post k max_len B st ->
  let beam := force_eos (eos vocab) max_len (ls_beam st) in
  let norm := zip_with (zip_with Qcdiv) (ls_nll st)
                       (divisors lp_alpha B k beam) in
  exists hyps,
    finalize vocab k max_len lp_alpha B st = Ok (beam, norm, hyps)
    /\ length hyps = B
    /\ forall b, b < B ->
         exists j,
           j < k
           /\ nth b hyps [] = column beam b j
           /\ forall j', j' < k ->
                (nth j' (nth b norm []) 0 <= nth j (nth b norm []) 0)%Qc.
Proof.
  intros Hpost beam norm.
  destruct (finalize_ok vocab k max_len B lp_alpha Hk Hlen st Hpost)
    as (tops & Htops & Hfin & Hl & Hnorm).
  fold beam in Htops, Hfin, Hl, Hnorm. fold norm in Htops, Hfin, Hnorm.
  exists (best_hyps B beam tops).
  split; [exact Hfin|]. split; [exact Hl|].
  intros b Hb.
  assert (Hltops : length tops = B).
  { destruct Hnorm as [Hln _]. rewrite <- Hln. symmetry.
    eapply Forall2_length; eauto. }
  assert (Hkb : kbest 1 (nth b norm []) (nth b tops ([], []))).
  { apply Forall2_nth; [exact Htops|]. destruct Hnorm; lia. }
  assert (Hrowlen : length (nth b norm []) = k)
    by (now apply (shape2_row B k)).
  destruct (kbest1_pick k _ _ Hrowlen Hkb) as [Hj Hbest].
  exists (hd 0 (snd (nth b tops ([], [])))).
  split; [exact Hj|]. split; [|exact Hbest].
  unfold best_hyps.
  rewrite (nth_map_lt _ _ _ (0, 0))
    by (rewrite length_combine, length_seq, length_map; lia).
  rewrite combine_nth by (now rewrite length_seq, length_map).
  simpl. rewrite seq_nth by exact Hb. simpl.
  now rewrite (nth_map_lt _ _ _ ([], [])) by lia.
Qed.

End ResultFacts.

(** C7.  After the loop, line 169 divides the cumulative score of every slot
    by a divisor that depends on the slot's content length [len] (line 163,
    counted on the beam with its forced last row): [len] itself when
    [lp_alpha = 0], [(5 + len) ** lp_alpha / 6 ** lp_alpha] when
    [lp_alpha > 0]; for [len = 5] and [lp_alpha = 1] that is [10 / 6].  The
    hypothesis returned for a sample is a column whose quotient is largest.
    [post] is what [step_loop] leaves ([step_loop_post]). *)
Theorem length_penalty_divisor `{TopK} `{FloatPow} (vocab : Vocab)
        (k max_len B : nat) (lp_alpha : Qc) (st : loop_state) :
  0 < k -> 0 < max_len -> post k max_len B st ->
  exists beam norm hyps,
    finalize vocab k max_len lp_alpha B st = Ok (beam, norm, hyps)
    /\ beam = force_eos (eos vocab) max_len (ls_beam st)
    /\ (forall b j, b < B -> j < k ->
          let len := float (Nat.max 1 (content_count (column beam b j))) in
          let score := nth j (nth b (ls_nll st) []) 0%Qc in
          let normalised := nth j (nth b norm []) 0%Qc in
          exists divisor,
            normalised = (score / divisor)%Qc
            /\ (lp_alpha = 0%Qc -> divisor = len)
            /\ ((0 < lp_alpha)%Qc ->
                divisor = (fpow (qc 5 + len) lp_alpha
                           / fpow (qc 6) lp_alpha)%Qc)
            /\ (lp_alpha = 1%Qc -> len = qc 5 ->
                divisor = (qc 10 / qc 6)%Qc))
    /\ (forall b, b < B ->
          exists j,
            j < k
            /\ nth b hyps [] = column beam b j
            /\ forall j', j' < k ->
                 (nth j' (nth b norm []) 0 <= nth j (nth b norm []) 0)%Qc).
Proof.
  intros Hk Hlen Hpost.
  destruct (finalize_pick vocab k max_len B lp_alpha Hk Hlen st Hpost)
    as (hyps & Hfin & _ & Hpick).
  set (beam := force_eos (eos vocab) max_len (ls_beam st)) in *.
  exists beam,
         (zip_with (zip_with Qcdiv) (ls_nll st) (divisors lp_alpha B k beam)),
         hyps.
  split; [exact Hfin|]. split; [reflexivity|]. split; [|exact Hpick].
  intros b j Hb Hj len score normalised.
  exists (nth j (nth b (divisors lp_alpha B k beam) []) 0%Qc).
  destruct Hpost as (Hn & _).
  assert (Hd : shape2 B k (divisors lp_alpha B k beam)).
  { unfold divisors. apply length_penalty_shape, float_shape, lengths_shape. }
  split.
  - unfold normalised, score.
    rewrite (nth_zip_with _ _ _ b [] [] []) by (destruct Hn, Hd; lia).
    apply nth_zip_with.
    + now rewrite (shape2_row B k _ b Hn Hb).
    + now rewrite (shape2_row B k _ b Hd Hb).
  - assert (Hlen' : float (nth j (nth b (lengths B k beam) []) 0) = len).
    { unfold len. rewrite (lengths_nth B k beam b j Hb Hj).
      now rewrite (filter_ext _ _ gt2_content). }
    pose proof (length_penalty_nth lp_alpha B k beam b j Hb Hj) as Hcases.
    cbv zeta in Hcases. rewrite Hlen' in Hcases. exact Hcases.
Qed.

Section LoopTokens.

Context `{TopK}.

Variable decs : list Decoder.
Variable vocab : Vocab.
Variables k max_len B : nat.
Variable suppress_unk : bool.

Let V := n_vocab vocab.

Hypothesis HB : 0 < B.
Hypothesis HV : 2 < V.
Hypothesis Hk : 0 < k.
Hypothesis HkV : k <= V.
Hypothesis Hdecs : decs <> [].
Hypothesis Hdok : Forall (decoder_ok V) decs.
Hypothesis Hunk : suppress_unk = true -> unk vocab < V.

(** The two ways a step ends. *)
Lemma step_cases (t : nat) (st : loop_state) :
  inv decs k max_len B t st -> t < max_len ->
  (all_finished k B st
   /\ exists st_b,
        step decs vocab k suppress_unk B t st = Ok (Break st_b)
        /\ ls_beam st_b = ls_beam st /\ ls_nll st_b = ls_nll st)
  \/ (~ all_finished k B st
      /\ exists ctx_dicts h_ts raw tops,
           shape2 (B * width k t) V
                  (step_log_p (nonzero_eq 2 (ls_idxs st)) raw)
           /\ Forall2 (kbest k)
                (scores_of (width k t) B (ls_nll st)
                           (step_log_p (nonzero_eq 2 (ls_idxs st)) raw)) tops
           /\ step decs vocab k suppress_unk B t st
              = Ok (Continue (selected V k B t st ctx_dicts h_ts tops))
           /\ inv decs k max_len B (S t)
                  (selected V k B t st ctx_dicts h_ts tops)).
Proof.
  intros Hinv Ht.
  destruct (step_ok decs vocab k max_len B suppress_unk HB HV Hk HkV
              Hdecs Hdok Hunk t st Hinv Ht)
    as [(Hall & ctx_dicts & h_ts & Hstep)|(Hnall & _)].
  - left. split; [exact Hall|]. eexists. split; [exact Hstep|].
    split; reflexivity.
  - right. split; [exact Hnall|].
    destruct (step_continue_selected decs vocab k max_len B suppress_unk
                HB HV Hk HkV Hdecs Hdok Hunk t st Hinv Ht Hnall)
      as (ctx_dicts & h_ts & raw & tops & _ & _ & Hlp & Htops & Hstep & Hinv').
    exists ctx_dicts, h_ts, raw, tops. auto.
Qed.

Lemma step_loop_tokens (n : nat) :
  forall t st c,
    inv decs k max_len B t st -> t + n = max_len ->
    tokens_below V (ls_beam st) ->
    step_loop decs vocab k suppress_unk B n t st = Ok c ->
    tokens_below V (ls_beam (ctl_state c)).
Proof.
  induction n as [|n IH]; intros t st c Hinv Hn Htok Hloop; simpl in Hloop.
  - injection Hloop as <-. exact Htok.
  - destruct (step_cases t st Hinv ltac:(lia))
      as [(_ & st_b & Hstep & Hbeam & _)
         |(_ & ctx_dicts & h_ts & raw & tops & _ & _ & Hstep & Hinv')];
      rewrite Hstep in Hloop; simpl in Hloop.
    + injection Hloop as <-. simpl. now rewrite Hbeam.
    + apply (IH (S t) _ c Hinv'); [lia| |exact Hloop].
      apply selected_tokens_below; [lia|exact Htok].
Qed.

End LoopTokens.
Lemma inv0_tokens_below (decs : list Decoder) (k max_len B V : nat)
      (st : loop_state) :
  0 < V -> inv decs k max_len B 0 st -> tokens_below V (ls_beam st).
Proof.
  intros HV Hinv. pose proof (inv_zero _ _ _ _ _ _ Hinv) as Hz.
  simpl in Hz. unfold tokens_below.
  eapply Forall_impl; [|exact Hz]. intros row Hrow.
  eapply Forall_impl; [|exact Hrow]. intros slots Hs.
  eapply Forall_impl; [|exact Hs]. intros x ->. exact HV.
Qed.

(** X5.  Every id the decoding produces is an id of the vocabulary: from
    the state a batch starts in, the step loop and the finalisation
    succeed, and every entry of the final beam and of the returned
    hypotheses is below [len(vocab)] (given that [<eos>] is). *)
Theorem decoded_ids_in_vocabulary `{TopK} `{FloatPow} (decs : list Decoder)
        (vocab : Vocab) (k max_len B : nat) (suppress_unk : bool)
        (lp_alpha : Qc) (st : loop_state) :
  let V := n_vocab vocab in
  0 < B -> 2 < V -> 0 < k -> k <= V -> decs <> [] ->
  Forall (decoder_ok V) decs ->
  (suppress_unk = true -> unk vocab < V) ->
  0 < max_len -> eos vocab < V ->
  inv decs k max_len B 0 st ->
  exists c beam norm hyps,
    step_loop decs vocab k suppress_unk B max_len 0 st = Ok c
    /\ finalize vocab k max_len lp_alpha B (ctl_state c)
       = Ok (beam, norm, hyps)
    /\ tokens_below V beam
    /\ Forall (Forall (fun x => x < V)) hyps.
Proof.
  intros V HB HV Hk HkV Hdecs Hdok Hunk Hlen Heos Hinv.
  destruct (step_loop_post decs vocab k max_len B suppress_unk HB HV Hk HkV
              Hdecs Hdok Hunk max_len 0 st Hinv eq_refl Hlen)
    as (c & Hloop & Hpost).
  assert (HV0 : 0 < V) by lia.
  pose proof (step_loop_tokens decs vocab k max_len B suppress_unk HB HV Hk
                HkV Hdecs Hdok Hunk max_len 0 st c Hinv eq_refl
                (inv0_tokens_below decs k max_len B V st HV0 Hinv) Hloop)
    as Htok.
  destruct (finalize_pick vocab k max_len B lp_alpha Hk Hlen (ctl_state c)
              Hpost) as (hyps & Hfin & Hl & Hpick).
  pose proof (force_eos_tokens_below V (eos vocab) max_len _ Heos Htok)
    as Hforced.
  do 4 eexists. split; [exact Hloop|]. split; [exact Hfin|].
  split; [exact Hforced|].
  apply (Forall_of_nth _ _ []). intros b Hb. rewrite Hl in Hb.
  destruct (Hpick b Hb) as (j & _ & -> & _).
  now apply column_tokens_below.
Qed.

(** X6.  The result of a batch is one token sequence per sample, each of
    length [max_len] and ending with the vocabulary's [<eos>] (line 160
    overwrites the last time step, whatever token the search put there). *)
Theorem hypotheses_end_with_eos `{TopK} `{FloatPow} (decs : list Decoder)
        (vocab : Vocab) (k max_len B : nat) (suppress_unk : bool)
        (lp_alpha : Qc) (st : loop_state) :
  let V := n_vocab vocab in
  0 < B -> 2 < V -> 0 < k -> k <= V -> decs <> [] ->
  Forall (decoder_ok V) decs ->
  (suppress_unk = true -> unk vocab < V) ->
  0 < max_len ->
  inv decs k max_len B 0 st ->
  exists c beam norm hyps,
    step_loop decs vocab k suppress_unk B max_len 0 st = Ok c
    /\ finalize vocab k max_len lp_alpha B (ctl_state c)
       = Ok (beam, norm, hyps)
    /\ length hyps = B
    /\ Forall (fun h => length h = max_len
                        /\ nth (max_len - 1) h 0 = eos vocab) hyps.
Proof.
  intros V HB HV Hk HkV Hdecs Hdok Hunk Hlen Hinv.
  destruct (step_loop_post decs vocab k max_len B suppress_unk HB HV Hk HkV
              Hdecs Hdok Hunk max_len 0 st Hinv eq_refl Hlen)
    as (c & Hloop & Hpost).
  destruct (finalize_pick vocab k max_len B lp_alpha Hk Hlen (ctl_state c)
              Hpost) as (hyps & Hfin & Hl & Hpick).
  destruct Hpost as (_ & Hshape & _).
  pose proof (force_eos_shape (eos vocab) max_len B k _ Hshape) as [Hfl _].
  do 4 eexists. split; [exact Hloop|]. split; [exact Hfin|].
  split; [exact Hl|].
  apply (Forall_of_nth _ _ []). intros b Hb. rewrite Hl in Hb.
  destruct (Hpick b Hb) as (j & Hj & -> & _).
  split.
  - now rewrite column_length.
  - rewrite column_nth by lia.
    rewrite (force_eos_entry (eos vocab) max_len B k _ (max_len - 1) b j
                             Hshape) by lia.
    now rewrite Nat.eqb_refl.
Qed.

(** X7.  The hypothesis returned for a sample is one of its [k] beam
    columns with the highest length-normalised score: no other column of
    the sample has a larger quotient of cumulative score and length
    divisor. *)
Theorem best_normalised_hypothesis `{TopK} `{FloatPow} (decs : list Decoder)
        (vocab : Vocab) (k max_len B : nat) (suppress_unk : bool)
        (lp_alpha : Qc) (st : loop_state) :
  let V := n_vocab vocab in
  0 < B -> 2 < V -> 0 < k -> k <= V -> decs <> [] ->
  Forall (decoder_ok V) decs ->
  (suppress_unk = true -> unk vocab < V) ->
  0 < max_len ->
  inv decs k max_len B 0 st ->
  exists c beam norm hyps,
    step_loop decs vocab k suppress_unk B max_len 0 st = Ok c
    /\ finalize vocab k max_len lp_alpha B (ctl_state c)
       = Ok (beam, norm, hyps)
    /\ norm = zip_with (zip_with Qcdiv) (ls_nll (ctl_state c))
                       (divisors lp_alpha B k beam)
    /\ forall b, b < B ->
         exists j,
           j < k
           /\ nth b hyps [] = column beam b j
           /\ forall j', j' < k ->
                (nth j' (nth b norm []) 0 <= nth j (nth b norm []) 0)%Qc.
Proof.
  intros V HB HV Hk HkV Hdecs Hdok Hunk Hlen Hinv.
  destruct (step_loop_post decs vocab k max_len B suppress_unk HB HV Hk HkV
              Hdecs Hdok Hunk max_len 0 st Hinv eq_refl Hlen)
    as (c & Hloop & Hpost).
  destruct (finalize_pick vocab k max_len B lp_alpha Hk Hlen (ctl_state c)
              Hpost) as (hyps & Hfin & Hl & Hpick).
  do 4 eexists. split; [exact Hloop|]. split; [exact Hfin|].
  split; [reflexivity|]. exact Hpick.
Qed.

(** The hypotheses of a sample differ on their first [t] tokens. *)
Definition distinct_hyps (t k B : nat) (beam : beam_t) : Prop :=
  forall b j j', b < B -> j < k -> j' < k -> j <> j' ->
    firstn t (column beam b j) <> firstn t (column beam b j').

Lemma selected_distinct (V k B K t : nat) (st : loop_state)
      (ctx_dicts : list ctx_dict) (h_ts : list tensor2) (log_p : tensor2)
      (tops : list (list Qc * list nat)) :
  0 < V -> K = width k t -> t < length (ls_beam st) ->
  t < length (ls_beam (selected V k B t st ctx_dicts h_ts tops)) ->
  shape2 B K (ls_nll st) -> shape2 (B * K) V log_p ->
  Forall (shape2 B K) (firstn t (ls_beam st)) ->
  Forall2 (kbest k) (scores_of K B (ls_nll st) log_p) tops ->
  (0 < t -> distinct_hyps t k B (ls_beam st)) ->
  distinct_hyps (S t) k B (ls_beam (selected V k B t st ctx_dicts h_ts tops)).
Proof.
  intros HV HK Ht Ht' Hnll Hlp Hpre Htops Hold b j j' Hb Hj Hj' Hne Heq.
  set (st' := selected V k B t st ctx_dicts h_ts tops) in *.
  pose proof (scores_of_shape B V K _ _ Hnll Hlp) as Hsc.
  pose proof (flat_shape V k B K _ tops Hsc Htops) as Hflat.
  set (flat := map snd tops) in *.
  set (f := nth j (nth b flat []) 0).
  set (f' := nth j' (nth b flat []) 0).
  assert (Hfb : f < K * V)
    by (apply (flat_bound V k B K _ tops HV Hsc Htops b j Hb Hj)).
  assert (Hfb' : f' < K * V)
    by (apply (flat_bound V k B K _ tops HV Hsc Htops b j' Hb Hj')).
  assert (Hrow : length (nth b flat []) = k) by (now apply (shape2_row B k)).
  assert (Hentry : forall r, r < S t ->
            nth j (nth b (nth r (ls_beam st') []) []) 0
            = nth j' (nth b (nth r (ls_beam st') []) []) 0).
  { intros r Hr.
    rewrite <- !column_nth by lia.
    pose proof (f_equal (fun l => nth r l 0) Heq) as E. cbv beta in E.
    rewrite !nth_firstn in E.
    destruct (Nat.ltb_spec r (S t)); [exact E|lia]. }
  assert (Htokens : f mod V = f' mod V).
  { pose proof (Hentry t ltac:(lia)) as E. unfold st' in E.
    rewrite (selected_beam_row V k B t st ctx_dicts h_ts tops HV [] Ht) in E.
    fold flat in E.
    destruct Hflat as [HflB _].
    rewrite !nth2_map2 in E by lia. exact E. }
  assert (Hanc : f / V = f' / V).
  { assert (Ha : f / V < K) by (apply Nat.Div0.div_lt_upper_bound; lia).
    assert (Ha' : f' / V < K) by (apply Nat.Div0.div_lt_upper_bound; lia).
    destruct (Nat.eq_dec t 0) as [Hz|Hnz].
    - subst K. unfold width in Ha, Ha'. rewrite Hz in Ha, Ha'. simpl in *.
      lia.
    - destruct (Nat.eq_dec (f / V) (f' / V)) as [E|Hdiff]; [exact E|].
      exfalso.
      assert (HKk : K = k).
      { subst K. unfold width. destruct (Nat.eqb_spec t 0); [lia|auto]. }
      rewrite HKk in Ha, Ha'.
      apply (Hold ltac:(lia) b (f / V) (f' / V) Hb Ha Ha' Hdiff).
      apply (nth_ext _ _ 0 0).
      + now rewrite !length_firstn, !column_length.
      + intros r Hr. rewrite length_firstn, column_length in Hr.
        rewrite !nth_firstn.
        destruct (Nat.ltb_spec r t); [|lia].
        rewrite !column_nth by lia.
        pose proof (Hentry r ltac:(lia)) as E. unfold st' in E.
        rewrite !(selected_beam_prefix V k B K t st ctx_dicts h_ts _ tops HV
                    Hsc Htops r b) in E by (try assumption; lia).
        exact E. }
  assert (Hff : f = f').
  { pose proof (Nat.div_mod_eq f V). pose proof (Nat.div_mod_eq f' V).
    rewrite Hanc, Htokens in *. lia. }
  destruct (tops_kbest V k B K _ tops HV Hsc Htops b Hb)
    as (_ & Hl & Hnd & _).
  rewrite <- (flat_nth tops b) in Hl, Hnd. fold flat in Hl, Hnd.
  apply Hne.
  apply (proj1 (NoDup_nth _ 0) Hnd j j'); [lia|lia|exact Hff].
Qed.

Section LoopDistinct.

Context `{TopK}.

Variable decs : list Decoder.
Variable vocab : Vocab.
Variables k max_len B : nat.
Variable suppress_unk : bool.

Let V := n_vocab vocab.

Hypothesis HB : 0 < B.
Hypothesis HV : 2 < V.
Hypothesis Hk : 0 < k.
Hypothesis HkV : k <= V.
Hypothesis Hdecs : decs <> [].
Hypothesis Hdok : Forall (decoder_ok V) decs.
Hypothesis Hunk : suppress_unk = true -> unk vocab < V.
Hypothesis Hlen : 0 < max_len.

Lemma step_loop_distinct (n : nat) :
  forall t st c,
    inv decs k max_len B t st -> t + n = max_len ->
    (0 < t -> distinct_hyps t k B (ls_beam st)) ->
    step_loop decs vocab k suppress_unk B n t st = Ok c ->
    forall b j j', b < B -> j < k -> j' < k -> j <> j' ->
      column (ls_beam (ctl_state c)) b j
      <> column (ls_beam (ctl_state c)) b j'.
Proof.
  induction n as [|n IH]; intros t st c Hinv Hn Hd Hloop; simpl in Hloop.
  - injection Hloop as <-. simpl.
    intros b j j' Hb Hj Hj' Hne E.
    apply (Hd ltac:(lia) b j j' Hb Hj Hj' Hne). now rewrite E.
  - destruct (step_cases decs vocab k max_len B suppress_unk HB HV Hk HkV
                Hdecs Hdok Hunk t st Hinv ltac:(lia))
      as [(Hall & st_b & Hstep & Hbeam & _)
         |(_ & ctx_dicts & h_ts & raw & tops & Hlp & Htops & Hstep & Hinv')];
      rewrite Hstep in Hloop; simpl in Hloop.
    + injection Hloop as <-. simpl. rewrite Hbeam.
      intros b j j' Hb Hj Hj' Hne E.
      destruct (Nat.eq_dec t 0) as [Hz|Hnz].
      * unfold all_finished in Hall.
        pose proof (nonzero_eq_length 2 (ls_idxs st)) as Hle.
        rewrite (inv_idxs _ _ _ _ _ _ Hinv), Hall in Hle.
        unfold width in Hle. rewrite Hz in Hle. simpl in Hle. nia.
      * apply (Hd ltac:(lia) b j j' Hb Hj Hj' Hne). now rewrite E.
    + apply (IH (S t) _ c Hinv'); [lia| |exact Hloop].
      intros _.
      destruct (inv_beam _ _ _ _ _ _ Hinv) as [Hbl Hbr].
      destruct (inv_beam _ _ _ _ _ _ Hinv') as [Hbl' _].
      apply (selected_distinct V k B (width k t) t st ctx_dicts h_ts
               (step_log_p (nonzero_eq 2 (ls_idxs st)) raw) tops).
      * lia.
      * reflexivity.
      * lia.
      * fold V in Hbl'. lia.
      * apply (inv_nll _ _ _ _ _ _ Hinv).
      * exact Hlp.
      * unfold width. destruct (Nat.eqb_spec t 0) as [->|_]; [constructor|].
        now apply Forall_firstn_of.
      * exact Htops.
      * exact Hd.
Qed.

End LoopDistinct.

(** X13.  When the step loop ends, the [k] hypotheses of a sample are
    pairwise different token sequences: top-k selects distinct flattened
    indices, so two slots never hold the same ancestor and token. *)
Theorem beam_hypotheses_distinct `{TopK} (decs : list Decoder)
        (vocab : Vocab) (k max_len B : nat) (suppress_unk : bool)
        (st : loop_state) :
  let V := n_vocab vocab in
  0 < B -> 2 < V -> 0 < k -> k <= V -> decs <> [] ->
  Forall (decoder_ok V) decs ->
  (suppress_unk = true -> unk vocab < V) ->
  0 < max_len ->
  inv decs k max_len B 0 st ->
  exists c,
    step_loop decs vocab k suppress_unk B max_len 0 st = Ok c
    /\ forall b j j', b < B -> j < k -> j' < k -> j <> j' ->
         column (ls_beam (ctl_state c)) b j
         <> column (ls_beam (ctl_state c)) b j'.
Proof.
  intros V HB HV Hk HkV Hdecs Hdok Hunk Hlen Hinv.
  destruct (step_loop_post decs vocab k max_len B suppress_unk HB HV Hk HkV
              Hdecs Hdok Hunk max_len 0 st Hinv eq_refl Hlen)
    as (c & Hloop & _).
  exists c. split; [exact Hloop|].
  apply (step_loop_distinct decs vocab k max_len B suppress_unk HB HV Hk HkV
           Hdecs Hdok Hunk Hlen max_len 0 st c Hinv eq_refl);
    [lia|exact Hloop].
Qed.
(** ** Whole calls: oversized batches, too wide a beam, the vocabulary *)

Lemma decode_batches_app `{TopK} `{FloatPow} (models : list Model)
      (decs : list Decoder) (vocab : Vocab) (enc_args : option (list string))
      (k max_len max_batch_size : nat) (lp_alpha : Qc) (suppress_unk : bool)
      (pre rest : list Batch) :
  forall sto acc,
    decode_batches models decs vocab enc_args k max_len max_batch_size
                   lp_alpha suppress_unk sto (pre ++ rest) acc
    = ('(sto', acc') <- decode_batches models decs vocab enc_args k max_len
                                       max_batch_size lp_alpha suppress_unk
                                       sto pre acc ;;
       decode_batches models decs vocab enc_args k max_len max_batch_size
                      lp_alpha suppress_unk sto' rest acc').
Proof.
  induction pre as [|b pre IH]; intros sto acc; simpl; [reflexivity|].
  destruct (decode_batch models decs vocab enc_args k max_len max_batch_size
                         lp_alpha suppress_unk sto b) as [[sto1 sents]|e];
    simpl; [apply IH|reflexivity].
Qed.

(** X10.  A batch with more samples than the sampler's [batch_size] aborts
    the whole call with the tensor library's error at line 85
    ([narrow] past the storage), also when earlier batches were decoded:
    their results are not returned. *)
Theorem oversized_batch_fails `{TopK} `{FloatPow} `{TopologyResolver}
        (models : list Model) (data_loader : DataLoader)
        (task_id : option string) (beam_size max_len : Z) (lp_alpha : Qc)
        (suppress_unk : bool)
        (decs : list Decoder) (vocab : Vocab)
        (enc_args : option (list string))
        (pre : list Batch) (b : Batch) (rest : list Batch) :
  let sampler := batch_sampler data_loader in
  resolve models task_id = Ok (decs, vocab, enc_args) ->
  call_ok models decs vocab (Z.to_nat beam_size) (Z.to_nat max_len)
          suppress_unk ->
  batches data_loader = pre ++ b :: rest ->
  Forall (batch_ok models decs enc_args (batch_size sampler)) pre ->
  batch_size sampler < size b ->
  beam_search models data_loader task_id beam_size max_len lp_alpha
              suppress_unk = Err RuntimeError.
Proof.
  intros sampler Hres Hcall Hbs Hpre Hbig.
  unfold beam_search. rewrite Hres. cbn [bind].
  pose proof Hcall as (_ & [Hk _] & Hlen & _).
  assert (Hz : ((max_len <? 0) || (beam_size <? 0))%Z = false).
  { apply orb_false_intro; apply Z.ltb_ge; lia. }
  rewrite Hz, Hbs, decode_batches_app.
  destruct (decode_batches_ok models decs vocab enc_args
              (Z.to_nat beam_size) (Z.to_nat max_len) (batch_size sampler)
              lp_alpha suppress_unk pre Hcall Hpre
              (fresh_storage (Z.to_nat max_len) (batch_size sampler)
                             (Z.to_nat beam_size)) []
              (fresh_storage_ok _ _ _)) as (sto' & outs & Hdec & _).
  fold sampler. rewrite Hdec. cbn [bind decode_batches].
  unfold decode_batch.
  destruct (Nat.leb_spec (size b) (batch_size sampler)); [lia|].
  reflexivity.
Qed.

Section WideBeam.

Context `{TopK}.

Variable decs : list Decoder.
Variable vocab : Vocab.
Variables k max_len B : nat.
Variable suppress_unk : bool.

Let V := n_vocab vocab.

Hypothesis HB : 0 < B.
Hypothesis HV : 2 < V.
Hypothesis HkV : V < k.
Hypothesis Hdecs : decs <> [].
Hypothesis Hdok : Forall (decoder_ok V) decs.
Hypothesis Hunk : suppress_unk = true -> unk vocab < V.

Lemma mapM_topk_short (scores : tensor2) :
  scores <> [] -> Forall (fun row => length row < k) scores ->
  mapM (topk k) scores = Err RuntimeError.
Proof.
  intros Hne Hall. destruct scores as [|row scores]; [contradiction|].
  inversion Hall; subst. simpl. now rewrite topk_short.
Qed.

Lemma step_select_wide (st : loop_state) (ctx_dicts : list ctx_dict)
      (h_ts : list tensor2) (log_p : tensor2) :
  shape2 B 1 (ls_nll st) -> shape2 (B * 1) V log_p ->
  step_select vocab k B 0 st ctx_dicts h_ts log_p = Err RuntimeError.
Proof.
  intros Hnll Hlp. unfold step_select. fold V.
  rewrite (cross_sum_ok B V 1 _ _ HB ltac:(lia) Hnll Hlp). cbn [bind].
  fold (scores_of 1 B (ls_nll st) log_p).
  pose proof (scores_of_shape B V 1 _ _ Hnll Hlp) as [Hl Hr].
  rewrite mapM_topk_short; [reflexivity| |].
  - intros E. rewrite E in Hl. simpl in Hl. lia.
  - eapply Forall_impl; [|exact Hr]. intros row ->. lia.
Qed.

Lemma step_wide (st : loop_state) :
  inv decs k max_len B 0 st ->
  step decs vocab k suppress_unk B 0 st = Err RuntimeError.
Proof.
  intros Hinv.
  destruct (inv_rows _ _ _ _ _ _ Hinv) as (M & Htile & Hhs & Hcw).
  destruct (step_prepare_ok decs vocab suppress_unk Hdecs Hdok Hunk M st
              (inv_ctx _ _ _ _ _ _ Hinv) (inv_h _ _ _ _ _ _ Hinv)
              Hcw Hhs Htile)
    as (ctx_dicts & h_ts & log_p & Hprep & Hlp & _).
  rewrite (inv_tile _ _ _ _ _ _ Hinv) in Hlp. unfold width in Hlp.
  simpl Nat.eqb in Hlp. cbv iota in Hlp. fold V in Hlp.
  pose proof (inv_nll _ _ _ _ _ _ Hinv) as Hnll. unfold width in Hnll.
  simpl in Hnll.
  unfold step. rewrite Hprep. cbn [bind].
  set (fin := nonzero_eq 2 (ls_idxs st)).
  assert (Hfin : Forall (fun i => i < B * 1) fin).
  { rewrite Forall_forall. intros i Hi.
    apply nonzero_eq_spec in Hi as [Hi _].
    rewrite (inv_idxs _ _ _ _ _ _ Hinv) in Hi. exact Hi. }
  destruct (Nat.eqb_spec (length fin) 0) as [Hz|Hnz]; cbn [negb].
  - now rewrite (step_select_wide st _ _ _ Hnll Hlp).
  - destruct (Nat.eqb_spec (length fin) (B * k)) as [Hall|_].
    + exfalso.
      pose proof (nonzero_eq_length 2 (ls_idxs st)) as Hle. fold fin in Hle.
      rewrite (inv_idxs _ _ _ _ _ _ Hinv), Hall in Hle.
      unfold width in Hle. simpl in Hle. nia.
    + fold V.
      rewrite (pin_ok (B * 1) V fin log_p HV Hlp Hfin)
        by (intros E; rewrite E in Hnz; simpl in Hnz; lia).
      cbn [bind].
      rewrite (step_select_wide st _ _ _ Hnll);
        [reflexivity|now apply pinned_shape].
Qed.

End WideBeam.

Lemma init_inv_any (models : list Model) (decs : list Decoder)
      (enc_args : option (list string)) (k max_len max_batch_size : nat)
      (sto : storage) (batch : Batch) (m0 : Model) :
  length decs = length models ->
  storage_ok k max_len max_batch_size sto ->
  batch_ok models decs enc_args max_batch_size batch -> In m0 models ->
  inv decs k max_len (size batch) 0
      (init_state decs (size batch) sto
                  (map (fun m => encode m batch enc_args) models)
                  (get_bos m0 (size batch))).
Proof.
  intros Hld [Hsb Hsn] ([HB0 HBm] & Henc & Hinit & Hbos) Hm0.
  set (B := size batch) in *.
  unfold init_state. rewrite (zero_narrow _ _ _ B _ Hsb HBm), Hsn.
  rewrite (firstn_repeat_le 0%Qc B max_batch_size HBm).
  constructor; simpl.
  - split; [now rewrite length_map, repeat_length|].
    apply Forall_forall. intros row Hin.
    apply in_map_iff in Hin as (x & <- & _). reflexivity.
  - rewrite Forall_forall in Hbos. rewrite (Hbos m0 Hm0). unfold width.
    simpl. lia.
  - rewrite length_seq. unfold width. simpl. lia.
  - exists B. split; [|split].
    + apply Forall_forall. intros i Hi. apply in_seq in Hi. lia.
    + apply Forall_forall. intros h Hin. unfold zip_with in Hin.
      apply in_map_iff in Hin as (dc & <- & Hdc).
      rewrite Forall_forall in Hinit. now apply Hinit.
    + apply Forall_forall. intros cd Hin.
      apply in_map_iff in Hin as (m & <- & Hmin).
      rewrite Forall_forall in Henc. now apply Henc.
  - now rewrite length_map.
  - rewrite length_zip_with, length_map. lia.
  - apply zeros_shape.
  - intros _. split; [reflexivity|].
    apply Forall_forall. intros row Hin.
    apply in_map_iff in Hin as (x & <- & Hx).
    apply repeat_spec in Hx as ->. repeat constructor.
  - lia.
  - apply zeros_zero.
Qed.

(** X11.  A beam wider than the vocabulary cannot be decoded: with
    [beam_size > len(vocab)] the first step of the first batch asks top-k for
    more candidates than the [len(vocab)] continuations of the single start
    hypothesis, and the call fails with the tensor library's error. *)
Theorem beam_wider_than_vocabulary_fails `{TopK} `{FloatPow}
        `{TopologyResolver}
        (models : list Model) (data_loader : DataLoader)
        (task_id : option string) (beam_size max_len : Z) (lp_alpha : Qc)
        (suppress_unk : bool)
        (decs : list Decoder) (vocab : Vocab)
        (enc_args : option (list string))
        (b : Batch) (rest : list Batch) :
  let sampler := batch_sampler data_loader in
  let V := n_vocab vocab in
  resolve models task_id = Ok (decs, vocab, enc_args) ->
  2 < V -> (Z.of_nat V < beam_size)%Z -> (0 < max_len)%Z ->
  Forall (decoder_ok V) decs ->
  (suppress_unk = true -> unk vocab < V) ->
  batches data_loader = b :: rest ->
  batch_ok models decs enc_args (batch_size sampler) b ->
  beam_search models data_loader task_id beam_size max_len lp_alpha
              suppress_unk = Err RuntimeError.
Proof.
  intros sampler V Hres HV Hwide Hlen Hdok Hunk Hbs Hb.
  pose proof (resolve_length _ _ _ _ _ Hres) as Hld.
  assert (Hm : exists m0, get models 0 = Ok m0 /\ In m0 models).
  { destruct models as [|m0 ms].
    - destruct task_id; simpl in Hres; discriminate.
    - exists m0. split; [reflexivity|now left]. }
  destruct Hm as (m0 & Hget & Hm0).
  assert (Hdecs : decs <> []).
  { intros E. rewrite E in Hld. destruct models; [destruct Hm0|discriminate]. }
  unfold beam_search. rewrite Hres. cbn [bind].
  assert (Hz : ((max_len <? 0) || (beam_size <? 0))%Z = false).
  { apply orb_false_intro; apply Z.ltb_ge; lia. }
  rewrite Hz, Hbs. cbn [decode_batches]. fold sampler.
  unfold decode_batch.
  pose proof Hb as ([HB0 HBm] & _).
  destruct (Nat.leb_spec (size b) (batch_size sampler)); [|lia].
  rewrite Hget. cbn [bind].
  pose proof (init_inv_any models decs enc_args (Z.to_nat beam_size)
                (Z.to_nat max_len) (batch_size sampler) _ b m0 Hld
                (fresh_storage_ok _ _ _) Hb Hm0) as Hinv.
  destruct (Z.to_nat max_len) as [|n] eqn:En; [lia|].
  cbn [step_loop].
  rewrite (step_wide decs vocab (Z.to_nat beam_size) (S n) (size b)
             suppress_unk HB0 HV ltac:(fold V; lia) Hdecs Hdok Hunk _ Hinv).
  reflexivity.
Qed.

(** ** Recovering the order (lines 176-179) without assumptions on
    [orig_idxs] *)

Lemma mapM_get_err {A : Type} (results : list A) (l : list (nat * nat)) :
  Exists (fun ij => length results <= fst ij) l ->
  mapM (fun ij => get results (fst ij)) l = Err IndexError.
Proof.
  induction 1 as [ij l Hij|ij l _ IH]; simpl.
  - now rewrite (get_err _ _ Hij).
  - rewrite IH. unfold get. destruct (nth_error results (fst ij));
      reflexivity.
Qed.

Lemma map_nth_firstn {A : Type} (l : list A) (d : A) (n : nat) :
  n <= length l -> map (fun i => nth i l d) (seq 0 n) = firstn n l.
Proof.
  intros Hn.
  transitivity (map (fun i => nth i (firstn n l) d)
                    (seq 0 (length (firstn n l)))); [|apply map_nth_seq].
  rewrite firstn_length_le by exact Hn.
  symmetry. apply map_ext_in. intros i Hi. apply in_seq in Hi.
  rewrite nth_firstn. destruct (Nat.ltb_spec i n); [reflexivity|lia].
Qed.

(** X12.  Recovering the order never invents or repeats a result, whatever
    [orig_idxs] holds: with at most as many entries as results, the output
    is a rearrangement of the first [len(orig_idxs)] results, listed by
    ascending original index (results beyond are dropped); with more
    entries than results the comprehension raises IndexError. *)
Theorem recover_order_rearranges (results : list string) (orig : list nat) :
  (length orig <= length results ->
   exists out p,
     recover_order results orig = Ok out
     /\ Permutation out (firstn (length orig) results)
     /\ Permutation p (seq 0 (length orig))
     /\ out = map (fun i => nth i results ""%string) p
     /\ StronglySorted le (map (fun i => nth i orig 0) p))
  /\ (length results < length orig ->
      recover_order results orig = Err IndexError).
Proof.
  unfold recover_order.
  pose proof (sorted_by_snd_perm (enumerate orig)) as Hperm.
  set (S := sorted_by_snd (enumerate orig)) in *.
  assert (Hfst : Permutation (map fst S) (seq 0 (length orig))).
  { rewrite <- (enumerate_fst orig). now apply Permutation_map. }
  split.
  - intros Hle.
    exists (map (fun ij => nth (fst ij) results ""%string) S), (map fst S).
    split; [|split; [|split; [exact Hfst|split]]].
    + apply mapM_ok. rewrite Forall_forall. intros [i a] Hin.
      apply (Permutation_in _ Hperm) in Hin.
      apply (enumerate_in orig i a 0) in Hin as [Hi _].
      apply get_ok. simpl. lia.
    + rewrite <- (map_nth_firstn results ""%string (length orig) Hle).
      rewrite <- (map_map fst (fun i => nth i results ""%string)).
      now apply Permutation_map.
    + now rewrite map_map.
    + rewrite map_map.
      replace (map (fun ij => nth (fst ij) orig 0) S) with (map snd S).
      * apply sorted_snd_le, sorted_by_snd_sorted.
      * apply map_ext_in. intros [i a] Hin.
        apply (Permutation_in _ Hperm) in Hin.
        apply (enumerate_in orig i a 0) in Hin as [_ ->]. reflexivity.
  - intros Hlt. apply mapM_get_err.
    apply Exists_exists.
    exists (length orig - 1, nth (length orig - 1) orig 0). split.
    + apply (Permutation_in _ (Permutation_sym Hperm)).
      apply in_enumerate. lia.
    + simpl. lia.
Qed.

(** ** Which models' fields are read *)

(** Two models that differ at most in their vocabularies and in [get_bos]. *)
Definition same_decoding (m m' : Model) : Prop :=
  dec m = dec m' /\ get_decoder m = get_decoder m' /\ encode m = encode m'.

Lemma same_decoding_maps (ms ms' : list Model) :
  Forall2 same_decoding ms ms' ->
  map dec ms = map dec ms'
  /\ (forall t, map (fun m => get_decoder m t) ms
                = map (fun m => get_decoder m t) ms')
  /\ (forall b a, map (fun m => encode m b a) ms
                  = map (fun m => encode m b a) ms').
Proof.
  induction 1 as [|m m' ms ms' (Hd & Hg & He) _ (IH1 & IH2 & IH3)]; simpl.
  - auto.
  - split; [now rewrite Hd, IH1|].
    split; intros; [now rewrite Hg, IH2|now rewrite He, IH3].
Qed.

(** The models after the first are read through [dec] or [get_decoder] and
    through [encode] only. *)
Lemma later_models_read `{TopK} `{FloatPow} `{TopologyResolver}
      (m0 : Model) (ms ms' : list Model) (data_loader : DataLoader)
      (task_id : option string) (beam_size max_len : Z) (lp_alpha : Qc)
      (suppress_unk : bool) :
  Forall2 same_decoding ms ms' ->
  beam_search (m0 :: ms) data_loader task_id beam_size max_len lp_alpha
              suppress_unk
  = beam_search (m0 :: ms') data_loader task_id beam_size max_len lp_alpha
                suppress_unk.
Proof.
  intros Hsame.
  destruct (same_decoding_maps ms ms' Hsame) as (Hd & Hg & He).
  assert (Hres : resolve (m0 :: ms) task_id = resolve (m0 :: ms') task_id).
  { unfold resolve. destruct task_id as [tid|]; simpl.
    - now rewrite Hg.
    - now rewrite Hd. }
  unfold beam_search. rewrite Hres.
  destruct (resolve (m0 :: ms') task_id) as [[[decs vocab] enc_args]|e];
    [|reflexivity].
  cbn [bind].
  destruct ((max_len <? 0) || (beam_size <? 0))%Z; [reflexivity|].
  assert (Hdec : forall bs sto acc,
            decode_batches (m0 :: ms) decs vocab enc_args
                           (Z.to_nat beam_size) (Z.to_nat max_len)
                           (batch_size (batch_sampler data_loader))
                           lp_alpha suppress_unk sto bs acc
            = decode_batches (m0 :: ms') decs vocab enc_args
                             (Z.to_nat beam_size) (Z.to_nat max_len)
                             (batch_size (batch_sampler data_loader))
                             lp_alpha suppress_unk sto bs acc).
  { induction bs as [|b bs IH]; intros sto acc; cbn [decode_batches];
      [reflexivity|].
    assert (E : decode_batch (m0 :: ms) decs vocab enc_args
                             (Z.to_nat beam_size) (Z.to_nat max_len)
                             (batch_size (batch_sampler data_loader))
                             lp_alpha suppress_unk sto b
                = decode_batch (m0 :: ms') decs vocab enc_args
                               (Z.to_nat beam_size) (Z.to_nat max_len)
                               (batch_size (batch_sampler data_loader))
                               lp_alpha suppress_unk sto b).
    { unfold decode_batch. cbn [map get nth_error].
      now rewrite (He b enc_args). }
    rewrite E.
    destruct (decode_batch (m0 :: ms') _ _ _ _ _ _ _ _ _ _)
      as [[sto1 sents]|e]; cbn [bind]; [apply IH|reflexivity]. }
  now rewrite Hdec.
Qed.

(** X15.  Only the first model's vocabulary and [get_bos] are read: replacing
    the other models of the ensemble by models with the same decoders and
    encoder but other vocabularies (or other begin-of-sequence tokens)
    changes nothing in the result, errors included. *)
Theorem only_first_vocabulary_read `{TopK} `{FloatPow} `{TopologyResolver}
        (m0 : Model) (ms ms' : list Model) (data_loader : DataLoader)
        (task_id : option string) (beam_size max_len : Z) (lp_alpha : Qc)
        (suppress_unk : bool) :
  Forall2 same_decoding ms ms' ->
  beam_search (m0 :: ms) data_loader task_id beam_size max_len lp_alpha
              suppress_unk
  = beam_search (m0 :: ms') data_loader task_id beam_size max_len lp_alpha
                suppress_unk.
Proof.
  apply later_models_read.
Qed.

(** ** Violated preconditions (C8) *)

(** The model [m] carrying other vocabularies. *)
Definition with_vocab (v : Vocab) (vs : string -> Vocab) (m : Model) : Model :=
  {| dec := dec m;
     get_decoder := get_decoder m;
     trg_vocab := v;
     vocabs := vs;
     encode := encode m;
     get_bos := get_bos m |}.

Lemma with_vocab_same_decoding (v : Vocab) (vs : string -> Vocab)
      (ms : list Model) :
  Forall2 same_decoding (map (with_vocab v vs) ms) ms.
Proof.
  induction ms as [|m ms IH]; simpl; constructor; [|exact IH].
  repeat split.
Qed.

(** C8, as the code has it.  [beam_search] has no check of its own.  An
    empty model list is met by the lookup [models[0]] of lines 56 and 67,
    which raises [IndexError] whatever the other arguments are;
    [max_len = 0] is not refused: without batches the call returns the empty
    list; and the vocabularies of the models after the first are never looked
    at: a call gives the same result, errors included, when they are
    replaced by any others. *)
Theorem violations_as_handled `{TopK} `{FloatPow} `{TopologyResolver} :
  (forall data_loader task_id beam_size max_len lp_alpha suppress_unk,
      resolve [] task_id = Err IndexError
      /\ beam_search [] data_loader task_id beam_size max_len lp_alpha
                     suppress_unk = Err IndexError)
  /\ (forall m ms data_loader task_id beam_size lp_alpha suppress_unk,
         (0 <= beam_size)%Z ->
         batches data_loader = [] ->
         store_indices (batch_sampler data_loader) = false ->
         beam_search (m :: ms) data_loader task_id beam_size 0%Z lp_alpha
                     suppress_unk = Ok [])
  /\ (forall m0 ms v vs data_loader task_id beam_size max_len lp_alpha
             suppress_unk,
         beam_search (m0 :: map (with_vocab v vs) ms) data_loader task_id
                     beam_size max_len lp_alpha suppress_unk
         = beam_search (m0 :: ms) data_loader task_id beam_size max_len
                       lp_alpha suppress_unk).
Proof.
  split; [|split].
  - intros. split; [apply resolve_nil|].
    unfold beam_search. now rewrite resolve_nil.
  - intros m ms data_loader task_id beam_size lp_alpha suppress_unk Hk Hb Hst.
    unfold beam_search.
    destruct (resolve_cons m ms task_id) as (decs & vocab & enc_args & ->).
    assert (Hchk : (beam_size <? 0)%Z = false) by (apply Z.ltb_ge; lia).
    cbn [bind orb Z.ltb Z.compare]. rewrite Hchk, Hb, Hst. reflexivity.
  - intros. apply later_models_read, with_vocab_same_decoding.
Qed.
(** ** The literal 2 *)

(** X20.  The step loop reads the vocabulary only for its size and the id of
    [<unk>]: two vocabularies that agree on these give the same loop, state
    by state and error by error.  In particular the id of [<eos>] is not
    consulted before line 160; finished hypotheses are recognised by the
    literal 2 (lines 127-135). *)
Theorem step_loop_ignores_eos `{TopK} (decs : list Decoder)
        (vocab vocab' : Vocab) (k : nat) (suppress_unk : bool) (B n : nat) :
  n_vocab vocab = n_vocab vocab' -> unk vocab = unk vocab' ->
  forall t st,
    step_loop decs vocab k suppress_unk B n t st
    = step_loop decs vocab' k suppress_unk B n t st.
Proof.
  intros HV Hunk.
  assert (Hprep : forall st, step_prepare decs vocab suppress_unk st
                             = step_prepare decs vocab' suppress_unk st).
  { intros st. unfold step_prepare. now rewrite Hunk. }
  assert (Hsel : forall t st c h lp,
             step_select vocab k B t st c h lp
             = step_select vocab' k B t st c h lp).
  { intros. unfold step_select. now rewrite HV. }
  assert (Hstep : forall t st, step decs vocab k suppress_unk B t st
                               = step decs vocab' k suppress_unk B t st).
  { intros t st. unfold step. rewrite Hprep.
    destruct (step_prepare decs vocab' suppress_unk st)
      as [[[[c h] lp] fin]|e]; [|reflexivity].
    cbn [bind]. rewrite HV.
    destruct (negb (length fin =? 0)); [|now rewrite Hsel].
    destruct (length fin =? B * k); [reflexivity|].
    destruct (pin (n_vocab vocab') fin lp); [|reflexivity].
    cbn [bind]. now rewrite Hsel. }
  induction n as [|n IH]; intros t st; simpl; [reflexivity|].
  rewrite Hstep.
  destruct (step decs vocab' k suppress_unk B t st) as [[st'|st']|e];
    simpl; [apply IH|reflexivity|reflexivity].
Qed.
(** ** Leaving the loop by [break] *)

Lemma filter_full {A : Type} (f : A -> bool) (l : list A) :
  length (filter f l) = length l -> Forall (fun x => f x = true) l.
Proof.
  induction l as [|a l IH]; simpl; intros Hl; [constructor|].
  destruct (f a) eqn:Ea; simpl in Hl.
  - constructor; [exact Ea|]. apply IH. lia.
  - pose proof (filter_length_le f l). lia.
Qed.

Lemma all_finished_all_two (decs : list Decoder) (k max_len B t : nat)
      (st : loop_state) :
  inv decs k max_len B t st -> 0 < t -> all_finished k B st ->
  forall i, i < B * k -> nth i (ls_idxs st) 0 = 2.
Proof.
  intros Hinv Ht Hall i Hi.
  pose proof (inv_idxs _ _ _ _ _ _ Hinv) as Hlen.
  unfold width in Hlen. destruct (Nat.eqb_spec t 0); [lia|].
  unfold all_finished, nonzero_eq in Hall.
  assert (Hfull : Forall (fun i => (nth i (ls_idxs st) 0 =? 2) = true)
                         (seq 0 (length (ls_idxs st)))).
  { apply filter_full. rewrite Hall, length_seq. lia. }
  rewrite Forall_forall in Hfull.
  apply Nat.eqb_eq, Hfull, in_seq. lia.
Qed.

Lemma all_finished_columns (decs : list Decoder) (k max_len B t : nat)
      (st : loop_state) (b j : nat) :
  inv decs k max_len B t st -> 0 < t -> t <= max_len ->
  all_finished k B st -> b < B -> j < k ->
  In 2 (column (ls_beam st) b j).
Proof.
  intros Hinv Ht Htm Hall Hb Hj.
  destruct (inv_beam _ _ _ _ _ _ Hinv) as [Hbl Hbr].
  assert (Hrow : shape2 B k (nth (t - 1) (ls_beam st) [])).
  { rewrite Forall_forall in Hbr. apply Hbr, nth_In. lia. }
  assert (Htok : nth (t - 1) (column (ls_beam st) b j) 0 = 2).
  { rewrite column_nth by lia.
    rewrite <- (nth_concat_uniform k _ b j 0 (proj2 Hrow) Hj).
    rewrite <- (inv_link _ _ _ _ _ _ Hinv Ht).
    apply (all_finished_all_two decs k max_len B t st Hinv Ht Hall). nia. }
  rewrite <- Htok. apply nth_In. rewrite column_length. lia.
Qed.

Section LoopBreak.

Context `{TopK}.

Variable decs : list Decoder.
Variable vocab : Vocab.
Variables k max_len B : nat.
Variable suppress_unk : bool.

Let V := n_vocab vocab.

Hypothesis HB : 0 < B.
Hypothesis HV : 2 < V.
Hypothesis Hk : 0 < k.
Hypothesis HkV : k <= V.
Hypothesis Hdecs : decs <> [].
Hypothesis Hdok : Forall (decoder_ok V) decs.
Hypothesis Hunk : suppress_unk = true -> unk vocab < V.

Lemma step_loop_break_finished (n : nat) :
  forall t st st_b,
    inv decs k max_len B t st -> t + n = max_len ->
    (t = 0 -> ~ all_finished k B st) ->
    step_loop decs vocab k suppress_unk B n t st = Ok (Break st_b) ->
    forall b j, b < B -> j < k -> In 2 (column (ls_beam st_b) b j).
Proof.
  induction n as [|n IH]; intros t st st_b Hinv Hn Hfirst Hloop;
    simpl in Hloop; [discriminate|].
  destruct (step_cases decs vocab k max_len B suppress_unk HB HV Hk HkV
              Hdecs Hdok Hunk t st Hinv ltac:(lia))
    as [(Hall & st' & Hstep & Hbeam & _)
       |(_ & ctx_dicts & h_ts & raw & tops & _ & _ & Hstep & Hinv')];
    rewrite Hstep in Hloop; simpl in Hloop.
  - injection Hloop as <-. rewrite Hbeam.
    assert (Ht : 0 < t).
    { destruct t; [exfalso; now apply Hfirst|lia]. }
    intros b j Hb Hj.
    apply (all_finished_columns decs k max_len B t st b j Hinv Ht);
      [lia|assumption..].
  - apply (IH (S t) _ st_b Hinv'); [lia|discriminate|exact Hloop].
Qed.

End LoopBreak.

(** X21.  The loop is only left early with finished hypotheses: when the
    step loop ends by [break] (the start tokens not being all 2), every one
    of the [k] hypotheses of every sample contains the token 2. *)
Theorem break_means_all_finished `{TopK} (decs : list Decoder)
        (vocab : Vocab) (k max_len B : nat) (suppress_unk : bool)
        (st st_b : loop_state) :
  let V := n_vocab vocab in
  0 < B -> 2 < V -> 0 < k -> k <= V -> decs <> [] ->
  Forall (decoder_ok V) decs ->
  (suppress_unk = true -> unk vocab < V) ->
  inv decs k max_len B 0 st ->
  ~ all_finished k B st ->
  step_loop decs vocab k suppress_unk B max_len 0 st = Ok (Break st_b) ->
  forall b j, b < B -> j < k -> In 2 (column (ls_beam st_b) b j).
Proof.
  intros V HB HV Hk HkV Hdecs Hdok Hunk Hinv Hfirst Hloop.
  apply (step_loop_break_finished decs vocab k max_len B suppress_unk
           HB HV Hk HkV Hdecs Hdok Hunk max_len 0 st st_b Hinv eq_refl
           (fun _ => Hfirst) Hloop).
Qed.

(** ** Every slot reads the context of its own sample *)

Lemma sel_compose {A : Type} (d : A) (i1 i2 : list nat) (x : list (list A)) :
  Forall (fun j => j < length i1) i2 ->
  sel d i2 (sel d i1 x) = sel d (map (fun j => nth j i1 0) i2) x.
Proof.
  intros H2. unfold sel. rewrite map_map. apply map_ext. intros row.
  rewrite map_map. apply map_ext_in. intros j Hj.
  rewrite Forall_forall in H2.
  apply (nth_map_lt (fun i => nth i row d) i1 j 0 d). now apply H2.
Qed.

Lemma sel_entry_compose (i1 i2 : list nat)
      (e : string * (tensor3 * option mask_t)) :
  Forall (fun j => j < length i1) i2 ->
  sel_entry i2 (sel_entry i1 e) = sel_entry (map (fun j => nth j i1 0) i2) e.
Proof.
  intros H2. destruct e as [key [t [m|]]]; unfold sel_entry; simpl.
  - now rewrite !sel_compose.
  - now rewrite sel_compose.
Qed.

Lemma sel_entry_identity (N : nat) (cd : ctx_dict) :
  ctx_width N cd -> map (sel_entry (seq 0 N)) cd = cd.
Proof.
  intros Hw.
  assert (Hr : Forall (entry_in_range (seq 0 N)) cd).
  { apply (ctx_width_in_range N); [exact Hw|].
    rewrite Forall_forall. intros i Hi. apply in_seq in Hi. lia. }
  pose proof (tile_ctx_dict_ok cd (seq 0 N) Hr) as E1.
  assert (E2 : tile_ctx_dict cd (seq 0 N) = Ok cd).
  { clear E1 Hr. unfold tile_ctx_dict, ctx_width in *.
    induction Hw as [|[key [t mask]] cd [Ht Hm] _ IH]; simpl; [reflexivity|].
    simpl in Ht, Hm. rewrite (index_axis1_seq N t Ht). simpl.
    destruct mask as [m|].
    - rewrite (index_axis1_seq N m Hm). simpl. rewrite IH. reflexivity.
    - simpl. rewrite IH. reflexivity. }
  rewrite E1 in E2. now injection E2.
Qed.

(** The states the loop goes through from [st0]. *)
Inductive reach `{TopK} (decs : list Decoder) (vocab : Vocab) (k : nat)
          (suppress_unk : bool) (B : nat) (st0 : loop_state)
  : nat -> loop_state -> Prop :=
| reach_start : reach decs vocab k suppress_unk B st0 0 st0
| reach_step (t : nat) (st st' : loop_state) :
    reach decs vocab k suppress_unk B st0 t st ->
    step decs vocab k suppress_unk B t st = Ok (Continue st') ->
    reach decs vocab k suppress_unk B st0 (S t) st'.

(** The index list that sends slot [i] to its sample. *)
Definition own_sample (K B : nat) : list nat :=
  map (fun i => i / K) (seq 0 (B * K)).

Section OwnContext.

Context `{TopK}.

Variable decs : list Decoder.
Variable vocab : Vocab.
Variables k max_len B : nat.
Variable suppress_unk : bool.

Let V := n_vocab vocab.

Hypothesis HB : 0 < B.
Hypothesis HV : 2 < V.
Hypothesis Hk : 0 < k.
Hypothesis HkV : k <= V.
Hypothesis Hdecs : decs <> [].
Hypothesis Hdok : Forall (decoder_ok V) decs.
Hypothesis Hunk : suppress_unk = true -> unk vocab < V.

Variable st0 : loop_state.

Hypothesis Hinv0 : inv decs k max_len B 0 st0.
Hypothesis Hctx0 : Forall (ctx_width B) (ls_ctx st0).
Hypothesis Htile0 : ls_tile st0 = seq 0 B.

(** The contexts of a state are the encoders' contexts gathered at [idxs],
    and the tile sends slot [i] to a column that came from sample
    [i / width]. *)
Definition tracks (t : nat) (st : loop_state) : Prop :=
  exists idxs,
    ls_ctx st = map (map (sel_entry idxs)) (ls_ctx st0)
    /\ forall i, i < B * width k t ->
         nth i (ls_tile st) 0 < length idxs
         /\ nth (nth i (ls_tile st) 0) idxs 0 = i / width k t.

(** What [step_prepare] tiles. *)
Lemma step_prepare_ctx (t : nat) (st : loop_state) ctx_dicts h_ts raw fin :
  inv decs k max_len B t st ->
  step_prepare decs vocab suppress_unk st = Ok (ctx_dicts, h_ts, raw, fin) ->
  ctx_dicts = map (map (sel_entry (ls_tile st))) (ls_ctx st).
Proof.
  intros Hinv Hp. unfold step_prepare in Hp.
  apply bind_ok_inv in Hp as (cds & Hcds & Hp).
  apply bind_ok_inv in Hp as (outs & _ & Hp).
  apply bind_ok_inv in Hp as (summed & _ & Hp).
  apply bind_ok_inv in Hp as (raw' & _ & Hp).
  injection Hp as <- _ _ _.
  destruct (inv_rows _ _ _ _ _ _ Hinv) as (M & Htile & _ & Hcw).
  rewrite (mapM_ok _ (map (sel_entry (ls_tile st)))) in Hcds.
  - now injection Hcds.
  - eapply Forall_impl; [|exact Hcw]. intros cd Hcd.
    apply tile_ctx_dict_ok. now apply (ctx_width_in_range M).
Qed.

Lemma tracks_prepared (t : nat) (st : loop_state) :
  inv decs k max_len B t st -> tracks t st ->
  map (map (sel_entry (ls_tile st))) (ls_ctx st)
  = map (map (sel_entry (own_sample (width k t) B))) (ls_ctx st0).
Proof.
  intros Hinv (idxs & Hctx & Htile).
  rewrite Hctx, map_map. apply map_ext. intros cd.
  rewrite map_map. apply map_ext. intros e.
  rewrite sel_entry_compose.
  - f_equal. unfold own_sample.
    apply (nth_ext _ _ 0 0).
    + now rewrite !length_map, length_seq, (inv_tile _ _ _ _ _ _ Hinv).
    + intros i Hi. rewrite length_map, (inv_tile _ _ _ _ _ _ Hinv) in Hi.
      rewrite (nth_map_lt _ (ls_tile st) i 0 0)
        by (now rewrite (inv_tile _ _ _ _ _ _ Hinv)).
      rewrite (nth_map_lt _ (seq 0 (B * width k t)) i 0 0)
        by (now rewrite length_seq).
      rewrite seq_nth by exact Hi. simpl.
      apply (Htile i Hi).
  - apply (Forall_of_nth _ _ 0). intros i Hi.
    rewrite (inv_tile _ _ _ _ _ _ Hinv) in Hi. apply (Htile i Hi).
Qed.

Lemma reach_tracks (t : nat) (st : loop_state) :
  reach decs vocab k suppress_unk B st0 t st -> t <= max_len ->
  inv decs k max_len B t st /\ tracks t st.
Proof.
  induction 1 as [|t st st' _ IH Hstep]; intros Ht.
  - split; [exact Hinv0|].
    exists (seq 0 B). split.
    + rewrite <- (map_id (ls_ctx st0)) at 1.
      apply map_ext_in. intros cd Hcd. symmetry.
      apply sel_entry_identity.
      rewrite Forall_forall in Hctx0. now apply Hctx0.
    + intros i Hi. change (width k 0) with 1 in Hi |- *.
      rewrite Htile0, length_seq, !seq_nth by lia.
      rewrite Nat.div_1_r. cbn [Nat.add]. lia.
  - destruct (IH ltac:(lia)) as [Hinv Htr].
    destruct (step_cases decs vocab k max_len B suppress_unk HB HV Hk HkV
                Hdecs Hdok Hunk t st Hinv ltac:(lia))
      as [(_ & st_b & Hbreak & _)|(Hnall & _)].
    { rewrite Hbreak in Hstep. discriminate. }
    destruct (step_continue_selected decs vocab k max_len B suppress_unk
                HB HV Hk HkV Hdecs Hdok Hunk t st Hinv ltac:(lia) Hnall)
      as (ctx_dicts & h_ts & raw & tops & Hprep & _ & Hlp & Htops & Hsel
          & Hinv').
    rewrite Hsel in Hstep. injection Hstep as <-.
    split; [exact Hinv'|].
    exists (own_sample (width k t) B). split.
    + unfold selected. cbn [ls_ctx].
      rewrite (step_prepare_ctx t st _ _ _ _ Hinv Hprep).
      now apply tracks_prepared.
    + intros i Hi.
      assert (Hwk : width k (S t) = k) by reflexivity.
      rewrite Hwk in Hi |- *.
      assert (Hb : i / k < B) by (apply Nat.Div0.div_lt_upper_bound; lia).
      assert (Hj : i mod k < k) by (apply Nat.mod_upper_bound; lia).
      assert (Hi' : i = i / k * k + i mod k).
      { pose proof (Nat.div_mod_eq i k). lia. }
      destruct (selected_slot V k B (width k t) t st ctx_dicts h_ts _ tops
                  (i / k) (i mod k) ltac:(lia) eq_refl
                  (inv_nll _ _ _ _ _ _ Hinv) Hlp Htops Hb Hj)
        as (Hanc & _ & _ & _ & Htile & _).
      rewrite <- Hi' in Htile. fold V. rewrite Htile.
      set (a := nth (i mod k) (nth (i / k) (map snd tops) []) 0 / V) in *.
      unfold own_sample. rewrite length_map, length_seq.
      assert (Hlt : i / k * width k t + a < B * width k t) by nia.
      split; [exact Hlt|].
      rewrite (nth_map_lt _ (seq 0 (B * width k t)) _ 0 0)
        by (now rewrite length_seq).
      rewrite seq_nth by exact Hlt. simpl.
      rewrite Nat.div_add_l by lia.
      rewrite (Nat.div_small a) by exact Hanc. lia.
Qed.

End OwnContext.

(** X22.  Every beam slot reads the source context of its own sample: at
    every step the loop reaches, the contexts handed to the decoders are the
    encoders' contexts gathered so that column [i] is the column of sample
    [i / 1] at the first step and [i / k] afterwards, however the ancestors
    were chosen. *)
Theorem slots_read_own_context `{TopK} (decs : list Decoder) (vocab : Vocab)
        (k max_len B : nat) (suppress_unk : bool) (st0 : loop_state)
        (t : nat) (st : loop_state) :
  let V := n_vocab vocab in
  0 < B -> 2 < V -> 0 < k -> k <= V -> decs <> [] ->
  Forall (decoder_ok V) decs ->
  (suppress_unk = true -> unk vocab < V) ->
  inv decs k max_len B 0 st0 ->
  Forall (ctx_width B) (ls_ctx st0) ->
  ls_tile st0 = seq 0 B ->
  reach decs vocab k suppress_unk B st0 t st -> t < max_len ->
  exists ctx_dicts h_ts raw fin,
    step_prepare decs vocab suppress_unk st = Ok (ctx_dicts, h_ts, raw, fin)
    /\ ctx_dicts
       = map (map (sel_entry (own_sample (width k t) B))) (ls_ctx st0).
Proof.
  intros V HB HV Hk HkV Hdecs Hdok Hunk Hinv0 Hctx0 Htile0 Hreach Ht.
  destruct (reach_tracks decs vocab k max_len B suppress_unk HB HV Hk HkV
              Hdecs Hdok Hunk st0 Hinv0 Hctx0 Htile0 t st Hreach
              ltac:(lia)) as [Hinv Htr].
  destruct (step_common decs vocab k max_len B suppress_unk HB HV Hk HkV
              Hdecs Hdok Hunk t st Hinv Ht)
    as (ctx_dicts & h_ts & raw & tops & Hprep & _).
  exists ctx_dicts, h_ts, raw, (nonzero_eq 2 (ls_idxs st)).
  split; [exact Hprep|].
  rewrite (step_prepare_ctx decs vocab k max_len B suppress_unk t st _ _ _ _
             Hinv Hprep).
  now apply (tracks_prepared decs k max_len B st0 t st).
Qed.
(** ** Worked instances of the properties above *)

Module Witness2.

Definition wide_loader : DataLoader :=
  {| batch_sampler := {| batch_size := 2;
                         store_indices := false;
                         orig_idxs := [] |};
     batches := [Toy.batch_of [[4]]; Toy.batch_of [[4]; [5]; [4]]] |}.

Definition other_vocab : Vocab :=
  {| unk := 1; eos := 0; n_vocab := 3; word := fun _ => "x"%string |}.

(** [PinExample.model] with another vocabulary and other start tokens. *)
Definition other_model : Model :=
  {| dec := dec PinExample.model;
     get_decoder := get_decoder PinExample.model;
     trg_vocab := other_vocab;
     vocabs := fun _ => other_vocab;
     encode := encode PinExample.model;
     get_bos := fun n => repeat 2 n |}.

End Witness2.

Lemma toy_standing (d : Decoder) (su : bool) :
  decoder_ok 6 d ->
  0 < 1 /\ 2 < n_vocab Toy.vocab6 /\ 0 < 2 /\ 2 <= n_vocab Toy.vocab6
  /\ [d] <> [] /\ Forall (decoder_ok (n_vocab Toy.vocab6)) [d]
  /\ (su = true -> unk Toy.vocab6 < n_vocab Toy.vocab6).
Proof.
  intros Hd. simpl. repeat split; try lia; try discriminate.
  constructor; [exact Hd|constructor].
Qed.

Lemma tile_ctx_dict_compose_witness :
  exists cd1 cd2,
    tile_ctx_dict Witness.vals0 [1; 1; 0] = Ok cd1
    /\ Forall (fun j => j < 3) [2; 0]
    /\ tile_ctx_dict cd1 [2; 0] = Ok cd2
    /\ tile_ctx_dict Witness.vals0 [0; 1] = Ok cd2.
Proof.
  assert (H1 : exists cd1, tile_ctx_dict Witness.vals0 [1; 1; 0] = Ok cd1)
    by (eexists; vm_compute; reflexivity).
  destruct H1 as (cd1 & H1).
  assert (H2 : Forall (fun j => j < length [1; 1; 0]) [2; 0])
    by (repeat constructor).
  destruct (tile_ctx_dict_compose Witness.vals0 cd1 [1; 1; 0] [2; 0] H1 H2)
    as (cd2 & H3 & H4).
  exists cd1, cd2. auto.
Defined.

Lemma tile_ctx_dict_identity_witness :
  ctx_width 2 Witness.vals0
  /\ tile_ctx_dict Witness.vals0 (seq 0 2) = Ok Witness.vals0.
Proof.
  assert (Hw : ctx_width 2 Witness.vals0).
  { unfold ctx_width, Witness.vals0. repeat constructor. }
  split; [exact Hw|]. exact (tile_ctx_dict_identity 2 Witness.vals0 Hw).
Defined.

Lemma pin_example_not_finished : ~ all_finished 2 1 PinExample.st0.
Proof. vm_compute. discriminate. Qed.

Lemma step_keeps_k_best_witness :
  inv [PinExample.decoder] 2 3 1 0 PinExample.st0
  /\ ~ all_finished 2 1 PinExample.st0
  /\ exists st',
       step [PinExample.decoder] Toy.vocab6 2 false 1 0 PinExample.st0
       = Ok (Continue st')
       /\ exists a, a < 1 /\ nth 0 (ls_tile st') 0 = a.
Proof.
  split; [exact pin_example_inv0|]. split; [exact pin_example_not_finished|].
  destruct (toy_standing PinExample.decoder false (table_decoder_ok 6 _))
    as (HB & HV & Hk & HkV & Hdecs & Hdok & Hunk).
  destruct (step_keeps_k_best [PinExample.decoder] Toy.vocab6 2 3 1 false 0
              PinExample.st0 HB HV Hk HkV Hdecs Hdok Hunk pin_example_inv0
              ltac:(lia) pin_example_not_finished)
    as (ctx_dicts & h_ts & raw & st' & _ & Hstep & Hslots).
  exists st'. split; [exact Hstep|].
  destruct (Hslots 0 0 ltac:(lia) ltac:(lia)) as (a & Ha & Htile & _).
  exists a. split; [exact Ha|]. simpl in Htile. exact Htile.
Defined.

Lemma suppressed_unk_costs_inf_witness :
  unk Toy.vocab6 < n_vocab Toy.vocab6 /\ unk Toy.vocab6 <> 2
  /\ exists st',
       step [PinExample.decoder] Toy.vocab6 2 true 1 0 PinExample.st0
       = Ok (Continue st')
       /\ forall j, j < 2 -> nth j (ls_idxs st') 0 = unk Toy.vocab6 ->
            exists a,
              a < 1
              /\ nth j (nth 0 (ls_nll st') []) 0%Qc
                 = (nth a (nth 0 (ls_nll PinExample.st0) []) 0 + inf)%Qc.
Proof.
  assert (Hu : unk Toy.vocab6 < n_vocab Toy.vocab6) by (simpl; lia).
  assert (Hne : unk Toy.vocab6 <> 2) by (simpl; lia).
  split; [exact Hu|]. split; [exact Hne|].
  destruct (toy_standing PinExample.decoder true (table_decoder_ok 6 _))
    as (HB & HV & Hk & HkV & Hdecs & Hdok & _).
  destruct (suppressed_unk_costs_inf [PinExample.decoder] Toy.vocab6 2 3 1 0
              PinExample.st0 HB HV Hk HkV Hdecs Hdok Hu Hne pin_example_inv0
              ltac:(lia) pin_example_not_finished)
    as (st' & Hstep & Hslots).
  exists st'. split; [exact Hstep|].
  intros j Hj Htok.
  destruct (Hslots 0 j ltac:(lia) Hj Htok) as (a & Ha & _ & Hscore).
  exists a. split; [exact Ha|exact Hscore].
Defined.

Lemma ensemble_scores_sum_witness :
  Forall (shape2 1 6) [Witness.log_p0; Witness.log_p0; Witness.log_p0]
  /\ exists m,
       sum_tensors [Witness.log_p0; Witness.log_p0; Witness.log_p0] = Ok m
       /\ nth 4 (nth 0 m []) 0%Qc = (qc (-1) + qc (-1) + qc (-1))%Qc.
Proof.
  assert (Hsh : Forall (shape2 1 6)
                       [Witness.log_p0; Witness.log_p0; Witness.log_p0]).
  { repeat constructor. }
  split; [exact Hsh|].
  destruct (ensemble_scores_sum 1 6 Witness.log_p0
              [Witness.log_p0; Witness.log_p0] Hsh) as (m & Hm & _ & Hnth).
  exists m. split; [exact Hm|].
  rewrite (Hnth 0 4) by lia. reflexivity.
Defined.

Lemma fit_nonpos (V : nat) (row : list Qc) :
  Forall (fun x => (x <= 0)%Qc) row ->
  Forall (fun x => (x <= 0)%Qc) (Toy.fit V row).
Proof.
  intros Hrow. unfold Toy.fit. apply Forall_firstn_of.
  apply Forall_app. split; [exact Hrow|].
  rewrite Forall_forall. intros x Hx. apply repeat_spec in Hx as ->.
  exact inf_nonpos.
Qed.

Lemma table_log_probs (V : nat) (dist : nat -> nat -> list Qc) :
  (forall s p, Forall (fun x => (x <= 0)%Qc) (dist s p)) ->
  log_probs (Toy.table_decoder V dist).
Proof.
  intros Hdist cd e h. simpl.
  apply (Forall_of_nth _ _ []). intros i Hi. rewrite length_imap in Hi.
  rewrite (nth_imap _ h i [] []) by exact Hi.
  apply fit_nonpos, Hdist.
Qed.

Lemma pin_example_log_probs : log_probs PinExample.decoder.
Proof.
  apply table_log_probs. intros s p. unfold PinExample.dist, Toy.row6.
  destruct p as [|[|[|[|[|p]]]]];
    repeat constructor; unfold Qcle, Qle; simpl; lia.
Qed.

Lemma scores_never_increase_witness :
  Forall log_probs [PinExample.decoder]
  /\ exists st',
       step [PinExample.decoder] Toy.vocab6 2 false 1 0 PinExample.st0
       = Ok (Continue st')
       /\ forall j, j < 2 ->
            exists a,
              a < 1
              /\ (nth j (nth 0 (ls_nll st') []) 0
                  <= nth a (nth 0 (ls_nll PinExample.st0) []) 0)%Qc.
Proof.
  assert (Hlp : Forall log_probs [PinExample.decoder]).
  { constructor; [exact pin_example_log_probs|constructor]. }
  split; [exact Hlp|].
  destruct (toy_standing PinExample.decoder false (table_decoder_ok 6 _))
    as (HB & HV & Hk & HkV & Hdecs & Hdok & Hunk).
  destruct (scores_never_increase [PinExample.decoder] Toy.vocab6 2 3 1 false
              0 PinExample.st0 HB HV Hk HkV Hdecs Hdok Hunk Hlp
              pin_example_inv0 ltac:(lia) pin_example_not_finished)
    as (st' & Hstep & Hslots).
  exists st'. split; [exact Hstep|].
  intros j Hj. destruct (Hslots 0 j ltac:(lia) Hj) as (a & Ha & _ & Hle).
  exists a. split; [exact Ha|exact Hle].
Defined.

Lemma decoded_ids_in_vocabulary_witness :
  eos Toy.vocab6 < n_vocab Toy.vocab6
  /\ exists c beam norm hyps,
       step_loop [PinExample.decoder] Toy.vocab6 2 false 1 3 0 PinExample.st0
       = Ok c
       /\ finalize Toy.vocab6 2 3 0%Qc 1 (ctl_state c) = Ok (beam, norm, hyps)
       /\ Forall (Forall (fun x => x < 6)) hyps.
Proof.
  assert (He : eos Toy.vocab6 < n_vocab Toy.vocab6) by (simpl; lia).
  split; [exact He|].
  destruct (toy_standing PinExample.decoder false (table_decoder_ok 6 _))
    as (HB & HV & Hk & HkV & Hdecs & Hdok & Hunk).
  destruct (decoded_ids_in_vocabulary [PinExample.decoder] Toy.vocab6 2 3 1
              false 0%Qc PinExample.st0 HB HV Hk HkV Hdecs Hdok Hunk
              ltac:(lia) He pin_example_inv0)
    as (c & beam & norm & hyps & Hloop & Hfin & _ & Hhyps).
  exists c, beam, norm, hyps. auto.
Defined.

Lemma hypotheses_end_with_eos_witness :
  exists c beam norm hyps,
    step_loop [PinExample.decoder] Toy.vocab6 2 false 1 3 0 PinExample.st0
    = Ok c
    /\ finalize Toy.vocab6 2 3 0%Qc 1 (ctl_state c) = Ok (beam, norm, hyps)
    /\ length hyps = 1
    /\ Forall (fun h => length h = 3 /\ nth 2 h 0 = 2) hyps.
Proof.
  destruct (toy_standing PinExample.decoder false (table_decoder_ok 6 _))
    as (HB & HV & Hk & HkV & Hdecs & Hdok & Hunk).
  destruct (hypotheses_end_with_eos [PinExample.decoder] Toy.vocab6 2 3 1
              false 0%Qc PinExample.st0 HB HV Hk HkV Hdecs Hdok Hunk
              ltac:(lia) pin_example_inv0)
    as (c & beam & norm & hyps & Hloop & Hfin & Hl & Hhyps).
  exists c, beam, norm, hyps. auto.
Defined.

Lemma best_normalised_hypothesis_witness :
  exists c beam norm hyps,
    step_loop [PinExample.decoder] Toy.vocab6 2 false 1 3 0 PinExample.st0
    = Ok c
    /\ finalize Toy.vocab6 2 3 0%Qc 1 (ctl_state c) = Ok (beam, norm, hyps)
    /\ exists j,
         j < 2
         /\ nth 0 hyps [] = column beam 0 j
         /\ forall j', j' < 2 ->
              (nth j' (nth 0 norm []) 0 <= nth j (nth 0 norm []) 0)%Qc.
Proof.
  destruct (toy_standing PinExample.decoder false (table_decoder_ok 6 _))
    as (HB & HV & Hk & HkV & Hdecs & Hdok & Hunk).
  destruct (best_normalised_hypothesis [PinExample.decoder] Toy.vocab6 2 3 1
              false 0%Qc PinExample.st0 HB HV Hk HkV Hdecs Hdok Hunk
              ltac:(lia) pin_example_inv0)
    as (c & beam & norm & hyps & Hloop & Hfin & _ & Hpick).
  exists c, beam, norm, hyps. split; [exact Hloop|]. split; [exact Hfin|].
  exact (Hpick 0 ltac:(lia)).
Defined.

Lemma length_penalty_divisor_witness :
  0 < 1 /\ 0 < 6 /\ post 1 6 1 Witness.done5
  /\ exists beam norm hyps,
       finalize Toy.vocab6 1 6 1%Qc 1 Witness.done5 = Ok (beam, norm, hyps)
       /\ nth 0 (nth 0 norm []) 0%Qc = (qc (-3) / (qc 10 / qc 6))%Qc
       /\ nth 0 hyps [] = [4; 4; 5; 4; 5; 2].
Proof.
  assert (Hpost : post 1 6 1 Witness.done5).
  { split; [|split].
    - split; [reflexivity|]. repeat constructor.
    - split; [reflexivity|]. repeat constructor.
    - discriminate. }
  split; [lia|]. split; [lia|]. split; [exact Hpost|].
  destruct (length_penalty_divisor Toy.vocab6 1 6 1 1%Qc Witness.done5
              ltac:(lia) ltac:(lia) Hpost)
    as (beam & norm & hyps & Hfin & Hbeam & Hdiv & Hpick).
  exists beam, norm, hyps. split; [exact Hfin|].
  destruct (Hdiv 0 0 ltac:(lia) ltac:(lia)) as (d & Hnorm & _ & _ & Hten).
  destruct (Hpick 0 ltac:(lia)) as (j & Hj & Hcol & _).
  split.
  - rewrite Hnorm, Hten; [reflexivity|reflexivity|].
    rewrite Hbeam. reflexivity.
  - rewrite Hcol, Hbeam. replace j with 0 by lia. reflexivity.
Defined.

Lemma beam_hypotheses_distinct_witness :
  exists c,
    step_loop [PinExample.decoder] Toy.vocab6 2 false 1 3 0 PinExample.st0
    = Ok c
    /\ column (ls_beam (ctl_state c)) 0 0 <> column (ls_beam (ctl_state c)) 0 1.
Proof.
  destruct (toy_standing PinExample.decoder false (table_decoder_ok 6 _))
    as (HB & HV & Hk & HkV & Hdecs & Hdok & Hunk).
  destruct (beam_hypotheses_distinct [PinExample.decoder] Toy.vocab6 2 3 1
              false PinExample.st0 HB HV Hk HkV Hdecs Hdok Hunk
              ltac:(lia) pin_example_inv0)
    as (c & Hloop & Hd).
  exists c. split; [exact Hloop|]. apply Hd; lia.
Defined.

Lemma oversized_batch_fails_witness :
  2 < 3
  /\ beam_search [PinExample.model] Witness2.wide_loader None 2%Z 3%Z 0%Qc
                 false = Err RuntimeError.
Proof.
  split; [lia|].
  apply (oversized_batch_fails [PinExample.model] Witness2.wide_loader None
           2%Z 3%Z 0%Qc false [PinExample.decoder] Toy.vocab6 None
           [Toy.batch_of [[4]]] (Toy.batch_of [[4]; [5]; [4]]) []).
  - reflexivity.
  - apply table_call_ok; simpl; lia.
  - reflexivity.
  - constructor; [|constructor]. apply table_batch_ok. simpl. lia.
  - simpl. lia.
Defined.

Lemma beam_wider_than_vocabulary_fails_witness :
  (Z.of_nat (n_vocab Toy.vocab6) < 7)%Z
  /\ beam_search [PinExample.model] Witness.loader None 7%Z 3%Z 0%Qc false
     = Err RuntimeError.
Proof.
  split; [simpl; lia|].
  apply (beam_wider_than_vocabulary_fails [PinExample.model] Witness.loader
           None 7%Z 3%Z 0%Qc false [PinExample.decoder] Toy.vocab6 None
           (Toy.batch_of [[4]; [5]]) [Toy.batch_of [[4]]]).
  - reflexivity.
  - simpl. lia.
  - simpl. lia.
  - lia.
  - constructor; [apply table_decoder_ok|constructor].
  - discriminate.
  - reflexivity.
  - apply table_batch_ok. simpl. lia.
Defined.

Lemma only_first_vocabulary_read_witness :
  Forall2 same_decoding [PinExample.model] [Witness2.other_model]
  /\ beam_search [PinExample.model; PinExample.model] Witness.loader None
                 2%Z 3%Z 0%Qc false
     = beam_search [PinExample.model; Witness2.other_model] Witness.loader
                   None 2%Z 3%Z 0%Qc false.
Proof.
  assert (Hs : Forall2 same_decoding [PinExample.model]
                       [Witness2.other_model]).
  { constructor; [|constructor]. repeat split. }
  split; [exact Hs|].
  exact (only_first_vocabulary_read PinExample.model [PinExample.model]
           [Witness2.other_model] Witness.loader None 2%Z 3%Z 0%Qc false Hs).
Defined.
Lemma exit_example_not_finished : ~ all_finished 2 1 ExitExample.st0_ok.
Proof. vm_compute. discriminate. Qed.

Lemma break_means_all_finished_witness :
  exists st_b,
    step_loop [ExitExample.decoder_ok] Toy.vocab6 2 false 1 4 0
              ExitExample.st0_ok = Ok (Break st_b)
    /\ In 2 (column (ls_beam st_b) 0 0)
    /\ In 2 (column (ls_beam st_b) 0 1).
Proof.
  assert (Hloop : exists st_b,
             step_loop [ExitExample.decoder_ok] Toy.vocab6 2 false 1 4 0
                       ExitExample.st0_ok = Ok (Break st_b))
    by (eexists; vm_compute; reflexivity).
  destruct Hloop as (st_b & Hloop).
  destruct (toy_standing ExitExample.decoder_ok false (table_decoder_ok 6 _))
    as (HB & HV & Hk & HkV & Hdecs & Hdok & Hunk).
  pose proof (break_means_all_finished [ExitExample.decoder_ok] Toy.vocab6
                2 4 1 false ExitExample.st0_ok st_b HB HV Hk HkV Hdecs Hdok
                Hunk exit_example_inv0 exit_example_not_finished Hloop)
    as Hfin.
  exists st_b. split; [exact Hloop|].
  split; apply Hfin; lia.
Defined.

Lemma slots_read_own_context_witness :
  exists st1 ctx_dicts h_ts raw fin,
    reach [PinExample.decoder] Toy.vocab6 2 false 1 PinExample.st0 1 st1
    /\ step_prepare [PinExample.decoder] Toy.vocab6 false st1
       = Ok (ctx_dicts, h_ts, raw, fin)
    /\ ctx_dicts = map (map (sel_entry [0; 0])) (ls_ctx PinExample.st0).
Proof.
  assert (Hstep : exists st1,
             step [PinExample.decoder] Toy.vocab6 2 false 1 0 PinExample.st0
             = Ok (Continue st1))
    by (eexists; vm_compute; reflexivity).
  destruct Hstep as (st1 & Hstep).
  assert (Hreach : reach [PinExample.decoder] Toy.vocab6 2 false 1
                         PinExample.st0 1 st1).
  { eapply reach_step; [apply reach_start|exact Hstep]. }
  assert (Hctx : Forall (ctx_width 1) (ls_ctx PinExample.st0)).
  { repeat constructor. }
  destruct (toy_standing PinExample.decoder false (table_decoder_ok 6 _))
    as (HB & HV & Hk & HkV & Hdecs & Hdok & Hunk).
  destruct (slots_read_own_context [PinExample.decoder] Toy.vocab6 2 3 1
              false PinExample.st0 1 st1 HB HV Hk HkV Hdecs Hdok Hunk
              pin_example_inv0 Hctx eq_refl Hreach ltac:(lia))
    as (ctx_dicts & h_ts & raw & fin & Hprep & Hown).
  exists st1, ctx_dicts, h_ts, raw, fin.
  split; [exact Hreach|]. split; [exact Hprep|exact Hown].
Defined.
(** * The optimizer wrapper ([optimizer.py])

    [Optimizer.get_params] and [Optimizer.__init__]
    (src/MMT/nmtpytorch/optimizer.py, lines 32-114): the selection of the
    trainable parameters, the keyword arguments, the parameter groups and
    the check that every parameter went to a group.  The torch optimizer
    classes and the plateau scheduler are interfaces. *)

Module Optim.

(** A parameter tensor, by identity, with the flag [get_params] reads. *)
Record Param : Type := {
  pid : nat;
  requires_grad : bool
}.

(** [model.named_parameters()], in the model's order. *)
Definition named_parameters := list (string * Param).

(** A parameter group as handed to torch: ['params'] and, where the code
    gives one, ['weight_decay']. *)
Record Group : Type := {
  params : list Param;
  weight_decay : option Qc
}.

(** A keyword argument's value. *)
Inductive arg : Type :=
| Num (q : Qc)
| Flag (b : bool).

(** [sub in s] on strings: [sub] occurs in [s]. *)
Fixpoint contains (sub s : string) : bool :=
  String.prefix sub s
  || match s with
     | String.EmptyString => false
     | String.String _ s' => contains sub s'
     end.

(** The keys of the class dict [methods] (lines 22-30). *)
Definition methods : list string :=
  ["adadelta"; "adagrad"; "adam"; "sgd"; "asgd"; "rprop";
   "rmsprop"]%string.

(** Lines 32-36. *)
Definition get_params (model : named_parameters) : named_parameters :=
  filter (fun p => requires_grad (snd p)) model.

(** Lines 55-62: [lr] only when given, the momentum arguments only for
    sgd. *)
Definition optim_args (name : string) (lr momentum : Qc) (nesterov : bool)
  : list (string * arg) :=
  (if Qcltb 0%Qc lr then [("lr"%string, Num lr)] else [])
  ++ (if String.eqb name "sgd"%string
      then [("momentum"%string, Num momentum);
            ("nesterov"%string, Flag nesterov)]
      else []).

Definition no_discriminator (np : string * Param) : bool :=
  negb (contains "discriminator"%string (fst np)).

Definition is_bias (np : string * Param) : bool :=
  contains "bias"%string (fst np).

(** Lines 72-83. *)
Definition param_groups (wd : Qc) (named : named_parameters) : list Group :=
  if Qcltb 0%Qc wd then
    [ {| params := map snd (filter (fun np => negb (is_bias np)
                                              && no_discriminator np) named);
         weight_decay := Some wd |};
      {| params := map snd (filter (fun np => is_bias np
                                              && no_discriminator np) named);
         weight_decay := None |} ]
  else
    [ {| params := map snd (filter no_discriminator named);
         weight_decay := None |} ].

(** Lines 86-88: what is left of [len(self.params)] after every group's
    size was subtracted. *)
Definition unassigned (ps : list Param) (groups : list Group) : Z :=
  fold_left (fun n g => (n - Z.of_nat (length (params g)))%Z) groups
            (Z.of_nat (length ps)).

(** Line 89: whether the warning is printed. *)
Definition warns (ps : list Param) (groups : list Group) : bool :=
  negb (unassigned ps groups =? 0)%Z.

(** The torch optimizer object as far as the class reads it:
    [defaults['lr']] and [param_groups[0]['lr']]. *)
Record TorchOptimizer : Type := {
  defaults_lr : Qc;
  first_group_lr : Qc
}.

(** What the class calls of torch: an optimizer class applied to the groups
    and keyword arguments (no result when the constructor raises), and the
    plateau scheduler's constructor. *)
Class Torch : Type := {
  construct : string -> list Group -> list (string * arg)
              -> option TorchOptimizer;
  Scheduler : Type;
  ReduceLROnPlateau : TorchOptimizer -> string -> Qc -> nat -> Qc -> Scheduler
}.

Inductive raised : Type :=
| KeyError       (* [methods[name]] for a name that is no key *)
| TorchRaised.   (* raised inside the torch constructor *)

(** The attributes [__init__] sets. *)
Record Optimizer `{Torch} : Type := {
  name : string;
  model : named_parameters;
  initial_lr : Qc;
  lr_decay : bool;
  lr_decay_factor : Qc;
  lr_decay_mode : string;
  lr_decay_patience : nat;
  lr_decay_min : Qc;
  momentum : Qc;
  nesterov : bool;
  weight_decay_arg : Qc;
  gclip : Qc;
  args : list (string * arg);
  named_params : named_parameters;
  all_params : list Param;
  groups : list Group;
  optim : TorchOptimizer;
  cur_lr : Qc;
  step_clips : bool;          (* [self.step] is [self._step] *)
  scheduler : option Scheduler
}.

(** [Optimizer.__init__] (lines 38-114): whether the warning was printed,
    and the object or the exception. *)
Definition init `{Torch} (name : string) (model : named_parameters)
           (lr momentum : Qc) (nesterov : bool) (wd gclip : Qc)
           (lr_decay : bool) (lr_decay_factor : Qc) (lr_decay_mode : string)
           (lr_decay_patience : nat) (lr_decay_min : Qc)
  : bool * (Optimizer + raised) :=
  let args := optim_args name lr momentum nesterov in
  let named := get_params model in
  let ps := map snd named in
  let groups := param_groups wd named in
  (warns ps groups,
   if existsb (String.eqb name) methods then
     match construct name groups args with
     | Some o =>
         inl {| name := name;
                model := model;
                initial_lr := defaults_lr o;
                lr_decay := lr_decay;
                lr_decay_factor := lr_decay_factor;
                lr_decay_mode := lr_decay_mode;
                lr_decay_patience := lr_decay_patience;
                lr_decay_min := lr_decay_min;
                momentum := momentum;
                nesterov := nesterov;
                weight_decay_arg := wd;
                gclip := gclip;
                args := args;
                named_params := named;
                all_params := ps;
                groups := groups;
                optim := o;
                cur_lr := defaults_lr o;
                step_clips := if Qc_eq_dec gclip 0%Qc then false else true;
                scheduler :=
                  if lr_decay
                  then Some (ReduceLROnPlateau o lr_decay_mode lr_decay_factor
                                               lr_decay_patience lr_decay_min)
                  else None |}
     | None => inr TorchRaised
     end
   else inr KeyError).

(** [get_lr] (lines 132-134). *)
Definition get_lr `{Torch} (o : Optimizer) : Qc := first_group_lr (optim o).

End Optim.

(** ** The parameter groups *)

Lemma filter_split_perm {A : Type} (f : A -> bool) (l : list A) :
  Permutation (filter (fun x => negb (f x)) l ++ filter f l) l.
Proof.
  induction l as [|a l IH]; simpl; [constructor|].
  destruct (f a); simpl.
  - apply Permutation_sym, Permutation_cons_app, Permutation_sym, IH.
  - now constructor.
Qed.

Lemma filter_and {A : Type} (f g : A -> bool) (l : list A) :
  filter (fun x => f x && g x) l = filter f (filter g l).
Proof.
  induction l as [|a l IH]; simpl; [reflexivity|].
  destruct (g a); simpl.
  - rewrite andb_true_r. destruct (f a); now rewrite IH.
  - rewrite andb_false_r. exact IH.
Qed.

Lemma param_groups_perm (wd : Qc) (named : Optim.named_parameters) :
  Permutation (concat (map Optim.params (Optim.param_groups wd named)))
              (map snd (filter Optim.no_discriminator named)).
Proof.
  unfold Optim.param_groups. destruct (Qcltb 0 wd); simpl.
  - rewrite app_nil_r, <- map_app. apply Permutation_map.
    rewrite !filter_and. apply (filter_split_perm Optim.is_bias).
  - now rewrite app_nil_r.
Qed.

(** X16.  The parameter groups hold exactly the trainable parameters whose
    name does not contain 'discriminator', each as often as the model lists
    it; and every parameter of a group that carries a weight decay is listed
    under a name containing neither 'bias' nor 'discriminator'. *)
Theorem optimizer_groups_partition (wd : Qc) (model : Optim.named_parameters) :
  let named := Optim.get_params model in
  let groups := Optim.param_groups wd named in
  Permutation (concat (map Optim.params groups))
              (map snd (filter Optim.no_discriminator named))
  /\ forall g p, In g groups -> Optim.weight_decay g <> None ->
       In p (Optim.params g) ->
       exists n, In (n, p) named
                 /\ Optim.contains "bias"%string n = false
                 /\ Optim.contains "discriminator"%string n = false.
Proof.
  intros named groups. split; [apply param_groups_perm|].
  unfold groups, Optim.param_groups.
  destruct (Qcltb 0 wd); simpl.
  - intros g p [<-|[<-|[]]] Hwd Hp; simpl in *; [|congruence].
    apply in_map_iff in Hp as ([n q] & <- & Hin).
    apply filter_In in Hin as [Hin Hf].
    apply andb_true_iff in Hf as [Hb Hd].
    exists n. split; [exact Hin|].
    unfold Optim.is_bias, Optim.no_discriminator in *. simpl in *.
    split; [now apply negb_true_iff|now apply negb_true_iff].
  - intros g p [<-|[]] Hwd _. simpl in Hwd. congruence.
Qed.

Lemma unassigned_sum (ps : list Optim.Param) (groups : list Optim.Group) :
  Optim.unassigned ps groups
  = (Z.of_nat (length ps)
     - Z.of_nat (length (concat (map Optim.params groups))))%Z.
Proof.
  unfold Optim.unassigned. generalize (Z.of_nat (length ps)) as n.
  induction groups as [|g groups IH]; intros n; simpl; [lia|].
  rewrite IH, length_app. lia.
Qed.

(** X17.  The 'not all params are passed' warning of [__init__] is printed
    exactly when some trainable parameter's name contains 'discriminator',
    whatever the weight decay, the optimizer name and the other arguments;
    the count behind it is the number of such parameters. *)
Theorem optimizer_warns_iff_discriminator `{Optim.Torch}
        (name : string) (model : Optim.named_parameters)
        (lr momentum : Qc) (nesterov : bool) (wd gclip : Qc)
        (lr_decay : bool) (lr_decay_factor : Qc) (lr_decay_mode : string)
        (lr_decay_patience : nat) (lr_decay_min : Qc) :
  let named := Optim.get_params model in
  Optim.unassigned (map snd named) (Optim.param_groups wd named)
  = Z.of_nat (length (filter (fun np => Optim.contains "discriminator"%string
                                                       (fst np)) named))
  /\ fst (Optim.init name model lr momentum nesterov wd gclip lr_decay
                     lr_decay_factor lr_decay_mode lr_decay_patience
                     lr_decay_min)
     = existsb (fun np => Optim.requires_grad (snd np)
                          && Optim.contains "discriminator"%string (fst np))
               model.
Proof.
  intros named.
  assert (Hcount :
            Optim.unassigned (map snd named) (Optim.param_groups wd named)
            = Z.of_nat (length (filter (fun np =>
                                          Optim.contains "discriminator"%string
                                                         (fst np)) named))).
  { rewrite unassigned_sum.
    rewrite (Permutation_length (param_groups_perm wd named)), !length_map.
    pose proof (filter_length (fun np => Optim.contains "discriminator"%string
                                                        (fst np)) named) as E.
    unfold Optim.no_discriminator. lia. }
  split; [exact Hcount|].
  unfold Optim.init. cbn [fst]. fold named.
  unfold Optim.warns. rewrite Hcount.
  assert (Hex : existsb (fun np => Optim.requires_grad (snd np)
                                   && Optim.contains "discriminator"%string
                                                     (fst np))
                        model
                = existsb (fun np => Optim.contains "discriminator"%string
                                                    (fst np))
                          named).
  { unfold named, Optim.get_params. clear.
    induction model as [|np model IH]; simpl; [reflexivity|].
    destruct (Optim.requires_grad (snd np)); simpl; now rewrite IH. }
  rewrite Hex. clear.
  induction named as [|np named IH]; simpl; [reflexivity|].
  destruct (Optim.contains "discriminator"%string (fst np)); simpl.
  - reflexivity.
  - exact IH.
Qed.
(** * The feature extraction script ([bin/extract.py])

    The extraction loop and the saved array of the script
    (src/MMT/bin/extract.py, lines 158-209), for the dataset built at line
    154.  Images and feature rows are abstract; the network ([extractor]),
    [F.normalize] and the cast to float16 are functions of the rows of a
    batch. *)

Module Extract.

Inductive raised : Type :=
| ZeroDivisionError   (* [len(dataset) / bs] with [bs = 0], line 158 *)
| NameError           (* [extractor], [feats] unbound: no branch of 173-185 *)
| ShapeError.         (* numpy's ValueError of a slice assignment *)

(** The values of [--layer] for which lines 173-185 bind [extractor] and
    [feats]. *)
Definition known_layer (layer : string) : bool :=
  existsb (String.eqb layer) ["avgpool"; "res4f_relu"; "res5c_relu"]%string.

(** [int(np.ceil(n / bs))] for [bs > 0]. *)
Definition n_batches (n bs : nat) : nat := (n + bs - 1) / bs.

Section Script.

Variables Img Feat : Type.

Variable zero : Feat.             (* a row of [np.zeros] *)
Variable half : Feat -> Feat.     (* [astype('float16')] on a row *)
Variable normalize : Feat -> Feat.   (* [F.normalize] on a sample's output *)
(* [extractor(cnn, x)] for the layer chosen: the rows of [out] *)
Variable extractor : string -> list Img -> list Feat.

(** [DataLoader(dataset, batch_size=bs)]: the dataset in order, [bs] images
    per batch, the last batch with what is left. *)
Definition loader (bs : nat) (dataset : list Img) : list (list Img) :=
  chunk bs (n_batches (length dataset) bs) dataset.

(** [feats[lo:hi] = out]: the slice is cut at the array's end; [out] must
    have as many rows as the slice, or one row, which is repeated. *)
Definition set_slice (lo hi : nat) (out feats : list Feat)
  : option (list Feat) :=
  let hi' := Nat.min hi (length feats) in
  let lo' := Nat.min lo hi' in
  if length out =? hi' - lo'
  then Some (firstn lo' feats ++ out ++ skipn hi' feats)
  else if length out =? 1
       then Some (firstn lo' feats ++ repeat (hd zero out) (hi' - lo')
                         ++ skipn hi' feats)
       else None.

(** Lines 189-202: the loop over the batches, from batch [bidx] on. *)
Fixpoint extract_loop (l2norm : bool) (layer : string) (bs bidx : nat)
         (batches : list (list Img)) (feats : list Feat)
  : list Feat + raised :=
  match batches with
  | [] => inl feats
  | batch :: rest =>
      let out := extractor layer batch in
      if l2norm then
        let out := map normalize out in
        match set_slice (bidx * bs) ((bidx + 1) * bs) out feats with
        | Some feats' => extract_loop l2norm layer bs (S bidx) rest feats'
        | None => inr ShapeError
        end
      else extract_loop l2norm layer bs (S bidx) rest feats
  end.

(** Lines 158-209: the array handed to [np.save]. *)
Definition extract_features (l2norm : bool) (layer : string) (bs : nat)
           (dataset : list Img) : list Feat + raised :=
  if bs =? 0 then inr ZeroDivisionError
  else if known_layer layer then
    match extract_loop l2norm layer bs 0 (loader bs dataset)
                       (repeat zero (length dataset)) with
    | inl feats => inl (map half feats)
    | inr e => inr e
    end
  else inr NameError.

End Script.

End Extract.

Section ExtractFacts.

Variables Img Feat : Type.
Variable zero : Feat.
Variable half : Feat -> Feat.
Variable normalize : Feat -> Feat.
Variable extractor : string -> list Img -> list Feat.

Lemma extract_loop_plain (layer : string) (bs : nat)
      (batches : list (list Img)) :
  forall bidx feats,
    Extract.extract_loop Img Feat zero normalize extractor false layer bs
                         bidx batches feats = inl feats.
Proof.
  induction batches as [|b rest IH]; intros bidx feats; simpl;
    [reflexivity|apply IH].
Qed.

(** X18.  Without [--l2norm] the script saves no feature at all: the
    assignment into [feats] stands inside the [if args.l2norm] block, so
    for every dataset, network and batch size the saved array is the
    [np.zeros] placeholder (cast to float16). *)
Theorem features_zero_without_l2norm (layer : string) (bs : nat)
        (dataset : list Img) :
  0 < bs -> Extract.known_layer layer = true ->
  Extract.extract_features Img Feat zero half normalize extractor false layer
                           bs dataset
  = inl (repeat (half zero) (length dataset)).
Proof.
  intros Hbs Hlayer. unfold Extract.extract_features.
  destruct (Nat.eqb_spec bs 0); [lia|].
  rewrite Hlayer, extract_loop_plain. f_equal.
  apply map_repeat.
Qed.

Lemma chunk_concat {A : Type} (n : nat) (l : list A) :
  forall g, length l <= g * n -> concat (chunk n g l) = l.
Proof.
  intros g. revert l. induction g as [|g IH]; intros l Hl; simpl.
  - destruct l; [reflexivity|simpl in Hl; lia].
  - rewrite IH.
    + apply firstn_skipn.
    + rewrite length_skipn. simpl in Hl. lia.
Qed.

Lemma n_batches_covers (n bs : nat) :
  0 < bs -> n <= Extract.n_batches n bs * bs.
Proof.
  intros Hbs. unfold Extract.n_batches.
  pose proof (Nat.div_mod_eq (n + bs - 1) bs) as E.
  pose proof (Nat.mod_upper_bound (n + bs - 1) bs ltac:(lia)) as Hm.
  nia.
Qed.

Lemma skipn_repeat_sub {A : Type} (c : A) (n m : nat) :
  skipn n (repeat c m) = repeat c (m - n).
Proof.
  revert m. induction n as [|n IH]; intros m; simpl.
  - now rewrite Nat.sub_0_r.
  - destruct m as [|m]; simpl; [reflexivity|apply IH].
Qed.

Lemma n_batches_step (n bs : nat) :
  0 < bs -> 0 < n ->
  Extract.n_batches n bs = S (Extract.n_batches (n - bs) bs).
Proof.
  intros Hbs Hn. unfold Extract.n_batches.
  destruct (Nat.le_gt_cases bs n) as [Hle|Hlt].
  - replace (n + bs - 1) with ((n - bs + bs - 1) + 1 * bs) by lia.
    rewrite Nat.div_add by lia. lia.
  - replace (n - bs) with 0 by lia. simpl.
    rewrite (Nat.div_small (bs - 1) bs) by lia.
    assert (E : (n + bs - 1) / bs = 1).
    { symmetry. apply Nat.div_unique with (r := n - 1); lia. }
    now rewrite E.
Qed.

Lemma n_batches_zero (bs : nat) : 0 < bs -> Extract.n_batches 0 bs = 0.
Proof. intros Hbs. unfold Extract.n_batches. apply Nat.div_small. lia. Qed.

(** Writing the batch that starts where the written rows end. *)
Lemma set_slice_next (out done : list Feat) (w m : nat) :
  length out = Nat.min w m ->
  Extract.set_slice Feat zero (length done) (length done + w) out
                    (done ++ repeat zero m)
  = Some ((done ++ out) ++ repeat zero (m - w)).
Proof.
  intros Hout. unfold Extract.set_slice.
  rewrite length_app, repeat_length.
  set (hi' := Nat.min (length done + w) (length done + m)).
  assert (Hhi : hi' = length done + Nat.min w m) by (unfold hi'; lia).
  assert (Hlo : Nat.min (length done) hi' = length done) by lia.
  rewrite Hlo.
  destruct (Nat.eqb_spec (length out) (hi' - length done)) as [_|Hne];
    [|lia].
  rewrite firstn_app, firstn_all2 by lia.
  replace (length done - length done) with 0 by lia. simpl firstn.
  rewrite app_nil_r.
  rewrite skipn_app, (skipn_all2 done) by lia. simpl app.
  rewrite skipn_repeat_sub.
  replace (m - (hi' - length done)) with (m - w) by lia.
  now rewrite <- app_assoc.
Qed.

(** The loop on the batches left, when the rows before them are written. *)
Lemma extract_loop_l2norm (layer : string) (bs : nat) :
  0 < bs ->
  (forall batch, length (extractor layer batch) = length batch) ->
  forall g rest done i,
    g = Extract.n_batches (length rest) bs ->
    length done = i * bs ->
    Extract.extract_loop Img Feat zero normalize extractor true layer bs i
                         (chunk bs g rest)
                         (done ++ repeat zero (length rest))
    = inl (done
           ++ concat (map (fun b => map normalize (extractor layer b))
                          (chunk bs g rest))).
Proof.
  intros Hbs Hlen. induction g as [|g IH]; intros rest done i Hg Hdone.
  - assert (Hnil : rest = []).
    { destruct rest as [|x rest]; [reflexivity|].
      rewrite (n_batches_step (length (x :: rest)) bs Hbs) in Hg
        by (simpl; lia).
      discriminate. }
    subst rest. simpl. reflexivity.
  - assert (Hpos : 0 < length rest).
    { destruct rest; [|simpl; lia].
      simpl in Hg. rewrite n_batches_zero in Hg by exact Hbs. discriminate. }
    cbn [chunk Extract.extract_loop map concat].
    set (batch := firstn bs rest).
    set (out := map normalize (extractor layer batch)).
    assert (Hout : length out = Nat.min bs (length rest)).
    { unfold out, batch. now rewrite length_map, Hlen, length_firstn. }
    replace (i * bs) with (length done) by exact Hdone.
    replace ((i + 1) * bs) with (length done + bs) by lia.
    rewrite (set_slice_next out done bs (length rest) Hout).
    rewrite <- (length_skipn bs rest).
    rewrite n_batches_step in Hg by assumption.
    injection Hg as Hg. rewrite <- (length_skipn bs rest) in Hg.
    destruct g as [|g'].
    + assert (Hnil : skipn bs rest = []).
      { destruct (skipn bs rest) as [|x r]; [reflexivity|].
        rewrite (n_batches_step (length (x :: r)) bs Hbs) in Hg
          by (simpl; lia).
        discriminate. }
      rewrite Hnil. simpl. now rewrite !app_nil_r.
    + rewrite (IH (skipn bs rest) (done ++ out) (S i) Hg).
      * now rewrite <- app_assoc.
      * rewrite length_app, Hout, Hdone.
        assert (Hfull : bs <= length rest).
        { destruct (Nat.le_gt_cases bs (length rest)) as [?|Hlt];
            [assumption|].
          rewrite length_skipn in Hg.
          replace (length rest - bs) with 0 in Hg by lia.
          rewrite n_batches_zero in Hg by exact Hbs. discriminate. }
        lia.
Qed.

(** X19.  With [--l2norm], and a network that returns one row per image of
    a batch, the saved array holds the normalised outputs of the batches in
    dataset order, one row per image; when the network treats the images of
    a batch independently, row [i] is the normalised output of image [i]. *)
Theorem features_in_dataset_order (layer : string) (bs : nat)
        (dataset : list Img) :
  0 < bs -> Extract.known_layer layer = true ->
  (forall batch, length (extractor layer batch) = length batch) ->
  exists feats,
    Extract.extract_features Img Feat zero half normalize extractor true layer
                             bs dataset = inl feats
    /\ length feats = length dataset
    /\ feats = map half
                   (concat (map (fun b => map normalize (extractor layer b))
                                (Extract.loader Img bs dataset)))
    /\ forall f : Img -> Feat,
         (forall batch, extractor layer batch = map f batch) ->
         feats = map (fun img => half (normalize (f img))) dataset.
Proof.
  intros Hbs Hlayer Hlen. unfold Extract.extract_features.
  destruct (Nat.eqb_spec bs 0); [lia|].
  rewrite Hlayer. unfold Extract.loader.
  pose proof (extract_loop_l2norm layer bs Hbs Hlen
                (Extract.n_batches (length dataset) bs) dataset [] 0
                eq_refl eq_refl) as Hloop.
  simpl app in Hloop. rewrite Hloop.
  eexists. split; [reflexivity|].
  assert (Hcover : concat (chunk bs (Extract.n_batches (length dataset) bs)
                                 dataset) = dataset).
  { apply chunk_concat. now apply n_batches_covers. }
  split; [|split; [reflexivity|]].
  - rewrite length_map.
    assert (Hl : forall L : list (list Img),
               length (concat (map (fun b => map normalize
                                                 (extractor layer b)) L))
               = length (concat L)).
    { induction L as [|b L IH]; simpl; [reflexivity|].
      now rewrite !length_app, length_map, Hlen, IH. }
    now rewrite Hl, Hcover.
  - intros f Hf.
    assert (Hm : forall L : list (list Img),
               map half (concat (map (fun b => map normalize
                                                   (extractor layer b)) L))
               = map (fun img => half (normalize (f img))) (concat L)).
    { induction L as [|b L IH]; simpl; [reflexivity|].
      now rewrite !map_app, IH, Hf, !map_map. }
    now rewrite Hm, Hcover.
Qed.

End ExtractFacts.
(** ** Worked instances for the optimizer and the extraction script *)

Module Witness3.

(** [Toy.vocab6] with another id for the end of sequence. *)
Definition vocab_eos5 : Vocab :=
  {| unk := unk Toy.vocab6;
     eos := 5;
     n_vocab := n_vocab Toy.vocab6;
     word := word Toy.vocab6 |}.

End Witness3.

Lemma step_loop_ignores_eos_witness :
  n_vocab Toy.vocab6 = n_vocab Witness3.vocab_eos5
  /\ unk Toy.vocab6 = unk Witness3.vocab_eos5
  /\ eos Toy.vocab6 <> eos Witness3.vocab_eos5
  /\ step_loop [PinExample.decoder] Toy.vocab6 2 false 1 3 0 PinExample.st0
     = step_loop [PinExample.decoder] Witness3.vocab_eos5 2 false 1 3 0
                 PinExample.st0.
Proof.
  split; [reflexivity|]. split; [reflexivity|].
  split; [simpl; lia|].
  exact (step_loop_ignores_eos [PinExample.decoder] Toy.vocab6
           Witness3.vocab_eos5 2 false 1 3 eq_refl eq_refl 0 PinExample.st0).
Defined.

Lemma features_zero_without_l2norm_witness :
  0 < 2 /\ Extract.known_layer "avgpool"%string = true
  /\ Extract.extract_features nat nat 0 (fun x => x) S (fun _ b => b) false
                              "avgpool"%string 2 [7; 8; 9]
     = inl [0; 0; 0].
Proof.
  split; [lia|]. split; [reflexivity|].
  exact (features_zero_without_l2norm nat nat 0 (fun x => x) S (fun _ b => b)
           "avgpool"%string 2 [7; 8; 9] ltac:(lia) eq_refl).
Defined.

Lemma features_in_dataset_order_witness :
  0 < 2 /\ Extract.known_layer "avgpool"%string = true
  /\ exists feats,
       Extract.extract_features nat nat 0 (fun x => x) S (fun _ b => b) true
                                "avgpool"%string 2 [7; 8; 9] = inl feats
       /\ feats = map (fun img => S img) [7; 8; 9].
Proof.
  split; [lia|]. split; [reflexivity|].
  destruct (features_in_dataset_order nat nat 0 (fun x => x) S (fun _ b => b)
              "avgpool"%string 2 [7; 8; 9] ltac:(lia) eq_refl
              (fun batch => eq_refl))
    as (feats & Hrun & _ & _ & Hrows).
  exists feats. split; [exact Hrun|].
  apply (Hrows (fun x => x)). intros batch. symmetry. apply map_id.
Defined.
